(** * LocalSeal: the anonymisation pipeline and the licence validator

    A shallow embedding of the JavaScript sources

    - [js/services/SecurityManager.js]  (licence credential validation),
    - [js/services/NLPProcessor.js]     (sensitive-value detector, word mapper),
    - [js/services/ImageService.js]     (region redactor),
    - [js/services/OCRService.js] and [js/LocalSealEngine.js] (orchestrator),
    - [js/workers/ocr.worker.js], [js/WorkerManager.js] and [js/app.js]
      (the worker, its manager, and the batch loop of the page),

    followed by the properties proved about them.

    Conventions.  A JavaScript string is the list of its UTF-16 code units
    (each a [Z] in [0, 65535]).  A JavaScript number that the code only uses
    as an integer is a [Z]; where the code can meet [NaN] the type [number]
    below is used; the progress fractions of the orchestrator are IEEE 754
    binary64 values (primitive floats).  Mutable objects are threaded
    explicitly: every method that mutates [this] or [localStorage] takes the
    state and returns the new one. *)

From Stdlib Require Import ZArith List Bool Ascii String Lia.
From Stdlib Require Import Floats.PrimFloat.
From stdpp Require Import base tactics option list numbers.

(* The progress fractions of the source are decimal literals; each denotes
   the nearest binary64 value, as in JavaScript. *)
#[local] Set Warnings "-inexact-float".

Local Open Scope Z_scope.

(* ===================================================================== *)
(** * The JavaScript builtins the sources rely on                          *)
(* ===================================================================== *)

Module JS.

(** Strings as sequences of UTF-16 code units. *)
Definition jsstring : Type := list Z.

(** A string literal of the source (Basic Latin only). *)
Definition lit (s : string) : jsstring :=
  map (fun a => Z.of_N (N_of_ascii a)) (list_ascii_of_string s).

Definition str_eqb (a b : jsstring) : bool := bool_decide (a = b).

(** ** Character classes of the regular-expression grammar *)

Definition in_range (lo hi c : Z) : bool := (lo <=? c) && (c <=? hi).

Definition is_digit (c : Z) : bool := in_range 48 57 c.          (* \d, [0-9] *)
Definition is_upper (c : Z) : bool := in_range 65 90 c.          (* [A-Z] *)
Definition is_lower (c : Z) : bool := in_range 97 122 c.         (* [a-z] *)

(** [\w] without the [u] flag: [[A-Za-z0-9_]]. *)
Definition is_word (c : Z) : bool :=
  is_upper c || is_lower c || is_digit c || (c =? 95).

(** [\s]: WhiteSpace and LineTerminator code points of ECMAScript. *)
Definition is_space (c : Z) : bool :=
  in_range 9 13 c || (c =? 32) || (c =? 160) || (c =? 5760)
  || in_range 8192 8202 c || (c =? 8232) || (c =? 8233) || (c =? 8239)
  || (c =? 8287) || (c =? 12288) || (c =? 65279).

(** ** 32-bit integer operators *)

(** ToInt32: the signed 32-bit integer congruent to [z] modulo 2^32. *)
Definition to_int32 (z : Z) : Z := (z + 2 ^ 31) mod 2 ^ 32 - 2 ^ 31.

(** [a << n]. *)
Definition shl32 (a n : Z) : Z := to_int32 (Z.shiftl (to_int32 a) (n mod 32)).

(** [a & b]. *)
Definition and32 (a b : Z) : Z := Z.land (to_int32 a) (to_int32 b).

(** ** Numbers that may be [NaN]

    [Num z] is the integer [z] (the sources only produce integers at the
    places where this type is used, all of them far below 2^53, so the
    binary64 operations on them are exact). *)
Inductive number : Type :=
| NaN
| Num (z : Z).

Definition num_sub (a b : number) : number :=
  match a, b with
  | Num x, Num y => Num (x - y)
  | _, _ => NaN
  end.

(** [a < b] and [a > b]: false as soon as one side is [NaN]. *)
Definition num_lt (a b : number) : bool :=
  match a, b with
  | Num x, Num y => x <? y
  | _, _ => false
  end.

Definition num_gt (a b : number) : bool := num_lt b a.

(** ** Number.prototype.toString(16) on a non-negative integer *)

Definition hex_digit (d : Z) : Z := if d <? 10 then 48 + d else 97 + (d - 10).

Fixpoint to_hex_aux (fuel : nat) (n : Z) (acc : jsstring) : jsstring :=
  match fuel with
  | O => acc
  | S fuel' =>
      let acc' := hex_digit (n mod 16) :: acc in
      if n <? 16 then acc' else to_hex_aux fuel' (n / 16) acc'
  end.

(** The number of hexadecimal digits of [n] is at most [log2 n + 1]. *)
Definition toString16 (n : Z) : jsstring :=
  to_hex_aux (S (Z.to_nat (Z.log2 n))) n [].

(** String.prototype.toUpperCase, exact on Basic Latin (the only call site
    passes a string of hexadecimal digits). *)
Definition toUpperCase (s : jsstring) : jsstring :=
  map (fun c => if is_lower c then c - 32 else c) s.

(** String.prototype.padStart(n, fill) for a one-character [fill]. *)
Definition padStart (n : nat) (fill : Z) (s : jsstring) : jsstring :=
  replicate (n - length s) fill ++ s.

(** String.prototype.slice(-n): the last [n] code units. *)
Definition slice_last (n : nat) (s : jsstring) : jsstring :=
  drop (length s - n) s.

(** String.prototype.split(sep) for a one-character separator. *)
Fixpoint split_aux (sep : Z) (s : jsstring) (cur : jsstring) : list jsstring :=
  match s with
  | [] => [rev cur]
  | c :: s' =>
      if c =? sep then rev cur :: split_aux sep s' []
      else split_aux sep s' (c :: cur)
  end.

Definition split (sep : Z) (s : jsstring) : list jsstring := split_aux sep s [].

(** Array.prototype.join(sep) for a one-character separator. *)
Fixpoint join (sep : Z) (parts : list jsstring) : jsstring :=
  match parts with
  | [] => []
  | [p] => p
  | p :: rest => p ++ sep :: join sep rest
  end.

(** ** parseInt(s, 16)

    Leading white space is skipped, a sign is read, a [0x]/[0X] prefix is
    dropped, then the longest prefix of hexadecimal digits is read; the
    result is [NaN] when that prefix is empty. *)

Definition hex_value (c : Z) : option Z :=
  if is_digit c then Some (c - 48)
  else if in_range 65 70 c then Some (c - 55)
  else if in_range 97 102 c then Some (c - 87)
  else None.

Fixpoint skip_space (s : jsstring) : jsstring :=
  match s with
  | c :: s' => if is_space c then skip_space s' else s
  | [] => []
  end.

(** The digits read so far are [acc]; [seen] tells whether there is one. *)
Fixpoint read_hex (s : jsstring) (seen : bool) (acc : Z) : number :=
  match s with
  | c :: s' =>
      match hex_value c with
      | Some d => read_hex s' true (acc * 16 + d)
      | None => if seen then Num acc else NaN
      end
  | [] => if seen then Num acc else NaN
  end.

Definition strip_0x (s : jsstring) : jsstring :=
  match s with
  | 48 :: x :: s' => if (x =? 120) || (x =? 88) then s' else s
  | _ => s
  end.

Definition parseInt16 (s : jsstring) : number :=
  let s := skip_space s in
  let '(neg, s) :=
    match s with
    | 45 :: s' => (true, s')
    | 43 :: s' => (false, s')
    | _ => (false, s)
    end in
  match read_hex (strip_0x s) false 0 with
  | Num z => Num (if neg then - z else z)
  | NaN => NaN
  end.

End JS.


(* ===================================================================== *)
(** * Regular expressions: the fragment used by [this.patterns]            *)
(* ===================================================================== *)

Module Regex.
Import JS.

(** Patterns without captures, look-around or back-references. *)
Inductive regex : Type :=
| Empty                                         (* the empty pattern *)
| Char (c : Z)                                  (* a literal character *)
| Class (p : Z -> bool)                         (* a class or a class escape *)
| WordBoundary                                  (* \b *)
| InputStart                                    (* ^, without the m flag *)
| InputEnd                                      (* $, without the m flag *)
| Seq (r1 r2 : regex)
| Alt (r1 r2 : regex)                           (* r1|r2 *)
| Rep (min : nat) (max : option nat) (r : regex). (* greedy r{min,max}; None is no bound *)

(** [r1 r2 ... rn]. *)
Definition seq_of (rs : list regex) : regex := fold_right Seq Empty rs.

(** A literal string. *)
Definition str (s : string) : regex := seq_of (map Char (lit s)).

Definition opt (r : regex) : regex := Rep 0 (Some 1%nat) r.      (* r? *)
Definition star (r : regex) : regex := Rep 0 None r.            (* r* *)
Definition plus (r : regex) : regex := Rep 1 None r.            (* r+ *)
Definition times (n : nat) (r : regex) : regex := Rep n (Some n) r.   (* r{n} *)
Definition digit : regex := Class is_digit.                      (* \d *)
Definition space : regex := Class is_space.                      (* \s *)

(** Canonicalize, without the [u] flag: the upper-case mapping, which on
    the characters of [this.patterns] acts on Basic Latin letters only (a
    character beyond U+007F is never canonicalized into Basic Latin). *)
Definition canonicalize (ignoreCase : bool) (c : Z) : Z :=
  if ignoreCase && is_lower c then c - 32 else c.

Definition swap_case (c : Z) : Z :=
  if is_lower c then c - 32 else if is_upper c then c + 32 else c.

(** A class matches [c] when it has a member with the canonical form of
    [c]. *)
Definition class_matches (ignoreCase : bool) (p : Z -> bool) (c : Z) : bool :=
  p c || (ignoreCase && p (swap_case c)).

Section Matcher.
Variable input : jsstring.
Variable ignoreCase : bool.

(** IsWordChar(e), for [e] from -1 to the length of the input; [e] is given
    as [e + 1]. *)
Definition is_word_char (e1 : nat) : bool :=
  match e1 with
  | O => false
  | S e => match input !! e with Some c => is_word c | None => false end
  end.

(** A matcher takes the index where it starts and a continuation, and
    returns the end of the whole match, or [None] for failure. *)
Definition matcher : Type := nat -> (nat -> option nat) -> option nat.

Definition try_both (a b : option nat) : option nat :=
  match a with Some z => Some z | None => b end.

(** The [n] iterations that the quantifier requires. *)
Fixpoint repeat_required (m : matcher) (n : nat) (rest : matcher) : matcher :=
  fun x c =>
    match n with
    | O => rest x c
    | S n' => m x (fun y => repeat_required m n' rest y c)
    end.

(** Up to [n] further iterations, greedy; an iteration that matches the
    empty string is rejected. *)
Fixpoint repeat_upto (m : matcher) (n : nat) : matcher :=
  fun x c =>
    match n with
    | O => c x
    | S n' =>
        try_both (m x (fun y => if (y =? x)%nat then None else repeat_upto m n' y c))
                 (c x)
    end.

(** Any number of further iterations, greedy.  Each one consumes input, so
    from [x] there are at most [length input - x] of them: [fuel] is that
    bound, and with none left the input is exhausted. *)
Fixpoint repeat_any (m : matcher) (fuel : nat) : matcher :=
  fun x c =>
    match fuel with
    | O => c x
    | S fuel' =>
        try_both (m x (fun y => if (y <=? x)%nat then None else repeat_any m fuel' y c))
                 (c x)
    end.

Fixpoint compile (r : regex) : matcher :=
  fun x c =>
    match r with
    | Empty => c x
    | Char a =>
        match input !! x with
        | Some ch =>
            if canonicalize ignoreCase ch =? canonicalize ignoreCase a
            then c (S x) else None
        | None => None
        end
    | Class p =>
        match input !! x with
        | Some ch => if class_matches ignoreCase p ch then c (S x) else None
        | None => None
        end
    | WordBoundary =>
        if xorb (is_word_char x) (is_word_char (S x)) then c x else None
    | InputStart => if (x =? 0)%nat then c x else None
    | InputEnd => if (x =? length input)%nat then c x else None
    | Seq r1 r2 => compile r1 x (fun y => compile r2 y c)
    | Alt r1 r2 => try_both (compile r1 x c) (compile r2 x c)
    | Rep min max r1 =>
        repeat_required (compile r1) min
          (match max with
           | Some max => repeat_upto (compile r1) (max - min)
           | None => fun x c => repeat_any (compile r1) (length input - x) x c
           end) x c
    end.

(** The first index from [i] on at which the pattern matches, and the end
    of the match there; [fuel] is the number of later indices to try. *)
Fixpoint search (r : regex) (fuel : nat) (i : nat) : option (nat * nat) :=
  match compile r i Some with
  | Some e => Some (i, e)
  | None =>
      match fuel with
      | O => None
      | S fuel' => search r fuel' (S i)
      end
  end.

End Matcher.

(** A [RegExp] object with the [g] flag. *)
Record RegExp : Type := mkRegExp {
  source : regex;
  ignoreCase : bool;
  lastIndex : nat
}.

(** [regex.exec(text)]: the index and the end of the match, or [None] for
    [null], and the object with its new [lastIndex]. *)
Definition exec (rx : RegExp) (text : jsstring) : option (nat * nat) * RegExp :=
  let reset := {| source := source rx; ignoreCase := ignoreCase rx; lastIndex := 0 |} in
  if (length text <? lastIndex rx)%nat then (None, reset)
  else
    match search text (ignoreCase rx) (source rx)
            (length text - lastIndex rx) (lastIndex rx) with
    | Some (i, e) =>
        (Some (i, e),
         {| source := source rx; ignoreCase := ignoreCase rx; lastIndex := e |})
    | None => (None, reset)
    end.

(** [regex.test(text)] for a pattern without the [g] flag: the search
    starts at index 0. *)
Definition test (r : regex) (ignoreCase : bool) (text : jsstring) : bool :=
  match search text ignoreCase r (length text) 0 with
  | Some _ => true
  | None => false
  end.

End Regex.

(* ===================================================================== *)
(** * SecurityManager.js: the licence validator                            *)
(* ===================================================================== *)

Module Security.
Import JS.

(** A quota that may be [Infinity]. *)
Inductive quota : Type :=
| Finite (n : Z)
| Infinity.

(** [this.licenseStatus]. *)
Record LicenseStatus : Type := mkLicenseStatus {
  isPro : bool;
  expirationDate : option Z;          (* null, or a time in milliseconds *)
  maxFilesPerDay : quota;
  remainingFiles : quota;
  maxFileSize : quota;
  licenseKey : option jsstring        (* absent until a key is activated *)
}.

(** The status the constructor installs. *)
Definition initialStatus : LicenseStatus :=
  {| isPro := false;
     expirationDate := None;
     maxFilesPerDay := Finite 5;
     remainingFiles := Finite 5;
     maxFileSize := Finite (2 * 1024 * 1024);
     licenseKey := None |}.

(** The object stored under ['localseal_license']. *)
Record StoredLicense : Type := mkStoredLicense {
  sl_key : jsstring;
  sl_expirationDate : Z;
  sl_isPro : bool
}.

(** [localStorage], seen through the two items the validator touches.  An
    item holds the JSON text of a value; [JSON.parse] inverts
    [JSON.stringify] on these values, so the item is modelled by the value
    itself, and [None] is an absent item ([getItem] returns [null]). *)
Record LocalStorage : Type := mkLocalStorage {
  localseal_used_keys : option (list jsstring);
  localseal_license : option StoredLicense
}.

Definition emptyStorage : LocalStorage :=
  {| localseal_used_keys := None; localseal_license := None |}.

(** [JSON.parse(localStorage.getItem('localseal_used_keys') || '[]')]. *)
Definition get_used_keys (ls : LocalStorage) : list jsstring :=
  default [] (localseal_used_keys ls).

(** [localStorage.setItem('localseal_used_keys', JSON.stringify(usedKeys))]. *)
Definition set_used_keys (usedKeys : list jsstring) (ls : LocalStorage) : LocalStorage :=
  {| localseal_used_keys := Some usedKeys;
     localseal_license := localseal_license ls |}.

(** [localStorage.setItem('localseal_license', JSON.stringify(license))]. *)
Definition set_license (l : StoredLicense) (ls : LocalStorage) : LocalStorage :=
  {| localseal_used_keys := localseal_used_keys ls;
     localseal_license := Some l |}.

(** [usedKeys.includes(key)]. *)
Definition includes_key (usedKeys : list jsstring) (key : jsstring) : bool :=
  existsb (str_eqb key) usedKeys.

(** ** The shape test *)

Definition is_key_char (c : Z) : bool := is_upper c || is_digit c.   (* [A-Z0-9] *)
Definition hyphen : Z := 45.

(** [/^[A-Z0-9]{4}-[A-Z0-9]{4}-[A-Z0-9]{4}-[A-Z0-9]{4}$/]. *)
Definition shape_re : Regex.regex :=
  let group := Regex.times 4 (Regex.Class is_key_char) in
  Regex.seq_of
    [ Regex.InputStart; group; Regex.Char hyphen; group; Regex.Char hyphen;
      group; Regex.Char hyphen; group; Regex.InputEnd ].

Definition shape_test (key : jsstring) : bool := Regex.test shape_re false key.

(** ** The checksum *)

Definition SALT : jsstring := lit "LocalSeal_V2_Secret_Salt_2026".

(** One turn of the loop:
    [hash = ((hash << 5) - hash) + char; hash = hash & hash]. *)
Definition hash_step (hash char : Z) : Z :=
  let hash := (shl32 hash 5 - hash) + char in
  and32 hash hash.

(** [for (let i = 0; i < input.length; i++)] over [input.charCodeAt(i)],
    from [hash = 0]. *)
Definition rolling_hash (input : jsstring) : Z := fold_left hash_step input 0.

(** [Math.abs(hash).toString(16).toUpperCase().padStart(4, '0').slice(-4)]. *)
Definition render_check (hash : Z) : jsstring :=
  slice_last 4 (padStart 4 48 (toUpperCase (toString16 (Z.abs hash)))).

Definition parts_of (key : jsstring) : list jsstring := split hyphen key.

(** [parts.slice(0, 3).join('-')]. *)
Definition payload_of (key : jsstring) : jsstring := join hyphen (take 3 (parts_of key)).

(** [parts[3]] and [parts[1]]; both exist once the shape test has passed. *)
Definition check_of (key : jsstring) : jsstring := nth 3 (parts_of key) [].
Definition timeCodeHex_of (key : jsstring) : jsstring := nth 1 (parts_of key) [].

Definition calculatedCheck (key : jsstring) : jsstring :=
  render_check (rolling_hash (payload_of key ++ SALT)).

(** ** The time window

    [now] is the value of [Date.now()].  Nothing in the [try] block can
    throw, so its [catch] branch is never taken; the function returns false
    from inside the block exactly when [diff < 0 || diff > 5]. *)
Definition time_diff (now : Z) (timeCodeHex : jsstring) : number :=
  let keyMinutes := parseInt16 timeCodeHex in
  let currentMinutes := Num (now / 60000) in       (* Math.floor(now / 60000) *)
  num_sub currentMinutes keyMinutes.

Definition window_rejects (now : Z) (timeCodeHex : jsstring) : bool :=
  let diff := time_diff now timeCodeHex in
  num_lt diff (Num 0) || num_gt diff (Num 5).

(** ** The replay check, and the rest of [_validateLicenseKey] after the
    checksum has been accepted *)
Definition replay_stage (key : jsstring) (ls : LocalStorage) : bool * LocalStorage :=
  let usedKeys := get_used_keys ls in
  if includes_key usedKeys key then (false, ls)
  else
    let usedKeys := usedKeys ++ [key] in           (* usedKeys.push(key) *)
    (true, set_used_keys usedKeys ls).

Definition time_replay_stage (now : Z) (key : jsstring) (ls : LocalStorage)
  : bool * LocalStorage :=
  if window_rejects now (timeCodeHex_of key) then (false, ls)
  else replay_stage key ls.

(** [_validateLicenseKey(key)]: the result and the new [localStorage]. *)
Definition _validateLicenseKey (now : Z) (key : jsstring) (ls : LocalStorage)
  : bool * LocalStorage :=
  if negb (shape_test key) then (false, ls)
  else if negb (str_eqb (check_of key) (calculatedCheck key)) then (false, ls)
  else time_replay_stage now key ls.

(** The manager: its [licenseStatus] field and [localStorage]. *)
Record Manager : Type := mkManager {
  licenseStatus : LicenseStatus;
  storage : LocalStorage
}.

(** [activateLicense(licenseKey)], at the moment its timer fires.  [now] is
    what [Date.now()] returns inside [_validateLicenseKey] and [now'] what it
    returns afterwards, when the expiration date is computed. *)
Definition activateLicense (now now' : Z) (key : jsstring) (m : Manager)
  : bool * Manager :=
  let '(ok, ls) := _validateLicenseKey now key (storage m) in
  if ok then
    let expirationDate := now' + 365 * 24 * 60 * 60 * 1000 in
    let license := {| sl_key := key; sl_expirationDate := expirationDate; sl_isPro := true |} in
    let ls := set_license license ls in
    (true,
     {| licenseStatus :=
          {| isPro := true;
             expirationDate := Some expirationDate;
             maxFilesPerDay := Infinity;
             remainingFiles := Infinity;
             maxFileSize := Infinity;
             licenseKey := Some key |};
        storage := ls |})
  else (false, {| licenseStatus := licenseStatus m; storage := ls |}).

(** ** The checksum as the specification words it *)

(** [hash = hash * 31 + charCode] with 32-bit signed wrap-around. *)
Definition spec_hash (input : jsstring) : Z :=
  fold_left (fun hash charCode => to_int32 (hash * 31 + charCode)) input 0.

(** Upper-case hexadecimal digits of a non-negative integer, most
    significant first. *)
Definition upper_hex_digit (d : Z) : Z := if d <? 10 then 48 + d else 65 + (d - 10).

Fixpoint upper_hex_aux (fuel : nat) (n : Z) (acc : jsstring) : jsstring :=
  match fuel with
  | O => acc
  | S fuel' =>
      let acc' := upper_hex_digit (n mod 16) :: acc in
      if n <? 16 then acc' else upper_hex_aux fuel' (n / 16) acc'
  end.

Definition upper_hex (n : Z) : jsstring :=
  upper_hex_aux (S (Z.to_nat (Z.log2 n))) n [].

(** Zero-padded to four characters, then the last four characters kept. *)
Definition spec_checksum (g1 g2 g3 : jsstring) : jsstring :=
  let input := g1 ++ hyphen :: g2 ++ hyphen :: g3 ++ SALT in
  let h := upper_hex (Z.abs (spec_hash input)) in
  let padded := replicate (4 - length h) 48 ++ h in
  drop (length padded - 4) padded.

(** A credential [g1-g2-g3-g4]. *)
Definition credential (g1 g2 g3 g4 : jsstring) : jsstring :=
  g1 ++ hyphen :: g2 ++ hyphen :: g3 ++ hyphen :: g4.

(** A group of the credential: four characters of [[A-Z0-9]]. *)
Definition is_group (g : jsstring) : Prop :=
  length g = 4%nat /\ forallb is_key_char g = true.

End Security.

(* ===================================================================== *)
(** * OCRService.js: what the OCR service hands to the pipeline            *)
(* ===================================================================== *)

Module OCR.
Import JS.

(** A bounding box [{ x0, y0, x1, y1 }], in pixels. *)
Record BBox : Type := mkBBox { x0 : Z; y0 : Z; x1 : Z; y1 : Z }.

(** A recognised word.  Its [baseline] is never read and is left out. *)
Record Word : Type := mkWord {
  w_text : jsstring;
  w_confidence : float;
  w_bbox : BBox
}.

(** The result of [extractText], without the [lines] and [blocks] that the
    pipeline never reads. *)
Record OcrResult : Type := mkOcrResult {
  o_text : jsstring;
  o_confidence : float;
  o_words : list Word
}.

End OCR.

(* ===================================================================== *)
(** * NLPProcessor.js: the entity merger and word mapper                   *)
(* ===================================================================== *)

(** [String.prototype.toLowerCase] and [String.prototype.normalize('NFD')]
    are driven by the Unicode tables of the host.  The word mapper is
    defined over any such pair of functions. *)
Class UnicodeTables : Type := {
  toLowerCase : JS.jsstring -> JS.jsstring;
  normalizeNFD : JS.jsstring -> JS.jsstring
}.

(** The tables for the Basic Latin and Latin-1 Supplement blocks
    (U+0000..U+00FF); code units outside them are left unchanged, so the
    instance agrees with the host on strings over these two blocks. *)
Module Latin1.

(** Lower-case mapping: A-Z, and U+00C0..U+00DE except the sign U+00D7. *)
Definition lower (c : Z) : Z :=
  if JS.in_range 65 90 c then c + 32
  else if JS.in_range 192 222 c && negb (c =? 215) then c + 32
  else c.

(** Canonical decomposition of the lower-case letters of U+00E0..U+00FF:
    the base letter and the combining mark. *)
Definition decompose_lower (c : Z) : option (Z * Z) :=
  match c with
  | 224 => Some (97, 768)  | 225 => Some (97, 769)  | 226 => Some (97, 770)
  | 227 => Some (97, 771)  | 228 => Some (97, 776)  | 229 => Some (97, 778)
  | 231 => Some (99, 807)
  | 232 => Some (101, 768) | 233 => Some (101, 769) | 234 => Some (101, 770)
  | 235 => Some (101, 776)
  | 236 => Some (105, 768) | 237 => Some (105, 769) | 238 => Some (105, 770)
  | 239 => Some (105, 776)
  | 241 => Some (110, 771)
  | 242 => Some (111, 768) | 243 => Some (111, 769) | 244 => Some (111, 770)
  | 245 => Some (111, 771) | 246 => Some (111, 776)
  | 249 => Some (117, 768) | 250 => Some (117, 769) | 251 => Some (117, 770)
  | 252 => Some (117, 776)
  | 253 => Some (121, 769) | 255 => Some (121, 776)
  | _ => None
  end.

(** The capitals U+00C0..U+00DE decompose as their lower-case letters do,
    with the capital base letter. *)
Definition decompose (c : Z) : list Z :=
  if JS.in_range 192 222 c then
    match decompose_lower (c + 32) with
    | Some (base, mark) => [base - 32; mark]
    | None => [c]
    end
  else
    match decompose_lower c with
    | Some (base, mark) => [base; mark]
    | None => [c]
    end.

#[export] Instance tables : UnicodeTables :=
  {| toLowerCase := map lower;
     normalizeNFD := flat_map decompose |}.

End Latin1.

Module NLP.
Import JS OCR.

(** The [type] of a target: the three entity kinds of [analyze], and the
    keys of [this.patterns]. *)
Inductive kind : Type :=
| person | place | organization
| email | phone | iban | secu | creditCard | postalCode | invoiceNumber
| amount | date | siret | siren | tva.

(** An entity or a sensitive match: [{ type, text, offset, length }]. *)
Record TextSpan : Type := mkTextSpan {
  type : kind;
  text : jsstring;
  offset : Z;
  length : Z
}.

(** The result of [analyze].  [total] is missing from the object returned
    on the two early exits. *)
Record NlpResult : Type := mkNlpResult {
  entities : list TextSpan;
  sensitive : list TextSpan;
  total : option Z
}.

(** An element of [boxesToBlur]: [{ bbox, type, text, confidence }]. *)
Record RedactionBox : Type := mkRedactionBox {
  b_bbox : BBox;
  b_type : kind;
  b_text : jsstring;
  b_confidence : float
}.

(** ** The constructor: [this.patterns], in the order of its keys *)

Import Regex.

Definition one_of (cs : string) (c : Z) : bool :=
  existsb (Z.eqb c) (lit cs).

Definition email_re : regex :=
  seq_of [ WordBoundary;
           plus (Class (fun c => is_upper c || is_lower c || is_digit c || one_of "._%+-" c));
           Char 64;                                                   (* @ *)
           plus (Class (fun c => is_upper c || is_lower c || is_digit c || one_of ".-" c));
           Char 46;                                                   (* \. *)
           Rep 2 None (Class (fun c => is_upper c || one_of "|" c || is_lower c));
           WordBoundary ].

Definition phone_re : regex :=
  seq_of [ Alt (str "+33") (Char 48);
           Class (in_range 49 57);                                    (* [1-9] *)
           times 4 (Seq (opt (Class (fun c => is_space c || one_of ".-" c)))
                        (times 2 digit)) ].

Definition iban_re : regex :=
  seq_of [ WordBoundary; times 2 (Class is_upper); times 2 digit;
           Rep 1 (Some 30%nat) (Class (fun c => is_upper c || is_digit c));
           WordBoundary ].

Definition secu_re : regex :=
  seq_of [ WordBoundary; Class (in_range 49 50);                      (* [1-2] *)
           opt space; times 2 digit; opt space; times 2 digit;
           opt space; times 2 digit; opt space; times 3 digit;
           opt space; times 3 digit; opt space; times 2 digit;
           WordBoundary ].

Definition sep_re : regex := opt (Class (fun c => is_space c || one_of "-" c)).   (* [\s-]? *)

Definition creditCard_re : regex :=
  seq_of [ WordBoundary; times 4 digit; sep_re; times 4 digit; sep_re;
           times 4 digit; sep_re; times 4 digit; WordBoundary ].

Definition postalCode_re : regex :=
  seq_of [ WordBoundary; times 5 digit; WordBoundary ].

Definition label_sep_re : regex :=
  star (Class (fun c => is_space c || one_of ":-" c)).               (* [\s:-]* *)

Definition invoiceNumber_re : regex :=
  seq_of [ WordBoundary;
           Alt (seq_of [ Char 78; opt (Class (fun c => (c =? 176) || (c =? 111)));
                         star space ])                                (* N[°o]?\s* *)
               (Alt (Seq (str "Facture") label_sep_re)
                    (Alt (Seq (str "Ref") label_sep_re)
                         (Seq (str "Commande") label_sep_re)));
           Rep 3 (Some 12%nat) digit;
           WordBoundary ].

Definition amount_re : regex :=
  seq_of [ WordBoundary; Rep 1 (Some 3%nat) digit;
           star (Seq (Class (fun c => is_space c || one_of ".," c)) (times 3 digit));
           opt (Seq (Class (one_of ".,")) (times 2 digit));
           star space;
           Char 8364;                                                 (* the euro sign *)
           WordBoundary ].

Definition date_sep_re : regex := Class (one_of "/-.").              (* [\/\-\.] *)

Definition date_re : regex :=
  seq_of [ WordBoundary; Rep 1 (Some 2%nat) digit; date_sep_re;
           Rep 1 (Some 2%nat) digit; date_sep_re; Rep 2 (Some 4%nat) digit;
           WordBoundary ].

Definition siret_re : regex :=
  seq_of [ WordBoundary; times 3 digit; opt space; times 3 digit; opt space;
           times 3 digit; opt space; times 5 digit; WordBoundary ].

Definition siren_re : regex :=
  seq_of [ WordBoundary; times 3 digit; opt space; times 3 digit; opt space;
           times 3 digit; WordBoundary ].

Definition tva_re : regex :=
  seq_of [ WordBoundary; str "FR"; opt space; times 2 digit; opt space;
           times 3 digit; opt space; times 3 digit; opt space; times 3 digit;
           WordBoundary ].

(** A fresh [/.../g] or [/.../gi] object. *)
Definition re_g (r : regex) : RegExp :=
  {| source := r; ignoreCase := false; lastIndex := 0 |}.
Definition re_gi (r : regex) : RegExp :=
  {| source := r; ignoreCase := true; lastIndex := 0 |}.

(** The processor: [this.patterns] as [Object.entries] lists it. *)
Record NLPProcessor : Type := mkNLPProcessor {
  patterns : list (kind * RegExp)
}.

Definition constructor : NLPProcessor :=
  {| patterns :=
       [ (email, re_g email_re); (phone, re_g phone_re); (iban, re_g iban_re);
         (secu, re_g secu_re); (creditCard, re_g creditCard_re);
         (postalCode, re_g postalCode_re); (invoiceNumber, re_gi invoiceNumber_re);
         (amount, re_g amount_re); (date, re_g date_re); (siret, re_g siret_re);
         (siren, re_g siren_re); (tva, re_gi tva_re) ] |}.

(** ** [_detectSensitiveValues(text)] *)

(** [match[0]]: the characters of [text] from [i] to [e]. *)
Definition matched_text (text : jsstring) (i e : nat) : jsstring :=
  firstn (e - i) (skipn i text).

(** [while ((match = regex.exec(text)) !== null) results.push(...)]:
    the results and the [RegExp] object when the loop ends; [None] when it
    is still running after [fuel] turns. *)
Fixpoint exec_loop (fuel : nat) (type : kind) (text : jsstring) (rx : RegExp)
    (results : list TextSpan) : option (list TextSpan * RegExp) :=
  match exec rx text with
  | (None, rx') => Some (results, rx')
  | (Some (i, e), rx') =>
      match fuel with
      | O => None
      | S fuel' =>
          exec_loop fuel' type text rx'
            (results ++ [ {| type := type;
                             text := matched_text text i e;
                             offset := Z.of_nat i;
                             length := Z.of_nat (e - i) |} ])
      end
  end.

(** The [forEach] over the entries of [this.patterns]: the results, and
    the entries with their [RegExp] objects as the loops leave them.  A
    match that is not empty moves [lastIndex] forward, so such a loop ends
    within [length text + 1] turns. *)
Fixpoint detect_entries (text : jsstring) (entries : list (kind * RegExp))
    (results : list TextSpan) : option (list TextSpan * list (kind * RegExp)) :=
  match entries with
  | [] => Some (results, [])
  | (type, rx) :: entries' =>
      match exec_loop (S (List.length text)) type text rx results with
      | Some (results, rx') =>
          match detect_entries text entries' results with
          | Some (results, entries'') => Some (results, (type, rx') :: entries'')
          | None => None
          end
      | None => None
      end
  end.

(** The spans and the processor after the call; [None] when the call does
    not return. *)
Definition _detectSensitiveValues (text : jsstring) (this : NLPProcessor)
  : option (list TextSpan * NLPProcessor) :=
  match detect_entries text (patterns this) [] with
  | Some (results, entries) => Some (results, {| patterns := entries |})
  | None => None
  end.

(** ** String.prototype.includes *)

Fixpoint starts_with (s search : jsstring) : bool :=
  match search, s with
  | [], _ => true
  | a :: search', b :: s' => (a =? b) && starts_with s' search'
  | _ :: _, [] => false
  end.

(** [s.includes(search)]: [search] occurs in [s] at some index. *)
Fixpoint includes (s search : jsstring) : bool :=
  starts_with s search
  || match s with
     | [] => false
     | _ :: s' => includes s' search
     end.

Section Mapper.
Context `{UnicodeTables}.

(** [_normalize(str)]. *)
Definition _normalize (str : jsstring) : jsstring :=
  let s := toLowerCase str in
  let s := normalizeNFD s in
  (* .replace(/[\u0300-\u036f]/g, '') *)
  let s := List.filter (fun c => negb (in_range 768 879 c)) s in
  (* .replace(/[^\w\s]/g, '') *)
  List.filter (fun c => is_word c || is_space c) s.

(** The box pushed for [word] under [entity]. *)
Definition box_of (entity : TextSpan) (word : Word) : RedactionBox :=
  {| b_bbox := w_bbox word;
     b_type := type entity;
     b_text := w_text word;
     b_confidence := w_confidence word |}.

(** The body of the inner [forEach]. *)
Definition map_word (normalizedEntity : jsstring) (entity : TextSpan)
    (boxesToBlur : list RedactionBox) (word : Word) : list RedactionBox :=
  let normalizedWord := _normalize (w_text word) in
  if includes normalizedEntity normalizedWord
  then boxesToBlur ++ [box_of entity word]          (* boxesToBlur.push(...) *)
  else boxesToBlur.

(** The body of the outer [forEach]. *)
Definition map_entity (ocrWords : list Word)
    (boxesToBlur : list RedactionBox) (entity : TextSpan) : list RedactionBox :=
  let normalizedEntity := _normalize (text entity) in
  fold_left (map_word normalizedEntity entity) ocrWords boxesToBlur.

(** [mapEntitiesToWords(nlpResult, ocrWords)]. *)
Definition mapEntitiesToWords (nlpResult : NlpResult) (ocrWords : list Word)
  : list RedactionBox :=
  let boxesToBlur := [] in
  let allTargets := entities nlpResult ++ sensitive nlpResult in
  fold_left (map_entity ocrWords) allTargets boxesToBlur.

End Mapper.

End NLP.

(* ===================================================================== *)
(** * Effects: mutable state, exceptions, loops that may not end           *)
(* ===================================================================== *)

Module Eff.

(** What a [throw] carries. *)
Inductive exn : Type :=
| CanvasNotInitialised        (* new Error('Canvas non initialisé') *)
| IndexSizeError              (* the DOMException of getImageData *)
| UnsupportedFileType         (* new Error(`Unsupported file type: ...`) *)
| LoadFailed                  (* loadImage rejected *)
| OcrFailed                   (* extractText rejected *)
| ExportFailed.               (* exportAsFile / exportAsPDF / exportAsBlob rejected *)

(** How a call ends. *)
Inductive outcome (A : Type) : Type :=
| Returns (a : A)
| Throws (e : exn)
| Hangs.                      (* the call does not return *)

Arguments Returns {A} a.
Arguments Throws {A} e.
Arguments Hangs {A}.

(** A computation over a mutable state [S]: its outcome and the state it
    leaves (the state at the [throw] when it throws). *)
Definition eff (S A : Type) : Type := S -> outcome A * S.

Definition ret {S A} (a : A) : eff S A := fun s => (Returns a, s).
Definition throw {S A} (e : exn) : eff S A := fun s => (Throws e, s).
Definition hang {S A} : eff S A := fun s => (Hangs, s).
Definition get {S} : eff S S := fun s => (Returns s, s).
Definition put {S} (s : S) : eff S unit := fun _ => (Returns tt, s).

Definition bind {S A B} (m : eff S A) (k : A -> eff S B) : eff S B :=
  fun s =>
    match m s with
    | (Returns a, s') => k a s'
    | (Throws e, s') => (Throws e, s')
    | (Hangs, s') => (Hangs, s')
    end.

(** [try { body } catch (error) { handler(error) } finally { final }].
    A handler that rethrows is a handler that ends in [throw]. *)
Definition try_catch_finally {S A} (body : eff S A) (handler : exn -> eff S A)
    (final : eff S unit) : eff S A :=
  fun s =>
    let '(o, s1) :=
      match body s with
      | (Throws e, s') => handler e s'
      | r => r
      end in
    match o with
    | Hangs => (Hangs, s1)
    | _ =>
        match final s1 with
        | (Returns _, s2) => (o, s2)
        | (Throws e, s2) => (Throws e, s2)
        | (Hangs, s2) => (Hangs, s2)
        end
    end.

(** [list.forEach(x => body(x))]. *)
Fixpoint for_each {S A} (body : A -> eff S unit) (l : list A) : eff S unit :=
  match l with
  | [] => ret tt
  | x :: l' => bind (body x) (fun _ => for_each body l')
  end.

End Eff.

Declare Scope eff_scope.
Delimit Scope eff_scope with eff.
Notation "'do' x <- m ; k" := (Eff.bind m (fun x => k))
  (at level 10, x name, m at level 100, k at level 200) : eff_scope.
Notation "'run' m ; k" := (Eff.bind m (fun _ => k))
  (at level 10, m at level 100, k at level 200) : eff_scope.

(* ===================================================================== *)
(** * ImageService.js: the region redactor                                 *)
(* ===================================================================== *)

Module Image.
Import JS OCR Eff.

(** An [ImageData]: [data] is its [Uint8ClampedArray], four bytes (R, G, B,
    A) per pixel, row after row. *)
Record ImageData : Type := mkImageData {
  width : Z;
  height : Z;
  data : list Z
}.

(** The bitmap of the canvas, in the same layout.  The 2D context stores
    what [putImageData] writes without loss (the rounding of a backing store
    with premultiplied alpha is not modelled). *)
Record Canvas : Type := mkCanvas {
  c_width : Z;
  c_height : Z;
  c_pixels : list Z
}.

(** The service: [this.canvas] and with it [this.ctx], both [null] before
    [initCanvas] and after [destroy]. *)
Record ImageService : Type := mkImageService {
  canvas : option Canvas
}.

(** [data[i]]; an index outside the array reads [undefined], which a later
    store into the array turns into 0. *)
Definition read (d : list Z) (i : Z) : Z :=
  if i <? 0 then 0 else default 0 (d !! Z.to_nat i).

(** [data[i] = v]; a store outside the array does nothing. *)
Definition write (d : list Z) (i : Z) (v : Z) : list Z :=
  if i <? 0 then d else <[Z.to_nat i := v]> d.

(** The array of length [n] whose element [i] is [f i]. *)
Definition tabulate (n : Z) (f : Z -> Z) : list Z :=
  map (fun i => f (Z.of_nat i)) (seq 0 (Z.to_nat n)).

(** ** The 2D context *)

(** Channel [c] of the pixel [(x, y)] of the canvas; transparent black
    outside the bitmap. *)
Definition canvas_channel (cv : Canvas) (x y c : Z) : Z :=
  if (0 <=? x) && (x <? c_width cv) && (0 <=? y) && (y <? c_height cv)
  then read (c_pixels cv) (4 * (y * c_width cv + x) + c)
  else 0.

(** [ctx.getImageData(sx, sy, sw, sh)]: the rectangle with corners
    [(sx, sy)] and [(sx + sw, sy + sh)]; [IndexSizeError] when [sw] or [sh]
    is zero. *)
Definition getImageData (cv : Canvas) (sx sy sw sh : Z) : outcome ImageData :=
  if (sw =? 0) || (sh =? 0) then Throws IndexSizeError
  else
    let w := Z.abs sw in
    let h := Z.abs sh in
    let ox := Z.min sx (sx + sw) in
    let oy := Z.min sy (sy + sh) in
    Returns
      {| width := w; height := h;
         data := tabulate (4 * w * h)
                   (fun i => let p := i / 4 in
                             canvas_channel cv (ox + p mod w) (oy + p / w) (i mod 4)) |}.

(** [ctx.putImageData(imageData, dx, dy)]: the pixels of [imageData] that
    fall on the bitmap replace the pixels there. *)
Definition putImageData (cv : Canvas) (img : ImageData) (dx dy : Z) : Canvas :=
  {| c_width := c_width cv; c_height := c_height cv;
     c_pixels :=
       tabulate (4 * c_width cv * c_height cv)
         (fun i => let p := i / 4 in
                   let x := p mod c_width cv in
                   let y := p / c_width cv in
                   if (dx <=? x) && (x <? dx + width img)
                      && (dy <=? y) && (y <? dy + height img)
                   then read (data img) (4 * ((y - dy) * width img + (x - dx)) + i mod 4)
                   else read (c_pixels cv) i) |}.

(** ** Loops *)

(** [for (let i = i0; cond(i); i += step) body(i)], the loop variable
    starting at [i].  [None] when the loop is still running after [fuel]
    turns. *)
Fixpoint for_loop {S : Type} (fuel : nat) (cond : Z -> bool) (step : Z)
    (body : Z -> S -> option S) (i : Z) (s : S) : option S :=
  if cond i then
    match fuel with
    | O => None
    | S fuel' =>
        match body i s with
        | Some s' => for_loop fuel' cond step body (i + step) s'
        | None => None
        end
    end
  else Some s.

(** ** [_pixelate(imageData, pixelSize)]

    The array is updated in place; the result is the array after the call,
    [None] when the call does not return.  A loop to the bound [n] in steps
    of at least one takes at most [n] turns, so with the fuel given here a
    loop runs out of fuel only when [pixelSize <= 0], and then the loop of
    the source never ends. *)
Definition paint_pixel (width : Z) (x y : Z) (r g b : Z) (dy dx : Z) (data : list Z)
  : list Z :=
  let i := ((y + dy) * width + (x + dx)) * 4 in
  let data := write data i r in
  let data := write data (i + 1) g in
  write data (i + 2) b.                            (* alpha stays as it is *)

Definition paint_block (width height pixelSize : Z) (x y : Z) (data : list Z)
  : option (list Z) :=
  let idx := (y * width + x) * 4 in
  let r := read data idx in
  let g := read data (idx + 1) in
  let b := read data (idx + 2) in
  for_loop (Z.to_nat pixelSize)
    (fun dy => (dy <? pixelSize) && (y + dy <? height)) 1
    (fun dy data =>
       for_loop (Z.to_nat pixelSize)
         (fun dx => (dx <? pixelSize) && (x + dx <? width)) 1
         (fun dx data => Some (paint_pixel width x y r g b dy dx data))
         0 data)
    0 data.

Definition _pixelate (imageData : ImageData) (pixelSize : Z) : option ImageData :=
  let width := width imageData in
  let height := height imageData in
  match
    for_loop (Z.to_nat height) (fun y => y <? height) pixelSize
      (fun y data =>
         for_loop (Z.to_nat width) (fun x => x <? width) pixelSize
           (fun x data => paint_block width height pixelSize x y data)
           0 data)
      0 (data imageData)
  with
  | Some data' => Some {| width := width; height := height; data := data' |}
  | None => None
  end.

(** ** [blurRegions(boxes, blurIntensity)] *)

(** What the body of the [forEach] does to the bitmap. *)
Definition blur_box (blurIntensity : Z) (bbox : BBox) (cv : Canvas) : outcome Canvas :=
  let width := x1 bbox - x0 bbox in
  let height := y1 bbox - y0 bbox in
  match getImageData cv (x0 bbox) (y0 bbox) width height with
  | Returns imageData =>
      match _pixelate imageData blurIntensity with
      | Some imageData => Returns (putImageData cv imageData (x0 bbox) (y0 bbox))
      | None => Hangs
      end
  | Throws e => Throws e
  | Hangs => Hangs
  end.

(** The body of the [forEach], [({ bbox }) => { ... }], on the service. *)
Definition blur_one (blurIntensity : Z) (box : NLP.RedactionBox) : eff ImageService unit :=
  fun svc =>
    match canvas svc with
    | Some cv =>
        match blur_box blurIntensity (NLP.b_bbox box) cv with
        | Returns cv' => (Returns tt, {| canvas := Some cv' |})
        | Throws e => (Throws e, svc)
        | Hangs => (Hangs, svc)
        end
    | None => (Throws CanvasNotInitialised, svc)    (* excluded by blurRegions *)
    end.

Definition blurRegions (boxes : list NLP.RedactionBox) (blurIntensity : Z)
  : eff ImageService unit :=
  fun svc =>
    match canvas svc with
    | None => (Throws CanvasNotInitialised, svc)     (* if (!this.ctx) throw ... *)
    | Some _ => for_each (blur_one blurIntensity) boxes svc
    end.

(** [destroy()]. *)
Definition destroy : eff ImageService unit :=
  fun _ => (Returns tt, {| canvas := None |}).

End Image.

(* ===================================================================== *)
(** * NLPProcessor.js: [analyze]                                           *)
(* ===================================================================== *)

Module Analyze.
Import JS OCR Eff NLP.

(** What Compromise returns for a text: the texts of the people, places and
    organisations it finds, in the order of its [forEach]. *)
Record NerDoc : Type := mkNerDoc {
  people : list jsstring;
  places : list jsstring;
  organizations : list jsstring
}.

(** [text.indexOf(search)]: the first index at which [search] occurs in
    [text] from [i] on, or -1. *)
Fixpoint index_from (text search : jsstring) (i : Z) : Z :=
  if starts_with text search then i
  else
    match text with
    | [] => -1
    | _ :: text' => index_from text' search (i + 1)
    end.

Definition indexOf (text search : jsstring) : Z := index_from text search 0.

Definition entity_of (ty : kind) (text found : jsstring) : TextSpan :=
  {| type := ty; text := found; offset := indexOf text found;
     length := Z.of_nat (List.length found) |}.

(** [analyze(text)], on the processor.  [nlp] is [window.nlp], [None] when
    [window] or [window.nlp] is missing. *)
Definition analyze (nlp : option (jsstring -> NerDoc)) (text : jsstring)
  : eff NLPProcessor NlpResult :=
  fun this =>
    (* !text || text.trim() === '' *)
    if forallb is_space text then
      (Returns {| entities := []; sensitive := []; total := None |}, this)
    else
      match nlp with
      | None => (Returns {| entities := []; sensitive := []; total := None |}, this)
      | Some nlp =>
          let doc := nlp text in
          let entities :=
            map (entity_of person text) (people doc)
            ++ map (entity_of place text) (places doc)
            ++ map (entity_of organization text) (organizations doc) in
          match _detectSensitiveValues text this with
          | Some (sensitive, this') =>
              (Returns {| entities := entities; sensitive := sensitive;
                          total := Some (Z.of_nat (List.length entities)
                                         + Z.of_nat (List.length sensitive)) |},
               this')
          | None => (Hangs, this)
          end
      end.

End Analyze.

(* ===================================================================== *)
(** * LocalSealEngine.js: the orchestrator                                 *)
(* ===================================================================== *)

Module Engine.
Import JS OCR Eff Image Analyze.

(** The steps named in progress events. *)
Inductive step : Type :=
| mime_detection | image_load | ocr_start | ocr_processing | ocr_complete
| nlp_analysis | nlp_complete | blur_start | blur_complete | blur_skip
| watermark | export | complete.

(** What [processFile] resolves to or hands to its completion listeners:
    the text file of the text-only exit ([textFile]), the object
    [{ file: textFile, text }] that the listeners receive at that exit, or
    the result object, of which [entitiesFound] and [watermarked] are
    kept. *)
Inductive ProcessResult : Type :=
| TextFile
| TextExtraction (text : jsstring)
| Result (entitiesFound : Z) (watermarked : bool).

(** What leaves the engine, in order: the calls of the progress, completion
    and error listeners, and, to record them, the calls of the two methods
    of the image service that draw on the canvas. *)
Inductive event : Type :=
| Progress (s : step) (progress : float)
| Completed (r : ProcessResult)
| Failed (e : exn)
| CalledBlurRegions (boxes : list NLP.RedactionBox) (blurIntensity : Z)
| CalledAddSmartWatermark.

(** [this.licenseStatus], as the engine reads it. *)
Record LicenseStatus : Type := mkLicenseStatus {
  isPro : bool;
  requiresWatermark : bool
}.

(** The options that steer the pipeline ([outputFormat] and [quality] are
    only handed to the export). *)
Record Options : Type := mkOptions {
  anonymize : bool;
  blurIntensity : Z;
  extractTextOnly : bool
}.

Definition defaultOptions : Options :=
  {| anonymize := false; blurIntensity := 20; extractTextOnly := false |}.

(** The file: [file.type] and the extension of [file.name], lower-cased
    ([file.name.split('.').pop().toLowerCase()]). *)
Record File : Type := mkFile {
  f_type : jsstring;
  f_ext : jsstring
}.

(** What the collaborators answer during one run. *)
Record World : Type := mkWorld {
  (* imageService.loadImage(file), then initCanvas: the bitmap drawn *)
  w_loadImage : outcome Canvas;
  (* Tesseract: createWorker when needed, then worker.recognize *)
  w_recognize : outcome OcrResult;
  (* window.nlp *)
  w_nlp : option (jsstring -> NerDoc);
  (* what addSmartWatermark draws on the bitmap *)
  w_watermark : Canvas -> Canvas;
  (* exportAsPDF or exportAsFile *)
  w_exportFile : outcome unit;
  (* exportAsBlob, for the thumbnail *)
  w_exportThumbnail : outcome unit
}.

(** The engine: its services, [this.state], and what it has emitted. *)
Record EngineState : Type := mkEngineState {
  imageService : ImageService;
  nlpProcessor : NLP.NLPProcessor;
  licenseStatus : LicenseStatus;
  currentStep : option step;
  progress : float;
  isProcessing : bool;
  emitted : list event
}.

(** [new LocalSealEngine(licenseStatus)]. *)
Definition constructor (licenseStatus : option LicenseStatus) : EngineState :=
  {| imageService := {| canvas := None |};
     nlpProcessor := NLP.constructor;
     licenseStatus := default {| isPro := false; requiresWatermark := true |} licenseStatus;
     currentStep := None;
     progress := 0%float;
     isProcessing := false;
     emitted := [] |}.

Definition emit (e : event) : eff EngineState unit :=
  fun st =>
    (Returns tt,
     {| imageService := imageService st; nlpProcessor := nlpProcessor st;
        licenseStatus := licenseStatus st; currentStep := currentStep st;
        progress := progress st; isProcessing := isProcessing st;
        emitted := emitted st ++ [e] |}).

Definition set_isProcessing (b : bool) : eff EngineState unit :=
  fun st =>
    (Returns tt,
     {| imageService := imageService st; nlpProcessor := nlpProcessor st;
        licenseStatus := licenseStatus st; currentStep := currentStep st;
        progress := progress st; isProcessing := b;
        emitted := emitted st |}).

(** [_emitProgress(step, progress, message)]. *)
Definition _emitProgress (s : step) (p : float) : eff EngineState unit :=
  fun st =>
    emit (Progress s p)
      {| imageService := imageService st; nlpProcessor := nlpProcessor st;
         licenseStatus := licenseStatus st; currentStep := Some s;
         progress := p; isProcessing := isProcessing st;
         emitted := emitted st |}.

(** [_emitComplete(result)] and [_emitError(error)]. *)
Definition _emitComplete (r : ProcessResult) : eff EngineState unit :=
  Eff.bind (set_isProcessing false) (fun _ => emit (Completed r)).

Definition _emitError (e : exn) : eff EngineState unit :=
  Eff.bind (set_isProcessing false) (fun _ => emit (Failed e)).

(** A method of the image service, run on [this.imageService]. *)
Definition on_imageService {A} (m : eff ImageService A) : eff EngineState A :=
  fun st =>
    let '(o, svc) := m (imageService st) in
    (o,
     {| imageService := svc; nlpProcessor := nlpProcessor st;
        licenseStatus := licenseStatus st; currentStep := currentStep st;
        progress := progress st; isProcessing := isProcessing st;
        emitted := emitted st |}).

(** A method of the processor, run on [this.nlpProcessor]. *)
Definition on_nlpProcessor {A} (m : eff NLP.NLPProcessor A) : eff EngineState A :=
  fun st =>
    let '(o, np) := m (nlpProcessor st) in
    (o,
     {| imageService := imageService st; nlpProcessor := np;
        licenseStatus := licenseStatus st; currentStep := currentStep st;
        progress := progress st; isProcessing := isProcessing st;
        emitted := emitted st |}).

(** An awaited call of a collaborator. *)
Definition await {S A} (o : outcome A) : eff S A := fun st => (o, st).

(** [_detectMimeType(file)].  (For an extension that names a property of
    [Object.prototype], [mimeMap[ext]] is not a string and the source fails
    with a [TypeError] at [startsWith]; here the run fails as for any other
    unknown extension, at the same place.) *)
Definition _detectMimeType (file : File) : jsstring :=
  match f_type file with
  | _ :: _ => f_type file
  | [] =>
      let ext := f_ext file in
      if str_eqb ext (lit "jpg") || str_eqb ext (lit "jpeg") then lit "image/jpeg"
      else if str_eqb ext (lit "png") then lit "image/png"
      else if str_eqb ext (lit "webp") then lit "image/webp"
      else if str_eqb ext (lit "pdf") then lit "application/pdf"
      else lit "application/octet-stream"
  end.

(** [imageService.loadImage(file)] and [imageService.initCanvas(image)]. *)
Definition load_and_init (w : World) : eff EngineState unit :=
  Eff.bind (await (w_loadImage w)) (fun bitmap =>
  on_imageService (fun _ => (Returns tt, {| canvas := Some bitmap |}))).

(** [ocrService.extractText(canvas, onProgress)]: a failure of Tesseract is
    thrown again as an [Error]; after a success [onProgress] is called
    once, with [progress: 1]. *)
Definition extractText (w : World) (onProgress : float -> eff EngineState unit)
  : eff EngineState OcrResult :=
  fun st =>
    match w_recognize w with
    | Returns result => Eff.bind (onProgress 1%float) (fun _ => ret result) st
    | Throws _ => (Throws OcrFailed, st)
    | Hangs => (Hangs, st)
    end.

(** [imageService.addSmartWatermark(...)]. *)
Definition addSmartWatermark (w : World) : eff ImageService unit :=
  fun svc =>
    match canvas svc with
    | None => (Throws CanvasNotInitialised, svc)
    | Some cv => (Returns tt, {| canvas := Some (w_watermark w cv) |})
    end.

Section Pipeline.
Context `{UnicodeTables}.
Local Open Scope eff_scope.

(** Step 4 of [processFile]: [if (anonymize) { ... }]; the value is
    [nlpResult]. *)
Definition anonymisation (w : World) (options : Options) (ocrResult : OcrResult)
  : eff EngineState (option NLP.NlpResult) :=
  if anonymize options then
    run _emitProgress nlp_analysis 0.65%float;
    do nlpResult <- on_nlpProcessor (analyze (w_nlp w) (o_text ocrResult));
    run _emitProgress nlp_complete 0.7%float;
    run (if match NLP.total nlpResult with Some t => 0 <? t | None => false end then
           run _emitProgress blur_start 0.75%float;
           let boxesToBlur := NLP.mapEntitiesToWords nlpResult (o_words ocrResult) in
           run emit (CalledBlurRegions boxesToBlur (blurIntensity options));
           run on_imageService (blurRegions boxesToBlur (blurIntensity options));
           _emitProgress blur_complete 0.85%float
         else
           _emitProgress blur_skip 0.8%float);
    ret (Some nlpResult)
  else ret None.

(** Steps 5 and 6 of [processFile]: the watermark, the export, the
    result. *)
Definition finish (w : World) (options : Options) (nlpResult : option NLP.NlpResult)
  : eff EngineState ProcessResult :=
  do st <- get;
  run (if requiresWatermark (licenseStatus st) then
         run _emitProgress watermark 0.9%float;
         run emit CalledAddSmartWatermark;
         on_imageService (addSmartWatermark w)
       else ret tt);
  run _emitProgress export 0.95%float;
  run await (w_exportFile w);
  run _emitProgress complete 1.0%float;
  run await (w_exportThumbnail w);
  let result :=
    Result
      (* anonymize ? nlpResult?.total || 0 : 0 *)
      (if anonymize options then
         match nlpResult with
         | Some r => match NLP.total r with Some t => t | None => 0 end
         | None => 0
         end
       else 0)
      (requiresWatermark (licenseStatus st)) in
  run _emitComplete result;
  ret result.

(** The callback handed to [extractText]. *)
Definition ocr_callback (progress : float) : eff EngineState unit :=
  let baseProgress := 0.2%float in
  let range := 0.4%float in
  _emitProgress ocr_processing (baseProgress + progress * range)%float.

(** Steps 1 to 3 of [processFile]: the file type, the image, the text. *)
Definition ocr_stage (w : World) (file : File) : eff EngineState OcrResult :=
  run _emitProgress mime_detection 0.1%float;
  let mimeType := _detectMimeType file in
  let isPdf := str_eqb mimeType (lit "application/pdf") in
  if negb (NLP.starts_with mimeType (lit "image/")) && negb isPdf then
    throw UnsupportedFileType
  else
    run _emitProgress image_load 0.15%float;
    run load_and_init w;
    run _emitProgress ocr_start 0.2%float;
    do ocrResult <- extractText w ocr_callback;
    run _emitProgress ocr_complete 0.6%float;
    ret ocrResult.

(** The body of the [try] block of [processFile]. *)
Definition process_body (w : World) (file : File) (options : Options)
  : eff EngineState ProcessResult :=
  run set_isProcessing true;
  do ocrResult <- ocr_stage w file;
  if extractTextOnly options then
    run _emitComplete (TextExtraction (o_text ocrResult));
    ret TextFile
  else
    do nlpResult <- anonymisation w options ocrResult;
    finish w options nlpResult.

(** [processFile(file, options)]. *)
Definition processFile (w : World) (file : File) (options : Options)
  : eff EngineState ProcessResult :=
  try_catch_finally
    (process_body w file options)
    (fun error => run _emitError error; throw error)
    (on_imageService destroy).

End Pipeline.

(** The progress events in what was emitted. *)
Definition progress_events (es : list event) : list (step * float) :=
  flat_map (fun e => match e with Progress s p => [(s, p)] | _ => [] end) es.

End Engine.

(* ===================================================================== *)
(** * SecurityManager.js: the licence status and the daily credits         *)
(* ===================================================================== *)

Module Licence.
Import JS Security.

(** The object stored under ['localseal_counter']: [{ date, count }]. *)
Record Counter : Type := mkCounter {
  c_date : jsstring;                  (* a value of [toDateString()] *)
  c_count : Z
}.

(** [localStorage] with its third item, the one of the credit counter.  As
    for the two others, the item is modelled by the value whose JSON text
    it holds, and [None] is an absent item. *)
Record Store : Type := mkStore {
  items : LocalStorage;
  localseal_counter : option Counter
}.

(** The manager: [this.licenseStatus] and [localStorage]. *)
Record SecurityManager : Type := mkSecurityManager {
  status : LicenseStatus;
  store : Store
}.

(** [new SecurityManager()], over the storage of the page. *)
Definition constructor (s : Store) : SecurityManager :=
  {| status := initialStatus; store := s |}.

(** ** Arithmetic on quotas *)

(** [q - n]. *)
Definition quota_sub (q : quota) (n : Z) : quota :=
  match q with
  | Finite m => Finite (m - n)
  | Infinity => Infinity
  end.

(** [Math.max(0, q)]. *)
Definition quota_max0 (q : quota) : quota :=
  match q with
  | Finite m => Finite (Z.max 0 m)
  | Infinity => Infinity
  end.

(** [q > 0]. *)
Definition quota_pos (q : quota) : bool :=
  match q with
  | Finite m => 0 <? m
  | Infinity => true
  end.

(** [this.licenseStatus.remainingFiles = q]. *)
Definition set_remainingFiles (q : quota) (s : LicenseStatus) : LicenseStatus :=
  {| isPro := isPro s;
     expirationDate := expirationDate s;
     maxFilesPerDay := maxFilesPerDay s;
     remainingFiles := q;
     maxFileSize := maxFileSize s;
     licenseKey := licenseKey s |}.

(** [localStorage.setItem('localseal_counter', JSON.stringify(c))]. *)
Definition set_counter (c : Counter) (s : Store) : Store :=
  {| items := items s; localseal_counter := Some c |}.

(** ** [_updateFileCounter()]

    [today] is the value of [new Date().toDateString()]. *)
Definition _updateFileCounter (today : jsstring) (m : SecurityManager) : SecurityManager :=
  match localseal_counter (store m) with
  | Some counterData =>
      if str_eqb (c_date counterData) today then
        {| status :=
             set_remainingFiles
               (quota_max0 (quota_sub (maxFilesPerDay (status m)) (c_count counterData)))
               (status m);
           store := store m |}
      else
        {| status := set_remainingFiles (maxFilesPerDay (status m)) (status m);
           store := set_counter {| c_date := today; c_count := 0 |} (store m) |}
  | None =>
      {| status := status m;
         store := set_counter {| c_date := today; c_count := 0 |} (store m) |}
  end.

(** ** [checkLicense()], at the moment its timer fires

    [now] is the value of [Date.now()].  The status it resolves to is the
    [licenseStatus] of the manager it returns. *)
Definition proStatus (license : StoredLicense) : LicenseStatus :=
  {| isPro := true;
     expirationDate := Some (sl_expirationDate license);
     maxFilesPerDay := Infinity;
     remainingFiles := Infinity;
     maxFileSize := Infinity;
     licenseKey := Some (sl_key license) |}.

Definition checkLicense (now : Z) (today : jsstring) (m : SecurityManager)
  : SecurityManager :=
  let m :=
    match localseal_license (items (store m)) with
    | Some license =>
        if now <? sl_expirationDate license     (* license.expirationDate > now *)
        then {| status := proStatus license; store := store m |}
        else m
    | None => m
    end in
  if negb (isPro (status m)) then _updateFileCounter today m else m.

(** ** [consumeFileCredit()]

    The answer is a boolean, or the [TypeError] of [counterData.count++]
    when the counter item is absent ([JSON.parse(null)] is [null]). *)
Inductive answer : Type :=
| Value (b : bool)
| TypeError.

Definition consumeFileCredit (m : SecurityManager) : answer * SecurityManager :=
  if isPro (status m) then (Value true, m)
  else if quota_pos (remainingFiles (status m)) then
    (* this.licenseStatus.remainingFiles-- *)
    let m := {| status := set_remainingFiles (quota_sub (remainingFiles (status m)) 1)
                            (status m);
                store := store m |} in
    match localseal_counter (store m) with
    | Some counterData =>
        let counterData := {| c_date := c_date counterData;
                              c_count := c_count counterData + 1 |} in
        (Value true, {| status := status m; store := set_counter counterData (store m) |})
    | None => (TypeError, m)
    end
  else (Value false, m).

(** [requiresWatermark()]. *)
Definition requiresWatermark (m : SecurityManager) : bool := negb (isPro (status m)).

(** ** [activateLicense(licenseKey)], on this storage *)
Definition activateLicense (now now' : Z) (key : jsstring) (m : SecurityManager)
  : bool * SecurityManager :=
  let '(ok, m') :=
    Security.activateLicense now now' key
      {| licenseStatus := status m; storage := items (store m) |} in
  (ok,
   {| status := licenseStatus m';
      store := {| items := storage m';
                  localseal_counter := localseal_counter (store m) |} |}).

(** ** [resetLicense()] *)

(** [localStorage.removeItem('localseal_license')]. *)
Definition remove_license (s : Store) : Store :=
  {| items := {| localseal_used_keys := localseal_used_keys (items s);
                 localseal_license := None |};
     localseal_counter := localseal_counter s |}.

Definition resetLicense (m : SecurityManager) : SecurityManager :=
  {| status := initialStatus; store := remove_license (store m) |}.

End Licence.

(* ===================================================================== *)
(** * NLPProcessor.js: [maskText]                                          *)
(* ===================================================================== *)

Module Mask.
Import JS NLP.

(** [targets.sort((a, b) => b.offset - a.offset)]: the sort is stable, so
    the result is the list by decreasing [offset], targets of equal
    [offset] in the order they had.  [insert_desc a l] puts [a], which came
    before the elements of [l], in front of the first element whose
    [offset] is not above its own. *)
Fixpoint insert_desc (a : TextSpan) (l : list TextSpan) : list TextSpan :=
  match l with
  | [] => [a]
  | b :: l' => if offset b <=? offset a then a :: l else b :: insert_desc a l'
  end.

Definition sort_desc (l : list TextSpan) : list TextSpan :=
  fold_right insert_desc [] l.

(** An argument of [substring], brought into the string: below 0 it counts
    as 0, above the length as the length. *)
Definition clamp (n : Z) (s : jsstring) : nat :=
  Z.to_nat (Z.min (Z.max n 0) (Z.of_nat (List.length s))).

(** [s.substring(0, e)] and [s.substring(b)]. *)
Definition substring_to (s : jsstring) (e : Z) : jsstring := take (clamp e s) s.
Definition substring_from (s : jsstring) (b : Z) : jsstring := drop (clamp b s) s.

(** The full block character of the mask, U+2588. *)
Definition block_char : Z := 9608.

(** The body of the [forEach]: the new [maskedText]; [None] is the
    [RangeError] of [repeat] on a negative count. *)
Definition mask_one (maskedText : jsstring) (entity : TextSpan) : option jsstring :=
  let before := substring_to maskedText (offset entity) in
  let after := substring_from maskedText (offset entity + length entity) in
  if length entity <? 0 then None
  else
    let mask := replicate (Z.to_nat (length entity)) block_char in
    Some (before ++ mask ++ after).

Fixpoint mask_all (maskedText : jsstring) (allTargets : list TextSpan) : option jsstring :=
  match allTargets with
  | [] => Some maskedText
  | entity :: rest =>
      match mask_one maskedText entity with
      | Some maskedText => mask_all maskedText rest
      | None => None
      end
  end.

(** [maskText(text, nlpResult)]. *)
Definition maskText (text : jsstring) (nlpResult : NlpResult) : option jsstring :=
  let allTargets := sort_desc (entities nlpResult ++ sensitive nlpResult) in
  mask_all text allTargets.

End Mask.

(* ===================================================================== *)
(** * LocalSealEngine.js: the name of the output file                      *)
(* ===================================================================== *)

Module Filename.
Import JS Regex.

(** [/\.\w+$/]. *)
Definition ext_re : regex :=
  seq_of [ Char 46; plus (Class is_word); InputEnd ].

(** [s.replace(re, by)] for a pattern without the [g] flag and a
    replacement without [$]: the first match, if any, is replaced. *)
Definition replace_first (r : regex) (by_ : jsstring) (s : jsstring) : jsstring :=
  match search s false r (length s) 0 with
  | Some (i, e) => take i s ++ by_ ++ drop e s
  | None => s
  end.

(** [_generateOutputFilename(originalName, anonymized, isPdf)]. *)
Definition _generateOutputFilename (originalName : jsstring) (anonymized isPdf : bool)
  : jsstring :=
  let baseName := replace_first ext_re [] originalName in
  let suffix := if anonymized then lit "_anonymized" else lit "_processed" in
  let ext := if isPdf then lit ".pdf" else lit ".jpg" in
  baseName ++ suffix ++ ext.

(** The name of the text file of the text-only exit:
    [file.name.replace(/\.\w+$/, '.txt')]. *)
Definition text_file_name (name : jsstring) : jsstring :=
  replace_first ext_re (lit ".txt") name.

End Filename.

(* ===================================================================== *)
(** * ocr.worker.js and WorkerManager.js: the engine behind a worker       *)
(* ===================================================================== *)

Module Worker.
Import JS Eff Engine.

(** The messages the worker posts, by their [type].  Of the [data] of an
    ['error'] message the manager reads [data.message] only: the model
    keeps the error whose message it is. *)
Inductive message : Type :=
| Loaded                                   (* { type: 'loaded' } *)
| Ready                                    (* { type: 'ready' } *)
| ProgressMsg (s : step) (p : float)       (* { type: 'progress', data } *)
| CompleteMsg (r : ProcessResult)          (* { type: 'complete', data } *)
| ResultMsg (r : ProcessResult)            (* { type: 'result', data } *)
| ErrorMsg (e : exn).                      (* { type: 'error', data } *)

(** What the three listeners that [initEngine] registers post when the
    engine calls them.  (The two other events of the model record calls of
    the image service, not calls of listeners.) *)
Definition posted_for (e : event) : list message :=
  match e with
  | Progress s p => [ProgressMsg s p]
  | Completed r => [CompleteMsg r]
  | Failed e => [ErrorMsg e]
  | CalledBlurRegions _ _ | CalledAddSmartWatermark => []
  end.

(** The worker: its [engine] variable, and what it has posted. *)
Record WorkerState : Type := mkWorkerState {
  engine : option EngineState;
  outbox : list message
}.

(** The worker when its script has run: [engine = null], and
    [postMessage({ type: 'loaded' })]. *)
Definition loaded : WorkerState := {| engine := None; outbox := [Loaded] |}.

Definition post (m : message) (ws : WorkerState) : WorkerState :=
  {| engine := engine ws; outbox := outbox ws ++ [m] |}.

(** [initEngine(licenseStatus)]: an engine is built only when there is
    none. *)
Definition initEngine (licenseStatus : option LicenseStatus) (ws : WorkerState)
  : WorkerState :=
  match engine ws with
  | Some _ => ws
  | None => {| engine := Some (constructor licenseStatus); outbox := outbox ws |}
  end.

(** The message [{ action: 'init', payload: { licenseStatus } }]. *)
Definition on_init (licenseStatus : option LicenseStatus) (ws : WorkerState)
  : WorkerState :=
  post Ready (initEngine licenseStatus ws).

Section Process.
Context `{UnicodeTables}.

(** The message [{ action: 'process', payload: { file, options,
    licenseStatus } }].  The listeners post while [processFile] runs: what
    they post is read off the events the run adds to the engine's record.
    When the run does not return, nothing follows. *)
Definition on_process (licenseStatus : option LicenseStatus) (w : World) (file : File)
    (options : Options) (ws : WorkerState) : WorkerState :=
  let ws := initEngine licenseStatus ws in          (* if (!engine) await initEngine(...) *)
  match engine ws with
  | None => ws
  | Some eng =>
      let '(o, eng') := processFile w file options eng in
      let during :=
        flat_map posted_for (drop (length (emitted eng)) (emitted eng')) in
      let ws := {| engine := Some eng'; outbox := outbox ws ++ during |} in
      match o with
      | Returns result => post (ResultMsg result) ws
      | Throws error => post (ErrorMsg error) ws
      | Hangs => ws
      end
  end.

End Process.

(** ** [WorkerManager]: the callbacks *)

(** Which callbacks have been registered ([null] otherwise). *)
Record Callbacks : Type := mkCallbacks {
  onProgress : bool;
  onComplete : bool;
  onError : bool
}.

(** A call of a callback. *)
Inductive call : Type :=
| CallProgress (s : step) (p : float)
| CallComplete (r : ProcessResult)
| CallError (e : exn).

(** [_handleMessage(message)]: the calls it makes. *)
Definition _handleMessage (cb : Callbacks) (m : message) : list call :=
  match m with
  | ProgressMsg s p => if onProgress cb then [CallProgress s p] else []
  | CompleteMsg r | ResultMsg r => if onComplete cb then [CallComplete r] else []
  | ErrorMsg e => if onError cb then [CallError e] else []
  | Loaded | Ready => []                          (* console.log *)
  end.

End Worker.

(* ===================================================================== *)
(** * OCRService.js: the Tesseract worker and its language                 *)
(* ===================================================================== *)

Module OCRService.
Import JS OCR Eff.

(** A Tesseract worker: the language it was created for. *)
Record TesseractWorker : Type := mkTesseractWorker {
  made_for : jsstring
}.

(** What Tesseract answers: whether [createWorker(language)] succeeds, what
    [worker.recognize] returns, whether [worker.terminate()] succeeds. *)
Record Tesseract : Type := mkTesseract {
  t_createWorker : jsstring -> bool;
  t_recognize : TesseractWorker -> outcome OcrResult;
  t_terminate : TesseractWorker -> bool
}.

(** The service: [this.language], [this.worker], [this.isInitialized]. *)
Record Service : Type := mkService {
  language : jsstring;
  worker : option TesseractWorker;
  isInitialized : bool
}.

(** [new OCRService(options)]: [options.language || 'fra+eng']. *)
Definition constructor (options_language : option jsstring) : Service :=
  {| language := match options_language with
                 | Some (c :: l) => c :: l
                 | _ => lit "fra+eng"
                 end;
     worker := None;
     isInitialized := false |}.

(** [initialize()]. *)
Definition initialize (t : Tesseract) : eff Service unit :=
  fun svc =>
    if isInitialized svc then (Returns tt, svc)
    else if t_createWorker t (language svc) then
      (Returns tt,
       {| language := language svc;
          worker := Some {| made_for := language svc |};
          isInitialized := true |})
    else (Throws OcrFailed, svc).        (* Error(`Échec d'initialisation OCR: ...`) *)

(** [extractText(imageSource, onProgress)], without the progress report:
    the result of [worker.recognize]; every failure of [recognize], and the
    [TypeError] of a missing worker, is thrown again as an [Error]. *)
Definition extractText (t : Tesseract) : eff Service OcrResult :=
  Eff.bind
    (fun svc => if isInitialized svc then (Returns tt, svc) else initialize t svc)
    (fun _ svc =>
       match worker svc with
       | Some tw =>
           match t_recognize t tw with
           | Returns result => (Returns result, svc)
           | Throws _ => (Throws OcrFailed, svc)
           | Hangs => (Hangs, svc)
           end
       | None => (Throws OcrFailed, svc)
       end).

(** [setLanguage(language)].  A failure of [worker.terminate()] is the
    error of the call, thrown before [this.worker = null] (the model has
    one name, [OcrFailed], for the errors of the OCR service). *)
Definition setLanguage (t : Tesseract) (l : jsstring) : eff Service unit :=
  fun svc =>
    if str_eqb (language svc) l then (Returns tt, svc)
    else
      let svc := {| language := l; worker := worker svc; isInitialized := false |} in
      match worker svc with
      | Some tw =>
          if t_terminate t tw
          then (Returns tt, {| language := l; worker := None; isInitialized := false |})
          else (Throws OcrFailed, svc)
      | None => (Returns tt, svc)
      end.

(** [terminate()]. *)
Definition terminate (t : Tesseract) : eff Service unit :=
  fun svc =>
    match worker svc with
    | Some tw =>
        if t_terminate t tw
        then (Returns tt,
              {| language := language svc; worker := None; isInitialized := false |})
        else (Throws OcrFailed, svc)
    | None => (Returns tt, svc)
    end.

End OCRService.

(* ===================================================================== *)
(** * app.js: a batch of dropped files                                     *)
(* ===================================================================== *)

Module App.
Import JS Eff Security Licence.

(** A dropped file: its [type] and [size], the extension of its name, and
    what the collaborators of the engine answer while it is processed. *)
Record DroppedFile : Type := mkDroppedFile {
  d_type : jsstring;
  d_size : Z;
  d_ext : jsstring;
  d_world : Engine.World
}.

(** The three counters of [handleFiles]. *)
Record Counts : Type := mkCounts {
  successCount : Z;
  errorCount : Z;
  skippedCount : Z
}.

(** The page: its [securityManager] and its [engine].  The variable
    [licenseStatus] of the page is the object that [checkLicense] resolved
    to, that is [securityManager.licenseStatus] itself, to which [init]
    added [requiresWatermark = !isPro].  (Only between an activation and
    the end of the [checkLicense] that follows it do the two differ; the
    batch is modelled outside that window.) *)
Record Page : Type := mkPage {
  securityManager : SecurityManager;
  engine : Engine.EngineState
}.

(** How [handleFiles] ends: with its counters, with the [TypeError] of
    [consumeFileCredit], or not at all. *)
Inductive ending : Type :=
| Finished (c : Counts)
| TypeErrorThrown
| NeverReturns.

(** [file.size > licenseStatus.maxFileSize]. *)
Definition too_large (size : Z) (maxFileSize : quota) : bool :=
  match maxFileSize with
  | Finite m => m <? size
  | Infinity => false
  end.

(** The options [handleFiles] passes to the engine. *)
Definition options : Engine.Options :=
  {| Engine.anonymize := true; Engine.blurIntensity := 20;
     Engine.extractTextOnly := false |}.

(** [engine.licenseStatus = licenseStatus]. *)
Definition set_licence (sm : SecurityManager) (eng : Engine.EngineState)
  : Engine.EngineState :=
  {| Engine.imageService := Engine.imageService eng;
     Engine.nlpProcessor := Engine.nlpProcessor eng;
     Engine.licenseStatus :=
       {| Engine.isPro := isPro (status sm);
          Engine.requiresWatermark := negb (isPro (status sm)) |};
     Engine.currentStep := Engine.currentStep eng;
     Engine.progress := Engine.progress eng;
     Engine.isProcessing := Engine.isProcessing eng;
     Engine.emitted := Engine.emitted eng |}.

Definition add_success (c : Counts) : Counts :=
  {| successCount := successCount c + 1; errorCount := errorCount c;
     skippedCount := skippedCount c |}.

Definition add_error (c : Counts) : Counts :=
  {| successCount := successCount c; errorCount := errorCount c + 1;
     skippedCount := skippedCount c |}.

Definition add_skipped (n : Z) (c : Counts) : Counts :=
  {| successCount := successCount c; errorCount := errorCount c;
     skippedCount := skippedCount c + n |}.

Section Batch.
Context `{UnicodeTables}.

(** The [for] loop of [handleFiles], from the file at index [i] on:
    [files] holds the files from that index, so [files.length - i] is its
    length.  (The log lines, the toasts and the gallery are left out: they
    touch neither the counters nor the manager nor the engine.) *)
Fixpoint loop (files : list DroppedFile) (page : Page) (c : Counts) : ending * Page :=
  match files with
  | [] => (Finished c, page)
  | file :: rest =>
      let licenseStatus := status (securityManager page) in
      (* 1. the type *)
      if negb (NLP.starts_with (d_type file) (lit "image/"))
         && negb (str_eqb (d_type file) (lit "application/pdf"))
      then loop rest page (add_error c)
      (* 2. the size *)
      else if too_large (d_size file) (maxFileSize licenseStatus)
      then loop rest page (add_error c)
      (* 3. the credits *)
      else
        match consumeFileCredit (securityManager page) with
        | (Value false, sm) =>
            (Finished (add_skipped (Z.of_nat (length files)) c),
             {| securityManager := sm; engine := engine page |})
        | (TypeError, sm) =>
            (TypeErrorThrown, {| securityManager := sm; engine := engine page |})
        | (Value true, sm) =>
            let eng := set_licence sm (engine page) in
            match Engine.processFile (d_world file)
                    {| Engine.f_type := d_type file; Engine.f_ext := d_ext file |}
                    options eng with
            | (Returns _, eng) =>
                loop rest {| securityManager := sm; engine := eng |} (add_success c)
            | (Throws _, eng) =>
                loop rest {| securityManager := sm; engine := eng |} (add_error c)
            | (Hangs, eng) =>
                (NeverReturns, {| securityManager := sm; engine := eng |})
            end
        end
  end.

(** [handleFiles(files)]; with no file it returns at once. *)
Definition handleFiles (files : list DroppedFile) (page : Page) : ending * Page :=
  loop files page {| successCount := 0; errorCount := 0; skippedCount := 0 |}.

End Batch.

End App.

(* ===================================================================== *)
(** * Properties                                                           *)
(* ===================================================================== *)

(** ** 32-bit arithmetic *)

Module Int32Facts.
Import JS.

Lemma to_int32_mod (z : Z) : to_int32 z mod 2 ^ 32 = z mod 2 ^ 32.
Proof.
  unfold to_int32.
  rewrite Zminus_mod, Zmod_mod, <- Zminus_mod.
  f_equal. lia.
Qed.

Lemma to_int32_congr (a b : Z) :
  a mod 2 ^ 32 = b mod 2 ^ 32 -> to_int32 a = to_int32 b.
Proof.
  intros H. unfold to_int32.
  rewrite (Zplus_mod a), (Zplus_mod b), H. reflexivity.
Qed.

Lemma to_int32_range (z : Z) : - 2 ^ 31 <= to_int32 z < 2 ^ 31.
Proof.
  unfold to_int32.
  pose proof (Z.mod_pos_bound (z + 2 ^ 31) (2 ^ 32)). lia.
Qed.

Lemma to_int32_small (z : Z) : - 2 ^ 31 <= z < 2 ^ 31 -> to_int32 z = z.
Proof.
  intros H. unfold to_int32. rewrite Z.mod_small; lia.
Qed.

Lemma to_int32_idem (z : Z) : to_int32 (to_int32 z) = to_int32 z.
Proof. apply to_int32_small, to_int32_range. Qed.

Lemma and32_diag (z : Z) : and32 z z = to_int32 z.
Proof. unfold and32. apply Z.land_diag. Qed.

Lemma shl32_5 (h : Z) : shl32 h 5 = to_int32 (h * 32).
Proof.
  unfold shl32. change (5 mod 32) with 5.
  rewrite Z.shiftl_mul_pow2 by lia. change (2 ^ 5) with 32.
  apply to_int32_congr.
  rewrite Zmult_mod, to_int32_mod, <- Zmult_mod. reflexivity.
Qed.

End Int32Facts.

(** ** Regular expressions: a match is at least as long as the pattern
    requires *)

Module RegexFacts.
Import JS Regex.

(** The least number of characters a match of the pattern consumes. *)
Fixpoint min_len (r : regex) : nat :=
  match r with
  | Empty => 0
  | Char _ => 1
  | Class _ => 1
  | WordBoundary => 0
  | InputStart => 0
  | InputEnd => 0
  | Seq r1 r2 => min_len r1 + min_len r2
  | Alt r1 r2 => Nat.min (min_len r1) (min_len r2)
  | Rep min _ r1 => min * min_len r1
  end.

Section Matcher.
Variable input : jsstring.
Variable ignoreCase : bool.

(** A matcher that, when the whole match succeeds, has called its
    continuation at least [n] characters further on, within the input. *)
Definition advances (m : matcher) (n : nat) : Prop :=
  forall x c z,
    (x <= length input)%nat -> m x c = Some z ->
    exists y, (x + n <= y <= length input)%nat /\ c y = Some z.

Lemma advances_weaken (m : matcher) (n n' : nat) :
  (n' <= n)%nat -> advances m n -> advances m n'.
Proof.
  intros Hn Hm x c z Hx Hz. destruct (Hm x c z Hx Hz) as (y & Hy & Hc).
  exists y. split; [lia | exact Hc].
Qed.

Lemma try_both_Some (a b : option nat) (z : nat) :
  try_both a b = Some z -> a = Some z \/ b = Some z.
Proof. destruct a; simpl; auto. Qed.

Lemma repeat_required_advances (m rest : matcher) (a b n : nat) :
  advances m a -> advances rest b ->
  advances (repeat_required m n rest) (n * a + b).
Proof.
  intros Hm Hrest. induction n as [|n IH]; intros x c z Hx Hz; simpl in Hz.
  - apply Hrest; assumption.
  - destruct (Hm x _ z Hx Hz) as (y & Hy & Hc).
    destruct (IH y c z ltac:(lia) Hc) as (y' & Hy' & Hc').
    exists y'. split; [simpl; lia | exact Hc'].
Qed.

Lemma repeat_upto_advances (m : matcher) (a n : nat) :
  advances m a -> advances (repeat_upto m n) 0.
Proof.
  intros Hm. induction n as [|n IH]; intros x c z Hx Hz; simpl in Hz.
  - exists x. split; [lia | exact Hz].
  - apply try_both_Some in Hz as [Hz|Hz].
    + destruct (Hm x _ z Hx Hz) as (y & Hy & Hc).
      destruct (y =? x)%nat; [discriminate|].
      destruct (IH y c z ltac:(lia) Hc) as (y' & Hy' & Hc').
      exists y'. split; [lia | exact Hc'].
    + exists x. split; [lia | exact Hz].
Qed.

Lemma repeat_any_advances (m : matcher) (a fuel : nat) :
  advances m a -> advances (repeat_any m fuel) 0.
Proof.
  intros Hm. induction fuel as [|fuel IH]; intros x c z Hx Hz; simpl in Hz.
  - exists x. split; [lia | exact Hz].
  - apply try_both_Some in Hz as [Hz|Hz].
    + destruct (Hm x _ z Hx Hz) as (y & Hy & Hc).
      destruct (y <=? x)%nat; [discriminate|].
      destruct (IH y c z ltac:(lia) Hc) as (y' & Hy' & Hc').
      exists y'. split; [lia | exact Hc'].
    + exists x. split; [lia | exact Hz].
Qed.

Lemma compile_advances (r : regex) :
  advances (compile input ignoreCase r) (min_len r).
Proof.
  induction r as [| a | p | | | | r1 IH1 r2 IH2 | r1 IH1 r2 IH2 | mn mx r1 IH1];
    intros x c z Hx Hz; simpl in Hz; cbn [min_len].
  - exists x. split; [lia | exact Hz].
  - destruct (input !! x) as [ch|] eqn:Ex; [|discriminate].
    apply lookup_lt_Some in Ex.
    destruct (canonicalize ignoreCase ch =? canonicalize ignoreCase a); [|discriminate].
    exists (S x). split; [simpl; lia | exact Hz].
  - destruct (input !! x) as [ch|] eqn:Ex; [|discriminate].
    apply lookup_lt_Some in Ex.
    destruct (class_matches ignoreCase p ch); [|discriminate].
    exists (S x). split; [simpl; lia | exact Hz].
  - destruct (xorb _ _); [|discriminate].
    exists x. split; [simpl; lia | exact Hz].
  - destruct (x =? 0)%nat; [|discriminate].
    exists x. split; [simpl; lia | exact Hz].
  - destruct (x =? length input)%nat; [|discriminate].
    exists x. split; [simpl; lia | exact Hz].
  - destruct (IH1 x _ z Hx Hz) as (y & Hy & Hc).
    destruct (IH2 y c z ltac:(lia) Hc) as (y' & Hy' & Hc').
    exists y'. split; [simpl; lia | exact Hc'].
  - apply try_both_Some in Hz as [Hz|Hz].
    + destruct (IH1 x c z Hx Hz) as (y & Hy & Hc).
      exists y. split; [simpl; lia | exact Hc].
    + destruct (IH2 x c z Hx Hz) as (y & Hy & Hc).
      exists y. split; [simpl; lia | exact Hc].
  - assert (Hrest : advances
                      (match mx with
                       | Some max => repeat_upto (compile input ignoreCase r1) (max - mn)
                       | None => fun x c =>
                           repeat_any (compile input ignoreCase r1) (length input - x) x c
                       end) 0).
    { destruct mx as [max|].
      - apply (repeat_upto_advances _ _ _ IH1).
      - intros x' c' z' Hx' Hz'.
        apply (repeat_any_advances _ _ _ IH1 x' c' z' Hx' Hz'). }
    destruct (repeat_required_advances _ _ _ _ mn IH1 Hrest x c z Hx Hz)
      as (y & Hy & Hc).
    exists y. split; [simpl; lia | exact Hc].
Qed.

(** A match found by the search starts at or after [i] and is at least
    [min_len r] long. *)
Lemma search_Some (r : regex) (fuel i i' e : nat) :
  (i + fuel <= length input)%nat ->
  search input ignoreCase r fuel i = Some (i', e) ->
  (i <= i' /\ i' + min_len r <= e <= length input)%nat.
Proof.
  revert i. induction fuel as [|fuel IH]; intros i Hi Hs; simpl in Hs.
  - destruct (compile input ignoreCase r i Some) as [e0|] eqn:Ec; [|discriminate].
    injection Hs as <- <-.
    destruct (compile_advances r i Some e0 ltac:(lia) Ec) as (y & Hy & [= ->]). lia.
  - destruct (compile input ignoreCase r i Some) as [e0|] eqn:Ec.
    + injection Hs as <- <-.
      destruct (compile_advances r i Some e0 ltac:(lia) Ec) as (y & Hy & [= ->]). lia.
    + destruct (IH (S i) ltac:(lia) Hs). lia.
Qed.

(** *** The bound on the iterations of an unbounded quantifier is never
    the reason a match fails *)

(** A matcher consults its continuation only from where it starts to the
    end of the input. *)
Definition local (m : matcher) : Prop :=
  forall x c c',
    (x <= length input)%nat ->
    (forall y, (x <= y <= length input)%nat -> c y = c' y) ->
    m x c = m x c'.

Lemma repeat_required_local (m rest : matcher) (n : nat) :
  local m -> local rest -> local (repeat_required m n rest).
Proof.
  intros Hm Hrest. induction n as [|n IH]; intros x c c' Hx Hc; simpl.
  - apply Hrest; assumption.
  - apply Hm; [exact Hx|]. intros y Hy. apply IH; [lia|].
    intros y' Hy'. apply Hc. lia.
Qed.

Lemma repeat_upto_local (m : matcher) (n : nat) :
  local m -> local (repeat_upto m n).
Proof.
  intros Hm. induction n as [|n IH]; intros x c c' Hx Hc; simpl.
  - apply Hc. lia.
  - rewrite (Hc x) by lia. f_equal.
    apply Hm; [exact Hx|]. intros y Hy.
    destruct (y =? x)%nat; [reflexivity|].
    apply IH; [lia|]. intros y' Hy'. apply Hc. lia.
Qed.

Lemma repeat_any_local (m : matcher) (fuel : nat) :
  local m -> local (repeat_any m fuel).
Proof.
  intros Hm. induction fuel as [|fuel IH]; intros x c c' Hx Hc; simpl.
  - apply Hc. lia.
  - rewrite (Hc x) by lia. f_equal.
    apply Hm; [exact Hx|]. intros y Hy.
    destruct (y <=? x)%nat; [reflexivity|].
    apply IH; [lia|]. intros y' Hy'. apply Hc. lia.
Qed.

Lemma compile_local (r : regex) : local (compile input ignoreCase r).
Proof.
  induction r as [| a | p | | | | r1 IH1 r2 IH2 | r1 IH1 r2 IH2 | mn mx r1 IH1];
    intros x c c' Hx Hc; simpl.
  - apply Hc. lia.
  - destruct (input !! x) as [ch|] eqn:Ex; [|reflexivity].
    apply lookup_lt_Some in Ex. rewrite (Hc (S x)) by lia. reflexivity.
  - destruct (input !! x) as [ch|] eqn:Ex; [|reflexivity].
    apply lookup_lt_Some in Ex. rewrite (Hc (S x)) by lia. reflexivity.
  - rewrite (Hc x) by lia. reflexivity.
  - rewrite (Hc x) by lia. reflexivity.
  - rewrite (Hc x) by lia. reflexivity.
  - apply IH1; [exact Hx|]. intros y Hy. apply IH2; [lia|].
    intros y' Hy'. apply Hc. lia.
  - rewrite (IH1 x c c' Hx Hc), (IH2 x c c' Hx Hc). reflexivity.
  - apply repeat_required_local; try assumption.
    destruct mx as [max|].
    + apply repeat_upto_local. exact IH1.
    + intros x' d d' Hx' Hd. apply repeat_any_local; assumption.
Qed.

(** From [x], [length input - x] iterations are as good as more. *)
Lemma repeat_any_fuel (m : matcher) (a fuel : nat) :
  advances m a -> local m ->
  forall x c,
    (x <= length input)%nat -> (length input - x <= fuel)%nat ->
    repeat_any m (S fuel) x c = repeat_any m fuel x c.
Proof.
  intros Hadv Hloc. induction fuel as [|fuel IH]; intros x c Hx Hfuel.
  - simpl. destruct (m x _) as [z|] eqn:Em; [|reflexivity].
    destruct (Hadv x _ z Hx Em) as (y & Hy & Hd).
    destruct (Nat.leb_spec y x) as [_|Hlt]; [discriminate | lia].
  - change (repeat_any m (S (S fuel)) x c)
      with (try_both (m x (fun y => if (y <=? x)%nat then None
                                    else repeat_any m (S fuel) y c)) (c x)).
    change (repeat_any m (S fuel) x c)
      with (try_both (m x (fun y => if (y <=? x)%nat then None
                                    else repeat_any m fuel y c)) (c x)).
    f_equal. apply Hloc; [exact Hx|]. intros y Hy.
    destruct (Nat.leb_spec y x) as [_|Hlt]; [reflexivity|].
    apply IH; lia.
Qed.

Lemma repeat_any_enough (r : regex) (n x : nat) (c : nat -> option nat) :
  (x <= length input)%nat ->
  repeat_any (compile input ignoreCase r) (length input - x + n) x c
  = repeat_any (compile input ignoreCase r) (length input - x) x c.
Proof.
  intros Hx. induction n as [|n IH].
  - rewrite Nat.add_0_r. reflexivity.
  - rewrite Nat.add_succ_r, <- IH.
    apply (repeat_any_fuel _ _ _ (compile_advances r) (compile_local r)); lia.
Qed.

(** A pattern that starts with [^] matches at index 0 or nowhere. *)
Lemma search_anchored (r : regex) (fuel i : nat) :
  (1 <= i)%nat -> search input ignoreCase (Seq InputStart r) fuel i = None.
Proof.
  revert i. induction fuel as [|fuel IH]; intros i Hi; simpl;
    destruct (Nat.eqb_spec i 0) as [?|_]; try lia; [reflexivity|].
  apply IH. lia.
Qed.

(** The character at [x] is the head of what is left of the input. *)
Lemma lookup_head_drop (x : nat) :
  input !! x = match drop x input with ch :: _ => Some ch | [] => None end.
Proof.
  destruct (input !! x) as [ch|] eqn:E.
  - rewrite (drop_S _ _ _ E). reflexivity.
  - rewrite drop_ge; [reflexivity|]. apply lookup_ge_None. exact E.
Qed.

Lemma drop_tail (x : nat) (ch : Z) (rest : jsstring) :
  drop x input = ch :: rest -> drop (S x) input = rest.
Proof.
  intros E. replace (S x) with (x + 1)%nat by lia.
  rewrite <- drop_drop, E. reflexivity.
Qed.

End Matcher.

Lemma test_anchored (r : regex) (ignoreCase : bool) (text : jsstring) :
  test (Seq InputStart r) ignoreCase text
  = match compile text ignoreCase r 0%nat Some with Some _ => true | None => false end.
Proof.
  unfold test. destruct (length text) as [|n]; simpl.
  - destruct (compile text ignoreCase r 0%nat Some); reflexivity.
  - destruct (compile text ignoreCase r 0%nat Some); [reflexivity|].
    rewrite search_anchored by lia. reflexivity.
Qed.

(** The object with its [lastIndex] back at 0. *)
Definition reset (rx : RegExp) : RegExp :=
  {| source := source rx; ignoreCase := ignoreCase rx; lastIndex := 0 |}.

Lemma exec_null (rx rx' : RegExp) (text : jsstring) :
  exec rx text = (None, rx') -> rx' = reset rx.
Proof.
  unfold exec, reset. destruct (length text <? lastIndex rx)%nat.
  - intros [= <-]. reflexivity.
  - destruct (search _ _ _ _ _) as [[i e]|]; [discriminate|].
    intros [= <-]. reflexivity.
Qed.

Lemma exec_match (rx rx' : RegExp) (text : jsstring) (i e : nat) :
  exec rx text = (Some (i, e), rx') ->
  (lastIndex rx <= i /\ i + min_len (source rx) <= e <= length text)%nat
  /\ rx' = {| source := source rx; ignoreCase := ignoreCase rx; lastIndex := e |}.
Proof.
  unfold exec. destruct (Nat.ltb_spec (length text) (lastIndex rx)) as [?|Hl].
  - discriminate.
  - destruct (search _ _ _ _ _) as [[i0 e0]|] eqn:Es; [|discriminate].
    intros [= <- <- <-]. split; [|reflexivity].
    apply search_Some in Es; [exact Es | lia].
Qed.

End RegexFacts.

(** ** The word mapper *)

Module NLPFacts.
Import JS OCR NLP.

(** [w] occurs in [s]. *)
Definition substring (w s : jsstring) : Prop :=
  exists pre post, s = pre ++ w ++ post.

Lemma starts_with_spec (s search : jsstring) :
  starts_with s search = true <-> exists post, s = search ++ post.
Proof.
  revert s. induction search as [|a search IH]; intros s; simpl.
  - split; [intros _; exists s; reflexivity | intros _; destruct s; reflexivity].
  - destruct s as [|b s].
    + split; [discriminate | intros [post Hp]; discriminate Hp].
    + simpl. rewrite andb_true_iff, Z.eqb_eq, IH. split.
      * intros [-> [post ->]]. exists post. reflexivity.
      * intros [post [= -> ->]]. split; [reflexivity | exists post; reflexivity].
Qed.

Lemma includes_nil (search : jsstring) :
  includes [] search = starts_with [] search.
Proof. simpl. apply orb_false_r. Qed.

Lemma includes_cons (b : Z) (s search : jsstring) :
  includes (b :: s) search = starts_with (b :: s) search || includes s search.
Proof. reflexivity. Qed.

Lemma includes_spec (s search : jsstring) :
  includes s search = true <-> substring search s.
Proof.
  unfold substring. induction s as [|b s IH].
  - rewrite includes_nil, starts_with_spec. split.
    + intros [post Hp]. exists [], post. exact Hp.
    + intros (pre & post & Hp). symmetry in Hp.
      apply app_eq_nil in Hp as [-> Hp]. exists post. symmetry. exact Hp.
  - rewrite includes_cons, orb_true_iff, starts_with_spec, IH. split.
    + intros [[post Hp] | (pre & post & Hp)].
      * exists [], post. exact Hp.
      * exists (b :: pre), post. rewrite Hp. reflexivity.
    + intros (pre & post & Hp). destruct pre as [|c pre].
      * left. exists post. exact Hp.
      * right. injection Hp as _ Hp. exists pre, post. exact Hp.
Qed.

#[export] Instance substring_dec (w s : jsstring) : Decision (substring w s).
Proof.
  destruct (includes s w) eqn:E.
  - left. apply includes_spec. exact E.
  - right. intros Hs. apply includes_spec in Hs. congruence.
Defined.



Section Mapper.
Context `{UnicodeTables}.







End Mapper.



(** *** The normalisation as the specification words it

    "Lower-case, diacritics stripped, punctuation stripped", character by
    character over the Basic Latin and Latin-1 Supplement blocks. *)














(** *** The detector *)

Import Regex RegexFacts.

(** Every pattern of the constructor needs at least one character. *)
Lemma patterns_consume :
  Forall (fun entry => (1 <= min_len (source (snd entry)))%nat) (patterns constructor).
Proof. repeat constructor. Qed.

(** With a pattern that needs a character, the loop over [exec] ends, and
    leaves [lastIndex] at 0. *)
Lemma exec_loop_returns (fuel : nat) (ty : kind) (text : jsstring) (rx : RegExp)
    (results : list TextSpan) :
  (1 <= min_len (source rx))%nat ->
  (List.length text - lastIndex rx < fuel)%nat ->
  exists results', exec_loop fuel ty text rx results = Some (results', reset rx).
Proof.
  intros Hmin. revert rx results Hmin.
  induction fuel as [|fuel IH]; intros rx results Hmin Hfuel; [lia|].
  simpl. destruct (exec rx text) as [[[i e]|] rx'] eqn:Ex.
  - apply exec_match in Ex as [Hie ->].
    destruct (IH {| source := source rx; ignoreCase := ignoreCase rx; lastIndex := e |}
                 (results ++ [ {| type := ty; text := matched_text text i e;
                                  offset := Z.of_nat i; length := Z.of_nat (e - i) |} ]))
      as (results' & Hrun).
    + exact Hmin.
    + simpl. lia.
    + exists results'. exact Hrun.
  - apply exec_null in Ex as ->. exists results. reflexivity.
Qed.

Lemma detect_entries_returns (text : jsstring) (entries : list (kind * RegExp))
    (results : list TextSpan) :
  Forall (fun entry => (1 <= min_len (source (snd entry)))%nat) entries ->
  exists results',
    detect_entries text entries results
    = Some (results', map (fun entry => (fst entry, reset (snd entry))) entries).
Proof.
  intros Hall. revert results.
  induction Hall as [|[ty rx] entries Hmin Hall IH]; intros results;
    cbn [detect_entries map fst snd].
  - exists results. reflexivity.
  - destruct (exec_loop_returns (S (List.length text)) ty text rx results Hmin)
      as (results1 & ->); [lia|].
    destruct (IH results1) as (results2 & ->).
    exists results2. reflexivity.
Qed.

(** C10.  On the processor that the constructor builds, a detection scan
    returns, and leaves every pattern with its [lastIndex] at 0, that is,
    leaves the processor as the constructor built it; the scan of the same
    text that follows, on the processor the first scan left, returns the
    same spans. *)
Theorem detection_is_repeatable (text : jsstring) :
  exists (spans : list TextSpan) (this' : NLPProcessor),
    _detectSensitiveValues text constructor = Some (spans, this')
    /\ this' = constructor
    /\ _detectSensitiveValues text this' = Some (spans, this').
Proof.
  destruct (detect_entries_returns text (patterns constructor) [] patterns_consume)
    as (spans & Hrun).
  assert (Hfirst : _detectSensitiveValues text constructor = Some (spans, constructor)).
  { unfold _detectSensitiveValues. rewrite Hrun. reflexivity. }
  exists spans, constructor. split; [exact Hfirst|]. split; [reflexivity | exact Hfirst].
Qed.

End NLPFacts.

(** ** The licence validator *)

Module SecurityFacts.
Import JS Security Int32Facts RegexFacts.

(** *** The rolling hash is [hash * 31 + charCode] modulo 2^32 *)

Lemma hash_step_spec (h c : Z) : hash_step h c = to_int32 (h * 31 + c).
Proof.
  unfold hash_step. rewrite and32_diag, shl32_5.
  apply to_int32_congr.
  replace (h * 31 + c) with (h * 32 + (c - h)) by lia.
  replace (to_int32 (h * 32) - h + c) with (to_int32 (h * 32) + (c - h)) by lia.
  rewrite Zplus_mod, to_int32_mod, <- Zplus_mod. reflexivity.
Qed.

Lemma fold_hash_spec (input : jsstring) (h : Z) :
  fold_left hash_step input h
  = fold_left (fun hash charCode => to_int32 (hash * 31 + charCode)) input h.
Proof.
  revert h. induction input as [|c input IH]; intros h; simpl.
  - reflexivity.
  - rewrite hash_step_spec. apply IH.
Qed.

Lemma rolling_hash_spec (input : jsstring) : rolling_hash input = spec_hash input.
Proof. apply fold_hash_spec. Qed.

(** *** Upper-casing the hexadecimal rendering *)

Lemma upper_of_hex_digit (d : Z) :
  0 <= d < 16 ->
  (if is_lower (hex_digit d) then hex_digit d - 32 else hex_digit d) = upper_hex_digit d.
Proof.
  intros Hd. unfold hex_digit, upper_hex_digit, is_lower, in_range.
  destruct (d <? 10) eqn:E.
  - apply Z.ltb_lt in E.
    replace (97 <=? 48 + d) with false by (symmetry; apply Z.leb_gt; lia).
    reflexivity.
  - apply Z.ltb_ge in E.
    replace (97 <=? 97 + (d - 10)) with true by (symmetry; apply Z.leb_le; lia).
    replace (97 + (d - 10) <=? 122) with true by (symmetry; apply Z.leb_le; lia).
    simpl. lia.
Qed.

Lemma upper_to_hex_aux (fuel : nat) (n : Z) (acc : jsstring) :
  toUpperCase (to_hex_aux fuel n acc) = upper_hex_aux fuel n (toUpperCase acc).
Proof.
  revert n acc. induction fuel as [|fuel IH]; intros n acc; simpl.
  - reflexivity.
  - assert (Hd : toUpperCase (hex_digit (n mod 16) :: acc)
                 = upper_hex_digit (n mod 16) :: toUpperCase acc).
    { unfold toUpperCase at 1. simpl. f_equal.
      apply upper_of_hex_digit. apply Z.mod_pos_bound. lia. }
    destruct (n <? 16).
    + exact Hd.
    + rewrite IH, Hd. reflexivity.
Qed.

Lemma upper_toString16 (n : Z) : toUpperCase (toString16 n) = upper_hex n.
Proof. unfold toString16, upper_hex. apply upper_to_hex_aux. Qed.

Lemma render_check_spec (h : Z) :
  render_check h
  = let u := upper_hex (Z.abs h) in
    let padded := replicate (4 - length u) 48 ++ u in
    drop (length padded - 4) padded.
Proof.
  unfold render_check, slice_last, padStart.
  rewrite upper_toString16. reflexivity.
Qed.

(** *** Splitting a credential at its hyphens *)

Lemma key_char_not_hyphen (c : Z) : is_key_char c = true -> (c =? hyphen) = false.
Proof.
  unfold is_key_char, is_upper, is_digit, in_range, hyphen. intros H.
  apply Z.eqb_neq. intros ->. discriminate H.
Qed.

Lemma split_aux_group (g rest cur : jsstring) :
  forallb is_key_char g = true ->
  split_aux hyphen (g ++ rest) cur = split_aux hyphen rest (rev g ++ cur).
Proof.
  revert cur. induction g as [|c g IH]; intros cur Hg; simpl in *.
  - reflexivity.
  - apply andb_prop in Hg as [Hc Hg].
    rewrite (key_char_not_hyphen c Hc), IH by exact Hg.
    rewrite <- app_assoc. reflexivity.
Qed.

Lemma split_aux_group_hyphen (g rest : jsstring) :
  forallb is_key_char g = true ->
  split_aux hyphen (g ++ hyphen :: rest) [] = g :: split_aux hyphen rest [].
Proof.
  intros Hg. rewrite split_aux_group by exact Hg. simpl.
  rewrite app_nil_r, rev_involutive. reflexivity.
Qed.

Lemma parts_of_credential (g1 g2 g3 g4 : jsstring) :
  is_group g1 -> is_group g2 -> is_group g3 -> is_group g4 ->
  parts_of (credential g1 g2 g3 g4) = [g1; g2; g3; g4].
Proof.
  intros [_ H1] [_ H2] [_ H3] [_ H4]. unfold parts_of, credential, split.
  rewrite !split_aux_group_hyphen by assumption.
  rewrite <- (app_nil_r g4), split_aux_group by exact H4. simpl.
  rewrite !app_nil_r, rev_involutive. reflexivity.
Qed.

(** *** The shape test accepts exactly the credentials *)

(** The pattern read from left to right on what is left of the input:
    [[A-Z0-9]{4}] at the head of [s]. *)
Definition eat_group (s : jsstring) : option jsstring :=
  match s with
  | a :: b :: c :: d :: s' =>
      if is_key_char a && is_key_char b && is_key_char c && is_key_char d
      then Some s' else None
  | _ => None
  end.

Definition eat_hyphen (s : jsstring) : option jsstring :=
  match s with
  | c :: s' => if c =? hyphen then Some s' else None
  | [] => None
  end.

Definition eat_all (steps : list (jsstring -> option jsstring)) (s : jsstring)
  : option jsstring :=
  fold_left (fun o step => match o with Some s => step s | None => None end)
            steps (Some s).

(** Four groups separated by hyphens, and nothing after them. *)
Definition shape_ok (key : jsstring) : bool :=
  match eat_all [eat_group; eat_hyphen; eat_group; eat_hyphen;
                 eat_group; eat_hyphen; eat_group] key with
  | Some [] => true
  | _ => false
  end.


Lemma eat_group_Some (s rest : jsstring) :
  eat_group s = Some rest <-> exists g, is_group g /\ s = g ++ rest.
Proof.
  split.
  - destruct s as [|a [|b [|c [|d s']]]]; simpl; try discriminate.
    destruct (is_key_char a && is_key_char b && is_key_char c && is_key_char d) eqn:E;
      [|discriminate].
    intros [= <-]. exists [a; b; c; d]. split; [|reflexivity].
    split; [reflexivity|]. simpl. rewrite andb_true_r, !andb_assoc. exact E.
  - intros (g & [Hlen Hg] & ->).
    destruct g as [|a [|b [|c [|d [|? ?]]]]]; try discriminate Hlen.
    simpl in *. rewrite andb_true_r, !andb_assoc in Hg. rewrite Hg. reflexivity.
Qed.

Lemma eat_hyphen_Some (s rest : jsstring) :
  eat_hyphen s = Some rest <-> s = hyphen :: rest.
Proof.
  destruct s as [|c s']; simpl.
  - split; discriminate.
  - destruct (Z.eqb_spec c hyphen) as [->|Hne].
    + split; intros [= ->]; reflexivity.
    + split; [discriminate|]. intros [= -> _]. contradiction.
Qed.

Lemma shape_ok_credential (key : jsstring) :
  shape_ok key = true
  <-> exists g1 g2 g3 g4,
        is_group g1 /\ is_group g2 /\ is_group g3 /\ is_group g4
        /\ key = credential g1 g2 g3 g4.
Proof.
  unfold shape_ok, eat_all; simpl. split.
  - destruct (eat_group key) as [s1|] eqn:E1; [|discriminate].
    destruct (eat_hyphen s1) as [s2|] eqn:E2; [|discriminate].
    destruct (eat_group s2) as [s3|] eqn:E3; [|discriminate].
    destruct (eat_hyphen s3) as [s4|] eqn:E4; [|discriminate].
    destruct (eat_group s4) as [s5|] eqn:E5; [|discriminate].
    destruct (eat_hyphen s5) as [s6|] eqn:E6; [|discriminate].
    destruct (eat_group s6) as [[|? ?]|] eqn:E7; try discriminate.
    intros _.
    apply eat_group_Some in E1 as (g1 & G1 & ->).
    apply eat_hyphen_Some in E2 as ->.
    apply eat_group_Some in E3 as (g2 & G2 & ->).
    apply eat_hyphen_Some in E4 as ->.
    apply eat_group_Some in E5 as (g3 & G3 & ->).
    apply eat_hyphen_Some in E6 as ->.
    apply eat_group_Some in E7 as (g4 & G4 & ->).
    exists g1, g2, g3, g4. repeat (split; [assumption|]).
    unfold credential. rewrite app_nil_r. reflexivity.
  - intros (g1 & g2 & g3 & g4 & G1 & G2 & G3 & G4 & ->). unfold credential.
    assert (E : forall g rest, is_group g -> eat_group (g ++ rest) = Some rest)
      by (intros g rest G; apply eat_group_Some; eauto).
    assert (Hh : forall rest, eat_hyphen (hyphen :: rest) = Some rest)
      by (intros rest; apply eat_hyphen_Some; reflexivity).
    rewrite (E g1), Hh, (E g2), Hh, (E g3), Hh by assumption.
    rewrite <- (app_nil_r g4), (E g4) by exact G4. reflexivity.
Qed.

(** The matcher of the pattern and the left-to-right reading agree. *)
Lemma group_matcher (input : jsstring) (x : nat) (c : nat -> option nat) :
  Regex.compile input false (Regex.times 4 (Regex.Class is_key_char)) x c
  = match eat_group (drop x input) with
    | Some _ => c (4 + x)%nat
    | None => None
    end.
Proof.
  unfold Regex.times.
  cbn [Regex.compile Regex.repeat_required Regex.repeat_upto Nat.sub].
  rewrite (lookup_head_drop input x).
  destruct (drop x input) as [|a l0] eqn:E0; [reflexivity|].
  unfold Regex.class_matches at 1. cbn [andb]. rewrite orb_false_r.
  apply drop_tail in E0. unfold eat_group.
  destruct (is_key_char a); [|destruct l0 as [|? [|? [|? ?]]]; reflexivity].
  rewrite (lookup_head_drop input (S x)), E0.
  destruct l0 as [|b l1]; [reflexivity|].
  unfold Regex.class_matches at 1. cbn [andb]. rewrite orb_false_r.
  apply drop_tail in E0.
  destruct (is_key_char b); [|destruct l1 as [|? [|? ?]]; reflexivity].
  rewrite (lookup_head_drop input (S (S x))), E0.
  destruct l1 as [|c' l2]; [reflexivity|].
  unfold Regex.class_matches at 1. cbn [andb]. rewrite orb_false_r.
  apply drop_tail in E0.
  destruct (is_key_char c'); [|destruct l2 as [|? ?]; reflexivity].
  rewrite (lookup_head_drop input (S (S (S x)))), E0.
  destruct l2 as [|d l3]; [reflexivity|].
  unfold Regex.class_matches at 1. cbn [andb]. rewrite orb_false_r.
  destruct (is_key_char d); reflexivity.
Qed.

Lemma hyphen_matcher (input : jsstring) (x : nat) (c : nat -> option nat) :
  Regex.compile input false (Regex.Char hyphen) x c
  = match eat_hyphen (drop x input) with
    | Some _ => c (1 + x)%nat
    | None => None
    end.
Proof.
  cbn [Regex.compile]. rewrite (lookup_head_drop input x).
  destruct (drop x input) as [|a l0]; [reflexivity|].
  unfold Regex.canonicalize, eat_hyphen. cbn [andb].
  destruct (a =? hyphen); reflexivity.
Qed.

Lemma eat_group_drop (input rest : jsstring) (x : nat) :
  eat_group (drop x input) = Some rest -> rest = drop (4 + x) input.
Proof.
  intros E. replace (4 + x)%nat with (x + 4)%nat by lia. rewrite <- drop_drop.
  destruct (drop x input) as [|a [|b [|c [|d l]]]]; try discriminate E.
  simpl in E. destruct (_ && _); [|discriminate]. injection E as <-. reflexivity.
Qed.

Lemma eat_hyphen_drop (input rest : jsstring) (x : nat) :
  eat_hyphen (drop x input) = Some rest -> rest = drop (1 + x) input.
Proof.
  intros E. replace (1 + x)%nat with (x + 1)%nat by lia. rewrite <- drop_drop.
  destruct (drop x input) as [|a l]; try discriminate E.
  simpl in E. destruct (a =? hyphen); [|discriminate]. injection E as <-. reflexivity.
Qed.

Lemma compile_Seq (input : jsstring) (r1 r2 : Regex.regex) (x : nat)
    (c : nat -> option nat) :
  Regex.compile input false (Regex.Seq r1 r2) x c
  = Regex.compile input false r1 x (fun y => Regex.compile input false r2 y c).
Proof. reflexivity. Qed.

Lemma shape_test_ok (key : jsstring) : shape_test key = shape_ok key.
Proof.
  unfold shape_test, shape_re, Regex.seq_of. cbn [fold_right].
  rewrite test_anchored.
  unfold shape_ok, eat_all. cbn [fold_left].
  rewrite compile_Seq, group_matcher. change (drop 0 key) with key.
  destruct (eat_group key) as [s1|] eqn:E1; [|reflexivity].
  apply (eat_group_drop key s1 0) in E1. subst s1.
  rewrite compile_Seq, hyphen_matcher.
  destruct (eat_hyphen (drop (4 + 0) key)) as [s2|] eqn:E2; [|reflexivity].
  apply eat_hyphen_drop in E2. subst s2.
  rewrite compile_Seq, group_matcher.
  destruct (eat_group (drop (1 + (4 + 0)) key)) as [s3|] eqn:E3; [|reflexivity].
  apply eat_group_drop in E3. subst s3.
  rewrite compile_Seq, hyphen_matcher.
  destruct (eat_hyphen (drop (4 + (1 + (4 + 0))) key)) as [s4|] eqn:E4; [|reflexivity].
  apply eat_hyphen_drop in E4. subst s4.
  rewrite compile_Seq, group_matcher.
  destruct (eat_group (drop (1 + (4 + (1 + (4 + 0)))) key)) as [s5|] eqn:E5; [|reflexivity].
  apply eat_group_drop in E5. subst s5.
  rewrite compile_Seq, hyphen_matcher.
  destruct (eat_hyphen (drop (4 + (1 + (4 + (1 + (4 + 0))))) key)) as [s6|] eqn:E6;
    [|reflexivity].
  apply eat_hyphen_drop in E6. subst s6.
  rewrite compile_Seq, group_matcher.
  destruct (eat_group (drop (1 + (4 + (1 + (4 + (1 + (4 + 0)))))) key)) as [s7|] eqn:E7;
    [|reflexivity].
  pose proof E7 as E7'. apply eat_group_drop in E7'. subst s7.
  cbn [Nat.add] in *. cbn [Regex.compile].
  assert (Hge : (19 <= length key)%nat).
  { destruct (Nat.le_gt_cases 19 (length key)) as [|Hlt]; [assumption|]. exfalso.
    assert (Hd : (length (drop 15 key) < 4)%nat) by (rewrite length_drop; lia).
    destruct (drop 15 key) as [|? [|? [|? [|? ?]]]]; simpl in Hd;
      try discriminate E7; lia. }
  destruct (Nat.eqb_spec 19 (length key)) as [El|El].
  - rewrite drop_ge by lia. reflexivity.
  - destruct (drop 19 key) as [|a l] eqn:Ed; [|reflexivity].
    exfalso. apply El.
    assert (Hl : (length (drop 19 key) = 0)%nat) by (rewrite Ed; reflexivity).
    rewrite length_drop in Hl. lia.
Qed.

Lemma shape_test_credential (key : jsstring) :
  shape_test key = true
  <-> exists g1 g2 g3 g4,
        is_group g1 /\ is_group g2 /\ is_group g3 /\ is_group g4
        /\ key = credential g1 g2 g3 g4.
Proof. rewrite shape_test_ok. apply shape_ok_credential. Qed.

Lemma calculatedCheck_credential (g1 g2 g3 g4 : jsstring) :
  is_group g1 -> is_group g2 -> is_group g3 -> is_group g4 ->
  calculatedCheck (credential g1 g2 g3 g4) = spec_checksum g1 g2 g3.
Proof.
  intros G1 G2 G3 G4. unfold calculatedCheck, payload_of.
  rewrite parts_of_credential by assumption.
  rewrite render_check_spec, rolling_hash_spec. unfold spec_checksum. simpl.
  rewrite <- !app_assoc. simpl. rewrite <- !app_assoc. reflexivity.
Qed.

(** *** The three stages of [_validateLicenseKey] *)

Lemma check_of_credential (g1 g2 g3 g4 : jsstring) :
  is_group g1 -> is_group g2 -> is_group g3 -> is_group g4 ->
  check_of (credential g1 g2 g3 g4) = g4
  /\ timeCodeHex_of (credential g1 g2 g3 g4) = g2.
Proof.
  intros G1 G2 G3 G4. unfold check_of, timeCodeHex_of.
  rewrite parts_of_credential by assumption. split; reflexivity.
Qed.

Lemma str_eqb_true (a b : jsstring) : str_eqb a b = true <-> a = b.
Proof. unfold str_eqb. apply bool_decide_eq_true. Qed.

Lemma includes_key_In (usedKeys : list jsstring) (key : jsstring) :
  includes_key usedKeys key = true <-> In key usedKeys.
Proof.
  unfold includes_key. rewrite existsb_exists. split.
  - intros (k & Hin & Heq). apply str_eqb_true in Heq. subst k. exact Hin.
  - intros Hin. exists key. split; [exact Hin | apply str_eqb_true; reflexivity].
Qed.

(** With a numeric time code the window test is [0 <= diff <= 5]. *)
Lemma window_numeric (now m : Z) (timeCodeHex : jsstring) :
  parseInt16 timeCodeHex = Num m ->
  window_rejects now timeCodeHex = false <-> 0 <= now / 60000 - m <= 5.
Proof.
  intros Hm. unfold window_rejects, time_diff, num_gt. rewrite Hm. simpl.
  rewrite orb_false_iff, !Z.ltb_ge. reflexivity.
Qed.

(** With a time code that [parseInt] cannot read the window test passes. *)
Lemma window_NaN (now : Z) (timeCodeHex : jsstring) :
  parseInt16 timeCodeHex = NaN -> window_rejects now timeCodeHex = false.
Proof.
  intros Hm. unfold window_rejects, time_diff, num_gt. rewrite Hm. reflexivity.
Qed.

Lemma validate_false_unchanged (now : Z) (key : jsstring) (ls : LocalStorage) :
  fst (_validateLicenseKey now key ls) = false ->
  snd (_validateLicenseKey now key ls) = ls.
Proof.
  unfold _validateLicenseKey, time_replay_stage, replay_stage.
  destruct (negb (shape_test key)); [reflexivity|].
  destruct (negb (str_eqb (check_of key) (calculatedCheck key))); [reflexivity|].
  destruct (window_rejects now (timeCodeHex_of key)); [reflexivity|].
  destruct (includes_key (get_used_keys ls) key); [reflexivity|].
  discriminate.
Qed.

Lemma validate_true_inv (now : Z) (key : jsstring) (ls : LocalStorage) :
  fst (_validateLicenseKey now key ls) = true ->
  shape_test key = true
  /\ check_of key = calculatedCheck key
  /\ window_rejects now (timeCodeHex_of key) = false
  /\ ~ In key (get_used_keys ls)
  /\ snd (_validateLicenseKey now key ls)
     = set_used_keys (get_used_keys ls ++ [key]) ls.
Proof.
  unfold _validateLicenseKey, time_replay_stage, replay_stage.
  destruct (shape_test key); [|discriminate]. simpl.
  destruct (str_eqb (check_of key) (calculatedCheck key)) eqn:Ec; [|discriminate].
  apply str_eqb_true in Ec. simpl.
  destruct (window_rejects now (timeCodeHex_of key)); [discriminate|].
  destruct (includes_key (get_used_keys ls) key) eqn:Ei; [discriminate|].
  intros _. split; [reflexivity|]. split; [exact Ec|]. split; [reflexivity|].
  split; [|reflexivity].
  rewrite <- includes_key_In, Ei. discriminate.
Qed.

Lemma activate_false_unchanged (now now' : Z) (key : jsstring) (m : Manager) :
  fst (activateLicense now now' key m) = false ->
  snd (activateLicense now now' key m) = m.
Proof.
  unfold activateLicense.
  pose proof (validate_false_unchanged now key (storage m)) as Hv.
  destruct (_validateLicenseKey now key (storage m)) as [ok ls].
  destruct ok; [discriminate|]. intros _. simpl in *.
  rewrite Hv by reflexivity. destruct m; reflexivity.
Qed.

(** The boundary cases of the window, for a time code that is a number. *)
Example window_boundaries :
  let code := lit "0064" in                         (* 100 minutes *)
  window_rejects (100 * 60000) code = false         (* diff = 0 *)
  /\ window_rejects (105 * 60000 + 59999) code = false   (* diff = 5 *)
  /\ window_rejects (106 * 60000) code = true       (* diff = 6 *)
  /\ window_rejects (99 * 60000 + 59999) code = true.   (* diff = -1 *)
Proof. repeat split. Qed.

(** Validation of a credential of the right shape gets past the checksum
    test exactly when the specification's check is its fourth group. *)
Lemma validate_credential (now : Z) (ls : LocalStorage) (g1 g2 g3 g4 : jsstring) :
  is_group g1 -> is_group g2 -> is_group g3 -> is_group g4 ->
  _validateLicenseKey now (credential g1 g2 g3 g4) ls
  = if bool_decide (spec_checksum g1 g2 g3 = g4)
    then time_replay_stage now (credential g1 g2 g3 g4) ls
    else (false, ls).
Proof.
  intros G1 G2 G3 G4.
  pose proof (calculatedCheck_credential g1 g2 g3 g4 G1 G2 G3 G4) as Hc.
  unfold _validateLicenseKey.
  replace (shape_test (credential g1 g2 g3 g4)) with true
    by (symmetry; apply shape_test_credential; eauto 10).
  destruct (check_of_credential g1 g2 g3 g4 G1 G2 G3 G4) as [-> _].
  rewrite Hc. unfold str_eqb.
  destruct (decide (spec_checksum g1 g2 g3 = g4)) as [E|E].
  - rewrite (bool_decide_eq_true_2 (g4 = _)) by (symmetry; exact E).
    rewrite (bool_decide_eq_true_2 (_ = g4)) by exact E. reflexivity.
  - rewrite (bool_decide_eq_false_2 (g4 = _)) by congruence.
    rewrite (bool_decide_eq_false_2 (_ = g4)) by exact E. reflexivity.
Qed.

(** C2.  For a credential [g1-g2-g3-g4] of the right shape, the check the
    validator computes is the specification's: the rolling hash
    [hash * 31 + charCode] with 32-bit signed wrap-around, from 0, over
    [g1 + "-" + g2 + "-" + g3 + SALT], its absolute value in upper-case
    hexadecimal, zero-padded to four characters, the last four kept; and
    validation gets past the checksum step exactly when that string is
    [g4]. *)
Theorem checksum_step_spec (now : Z) (ls : LocalStorage) (g1 g2 g3 g4 : jsstring) :
  is_group g1 -> is_group g2 -> is_group g3 -> is_group g4 ->
  calculatedCheck (credential g1 g2 g3 g4) = spec_checksum g1 g2 g3
  /\ _validateLicenseKey now (credential g1 g2 g3 g4) ls
     = if bool_decide (spec_checksum g1 g2 g3 = g4)
       then time_replay_stage now (credential g1 g2 g3 g4) ls
       else (false, ls).
Proof.
  intros G1 G2 G3 G4. split.
  - apply calculatedCheck_credential; assumption.
  - apply validate_credential; assumption.
Qed.

Lemma checksum_step_spec_witness :
  calculatedCheck (credential (lit "AAAA") (lit "0000") (lit "AAAA") (lit "AFB8"))
  = spec_checksum (lit "AAAA") (lit "0000") (lit "AAAA")
  /\ _validateLicenseKey 0 (credential (lit "AAAA") (lit "0000") (lit "AAAA") (lit "AFB8"))
       emptyStorage
     = if bool_decide (spec_checksum (lit "AAAA") (lit "0000") (lit "AAAA") = lit "AFB8")
       then time_replay_stage 0
              (credential (lit "AAAA") (lit "0000") (lit "AAAA") (lit "AFB8")) emptyStorage
       else (false, emptyStorage).
Proof.
  apply (checksum_step_spec 0 emptyStorage (lit "AAAA") (lit "0000") (lit "AAAA") (lit "AFB8"));
    split; reflexivity.
Defined.

(** C3.  The credential [AAAA-ZZZZ-AAAA-9538] has the right shape and the
    right checksum, and its time code [ZZZZ] is not a base-16 number:
    [parseInt] returns [NaN], both comparisons of the window test are false,
    and the credential validates at every time, whereas no [diff] with
    [0 <= diff <= 5] exists for it. *)
Theorem window_check_passes_without_time_code :
  let key := lit "AAAA-ZZZZ-AAAA-9538" in
  shape_test key = true
  /\ check_of key = calculatedCheck key
  /\ parseInt16 (timeCodeHex_of key) = NaN
  /\ forall now : Z,
       _validateLicenseKey now key emptyStorage
       = (true, set_used_keys [key] emptyStorage).
Proof.
  intros key.
  assert (Hs : shape_test key = true) by reflexivity.
  assert (Hc : check_of key = calculatedCheck key) by reflexivity.
  assert (Hn : parseInt16 (timeCodeHex_of key) = NaN) by reflexivity.
  split; [exact Hs|]. split; [exact Hc|]. split; [exact Hn|].
  assert (He : str_eqb (check_of key) (calculatedCheck key) = true)
    by (apply str_eqb_true; exact Hc).
  intros now. unfold _validateLicenseKey, time_replay_stage.
  rewrite Hs, He, (window_NaN now _ Hn). cbn [negb].
  vm_compute. reflexivity.
Qed.

(** C4.  A well-formed, checksum-correct, in-window credential that has not
    been used validates, and validating it again, at any time, fails; a
    failed validation leaves [localStorage] as it was, a successful one has
    passed every check and appends the credential to the replay set, and a
    failed activation leaves the manager (licence state and storage) as it
    was. *)
Theorem replay_rejection (now1 now2 m : Z) (ls : LocalStorage) (g1 g2 g3 g4 : jsstring) :
  is_group g1 -> is_group g2 -> is_group g3 -> is_group g4 ->
  spec_checksum g1 g2 g3 = g4 ->
  parseInt16 g2 = Num m -> 0 <= now1 / 60000 - m <= 5 ->
  ~ In (credential g1 g2 g3 g4) (get_used_keys ls) ->
  let key := credential g1 g2 g3 g4 in
  let ls' := set_used_keys (get_used_keys ls ++ [key]) ls in
  _validateLicenseKey now1 key ls = (true, ls')
  /\ _validateLicenseKey now2 key ls' = (false, ls')
  /\ (forall now k s,
        fst (_validateLicenseKey now k s) = false ->
        snd (_validateLicenseKey now k s) = s)
  /\ (forall now k s,
        fst (_validateLicenseKey now k s) = true ->
        shape_test k = true
        /\ check_of k = calculatedCheck k
        /\ window_rejects now (timeCodeHex_of k) = false
        /\ ~ In k (get_used_keys s)
        /\ snd (_validateLicenseKey now k s) = set_used_keys (get_used_keys s ++ [k]) s)
  /\ (forall now now' k M,
        fst (activateLicense now now' k M) = false ->
        snd (activateLicense now now' k M) = M).
Proof.
  intros G1 G2 G3 G4 Hsum Hm Hwin Hfresh key ls'.
  assert (Hstep : forall now s,
             _validateLicenseKey now key s = time_replay_stage now key s).
  { intros now s. unfold key.
    rewrite (validate_credential now s g1 g2 g3 g4 G1 G2 G3 G4).
    rewrite bool_decide_eq_true_2 by exact Hsum. reflexivity. }
  destruct (check_of_credential g1 g2 g3 g4 G1 G2 G3 G4) as [_ Htc].
  fold key in Htc, Hfresh.
  split; [|split; [|split; [|split]]].
  - rewrite Hstep. unfold time_replay_stage. rewrite Htc.
    replace (window_rejects now1 g2) with false
      by (symmetry; apply (window_numeric now1 m g2 Hm); exact Hwin).
    unfold replay_stage.
    destruct (includes_key (get_used_keys ls) key) eqn:Ei; [|reflexivity].
    apply includes_key_In in Ei. contradiction.
  - rewrite Hstep. unfold time_replay_stage.
    destruct (window_rejects now2 (timeCodeHex_of key)); [reflexivity|].
    unfold replay_stage.
    replace (includes_key (get_used_keys ls') key) with true; [reflexivity|].
    symmetry. apply includes_key_In. unfold ls', get_used_keys at 1. simpl.
    apply in_or_app. right. left. reflexivity.
  - exact validate_false_unchanged.
  - exact validate_true_inv.
  - exact activate_false_unchanged.
Qed.

Lemma replay_rejection_witness :
  let key := credential (lit "AAAA") (lit "0000") (lit "AAAA") (lit "AFB8") in
  let ls' := set_used_keys [key] emptyStorage in
  _validateLicenseKey 120000 key emptyStorage = (true, ls')
  /\ _validateLicenseKey 180000 key ls' = (false, ls').
Proof.
  intros key ls'.
  destruct (replay_rejection 120000 180000 0 emptyStorage
              (lit "AAAA") (lit "0000") (lit "AAAA") (lit "AFB8")) as (H1 & H2 & _).
  - split; reflexivity.
  - split; reflexivity.
  - split; reflexivity.
  - split; reflexivity.
  - reflexivity.
  - reflexivity.
  - vm_compute. split; discriminate.
  - simpl. intros [].
  - split; [exact H1 | exact H2].
Defined.

End SecurityFacts.

(** ** The region redactor *)

Module ImageFacts.
Import JS OCR Eff Image.

(** *** Arrays *)

Lemma length_tabulate (n : Z) (f : Z -> Z) : length (tabulate n f) = Z.to_nat n.
Proof. unfold tabulate. rewrite length_map, length_seq. reflexivity. Qed.

Lemma lookup_tabulate (n : Z) (f : Z -> Z) (i : nat) :
  (i < Z.to_nat n)%nat -> tabulate n f !! i = Some (f (Z.of_nat i)).
Proof.
  intros Hi. unfold tabulate. rewrite list_lookup_fmap, lookup_seq_lt by exact Hi.
  reflexivity.
Qed.

Lemma read_tabulate (n : Z) (f : Z -> Z) (i : Z) :
  0 <= i < n -> read (tabulate n f) i = f i.
Proof.
  intros Hi. unfold read.
  destruct (Z.ltb_spec i 0) as [?|_]; [lia|].
  rewrite lookup_tabulate by lia. simpl. f_equal. lia.
Qed.

Lemma tabulate_ext (n : Z) (f g : Z -> Z) :
  (forall i, 0 <= i < n -> f i = g i) -> tabulate n f = tabulate n g.
Proof.
  intros Hfg. unfold tabulate. apply map_ext_in. intros i Hi.
  apply in_seq in Hi. apply Hfg. lia.
Qed.

Lemma tabulate_read (d : list Z) : tabulate (Z.of_nat (length d)) (read d) = d.
Proof.
  apply list_eq. intros i.
  destruct (decide (i < length d)%nat) as [Hi|Hi].
  - rewrite lookup_tabulate by lia. unfold read.
    destruct (Z.ltb_spec (Z.of_nat i) 0) as [?|_]; [lia|].
    rewrite Nat2Z.id.
    destruct (lookup_lt_is_Some_2 d i Hi) as [v Hv]. rewrite Hv. reflexivity.
  - rewrite (lookup_ge_None_2 d) by lia.
    apply lookup_ge_None_2. rewrite length_tabulate. lia.
Qed.

Lemma length_write (d : list Z) (i v : Z) : length (write d i v) = length d.
Proof. unfold write. destruct (i <? 0); [reflexivity | apply length_insert]. Qed.

Lemma read_write_eq (d : list Z) (i v : Z) :
  0 <= i < Z.of_nat (length d) -> read (write d i v) i = v.
Proof.
  intros Hi. unfold read, write.
  destruct (Z.ltb_spec i 0) as [?|_]; [lia|].
  rewrite list_lookup_insert_eq by lia. reflexivity.
Qed.

Lemma read_write_ne (d : list Z) (i j v : Z) :
  i <> j -> read (write d i v) j = read d j.
Proof.
  intros Hij. unfold read, write.
  destruct (Z.ltb_spec j 0) as [?|Hj]; [reflexivity|].
  destruct (Z.ltb_spec i 0) as [?|Hi]; [reflexivity|].
  rewrite list_lookup_insert_ne by lia. reflexivity.
Qed.

(** Two arrays of the same length with the same reads are equal. *)
Lemma read_ext (d d' : list Z) :
  length d = length d' ->
  (forall i, 0 <= i < Z.of_nat (length d) -> read d i = read d' i) ->
  d = d'.
Proof.
  intros Hlen Hread. rewrite <- (tabulate_read d), <- (tabulate_read d'), <- Hlen.
  apply tabulate_ext. exact Hread.
Qed.

(** *** Loops: the invariant rule *)

Lemma for_loop_unfold {S : Type} (fuel : nat) (cond : Z -> bool) (step : Z)
    (body : Z -> S -> option S) (i : Z) (s : S) :
  for_loop fuel cond step body i s
  = if cond i then
      match fuel with
      | O => None
      | Datatypes.S fuel' =>
          match body i s with
          | Some s' => for_loop fuel' cond step body (i + step) s'
          | None => None
          end
      end
    else Some s.
Proof. destruct fuel; reflexivity. Qed.

Lemma for_loop_inv {S : Type} (I : Z -> S -> Prop) (cond : Z -> bool) (step : Z)
    (body : Z -> S -> option S) (bound : Z) :
  1 <= step ->
  (forall j, cond j = true -> j < bound) ->
  (forall j s, cond j = true -> I j s ->
               exists s', body j s = Some s' /\ I (j + step) s') ->
  forall (fuel : nat) (i : Z) (s : S),
    bound - i <= Z.of_nat fuel -> I i s ->
    exists j s', for_loop fuel cond step body i s = Some s'
                 /\ cond j = false /\ I j s'.
Proof.
  intros Hstep Hbound Hbody fuel.
  induction fuel as [|fuel IH]; intros i s Hfuel Hi; rewrite for_loop_unfold.
  - destruct (cond i) eqn:Ec.
    + apply Hbound in Ec. lia.
    + exists i, s. auto.
  - destruct (cond i) eqn:Ec.
    + destruct (Hbody i s Ec Hi) as (s' & -> & Hi').
      apply Hbound in Ec. apply IH; [lia | exact Hi'].
    + exists i, s. auto.
Qed.

(** *** [_pixelate]: every pixel takes the colour of the top-left pixel of
    its block, and keeps its alpha *)

Section Pixelate.
Variables (w h k : Z) (d0 : list Z).
Hypothesis Hw : 0 <= w.
Hypothesis Hh : 0 <= h.
Hypothesis Hk : 1 <= k.
Hypothesis Hlen : Z.of_nat (length d0) = 4 * w * h.

(** The index of channel [c] of the pixel [(X, Y)]. *)
Definition idx (X Y c : Z) : Z := 4 * (Y * w + X) + c.

Definition valid (X Y : Z) : Prop := 0 <= X < w /\ 0 <= Y < h.

(** What the array holds at [(X, Y)], channel [c], when the call returns. *)
Definition target (X Y c : Z) : Z :=
  if c <? 3 then read d0 (idx (X / k * k) (Y / k * k) c) else read d0 (idx X Y c).

(** The pixels in [done] are painted, the others are as in [d0], and no
    alpha has changed. *)
Definition Inv (done : Z -> Z -> Prop) (d : list Z) : Prop :=
  length d = length d0
  /\ forall X Y c, valid X Y -> 0 <= c < 4 ->
       (done X Y -> read d (idx X Y c) = target X Y c)
       /\ (~ done X Y -> read d (idx X Y c) = read d0 (idx X Y c))
       /\ read d (idx X Y 3) = read d0 (idx X Y 3).

(** A block starts at a multiple of [k]. *)
Definition aligned (x : Z) : Prop := exists q, 0 <= q /\ x = q * k.

Lemma idx_range (X Y c : Z) : valid X Y -> 0 <= c < 4 -> 0 <= idx X Y c < 4 * w * h.
Proof. unfold valid, idx. intros [HX HY] Hc. nia. Qed.

Lemma idx_inj (X Y c X' Y' c' : Z) :
  valid X Y -> valid X' Y' -> 0 <= c < 4 -> 0 <= c' < 4 ->
  idx X Y c = idx X' Y' c' -> X = X' /\ Y = Y' /\ c = c'.
Proof.
  unfold valid, idx. intros [HX HY] [HX' HY'] Hc Hc' E.
  assert (Y = Y') by nia. subst Y'. lia.
Qed.

Lemma aligned_div (x dx : Z) : aligned x -> 0 <= dx < k -> (x + dx) / k * k = x.
Proof.
  intros (q & Hq & ->) Hdx.
  rewrite Z.div_add_l by lia. rewrite Z.div_small by lia. lia.
Qed.

Lemma aligned_0 : aligned 0.
Proof. exists 0. lia. Qed.

Lemma aligned_next (x : Z) : aligned x -> aligned (x + k).
Proof. intros (q & Hq & ->). exists (q + 1). lia. Qed.

Lemma aligned_nonneg (x : Z) : aligned x -> 0 <= x.
Proof. intros (q & Hq & ->). nia. Qed.

Lemma Inv_ext (D D' : Z -> Z -> Prop) (d : list Z) :
  (forall X Y, valid X Y -> (D X Y <-> D' X Y)) -> Inv D d -> Inv D' d.
Proof.
  intros HD [Hl HI]. split; [exact Hl|]. intros X Y c HV Hc.
  destruct (HI X Y c HV Hc) as (H1 & H2 & H3). specialize (HD X Y HV).
  split; [|split]; [intros HX; apply H1; tauto | intros HX; apply H2; tauto | exact H3].
Qed.

Lemma target_alpha (X Y : Z) : target X Y 3 = read d0 (idx X Y 3).
Proof. reflexivity. Qed.

(** Painting one pixel of the block at [(x, y)] with the colour that [d0]
    has at [(x, y)]. *)
Lemma paint_pixel_inv (D : Z -> Z -> Prop) (d : list Z) (x y dx dy : Z) :
  Inv D d -> aligned x -> aligned y ->
  0 <= dx < k -> 0 <= dy < k -> valid (x + dx) (y + dy) ->
  Inv (fun X Y => D X Y \/ (X = x + dx /\ Y = y + dy))
      (paint_pixel w x y (read d0 (idx x y 0)) (read d0 (idx x y 1)) (read d0 (idx x y 2))
         dy dx d).
Proof.
  intros [Hl HI] Ax Ay Hdx Hdy HV. unfold paint_pixel.
  replace (((y + dy) * w + (x + dx)) * 4) with (idx (x + dx) (y + dy) 0)
    by (unfold idx; lia).
  replace (idx (x + dx) (y + dy) 0 + 1) with (idx (x + dx) (y + dy) 1)
    by (unfold idx; lia).
  replace (idx (x + dx) (y + dy) 0 + 2) with (idx (x + dx) (y + dy) 2)
    by (unfold idx; lia).
  set (P := idx (x + dx) (y + dy)).
  assert (HP : forall c c', c <> c' -> P c <> P c') by (intros c c'; unfold P, idx; lia).
  assert (HR : forall c, 0 <= c < 4 -> 0 <= P c < Z.of_nat (length d0))
    by (intros c Hc; rewrite Hlen; apply idx_range; assumption).
  split; [rewrite !length_write; exact Hl|].
  intros X Y c HXY Hc.
  destruct (decide (X = x + dx /\ Y = y + dy)) as [[-> ->]|Hne].
  - fold (P c). fold (P 3).
    assert (H3 : read (write (write (write d (P 0) (read d0 (idx x y 0)))
                                (P 1) (read d0 (idx x y 1)))
                         (P 2) (read d0 (idx x y 2))) (P 3)
                 = read d0 (P 3)).
    { rewrite !read_write_ne by (apply HP; lia).
      apply (HI _ _ 3 HXY). lia. }
    split; [intros _ | split; [intros Hn; exfalso; apply Hn; right; split; reflexivity | exact H3]].
    unfold target. rewrite !aligned_div by assumption.
    assert (Hcc : c = 0 \/ c = 1 \/ c = 2 \/ c = 3) by lia.
    destruct Hcc as [-> | [-> | [-> | ->]]]; cbn [Z.ltb Z.compare Pos.compare Pos.compare_cont].
    + rewrite !read_write_ne by (apply HP; lia).
      apply read_write_eq. rewrite Hl. apply HR. lia.
    + rewrite read_write_ne by (apply HP; lia).
      apply read_write_eq. rewrite length_write, Hl. apply HR. lia.
    + apply read_write_eq. rewrite !length_write, Hl. apply HR. lia.
    + exact H3.
  - assert (Hd : forall c' c'', 0 <= c' < 4 -> 0 <= c'' < 4 -> P c' <> idx X Y c'').
    { intros c' c'' Hc' Hc'' E. apply idx_inj in E; try assumption.
      destruct E as (E1 & E2 & _). apply Hne. split; symmetry; assumption. }
    rewrite !read_write_ne by (apply Hd; lia).
    destruct (HI _ _ c HXY Hc) as (H1 & H2 & H3). split; [|split].
    + intros [HD | [-> ->]]; [exact (H1 HD) | exfalso; apply Hne; split; reflexivity].
    + intros Hn. apply H2. intros HD. apply Hn. left. exact HD.
    + exact H3.
Qed.

(** The pixels painted when the loops stand at [y], [x], [dy], [dx]. *)
Definition Dy (y : Z) (X Y : Z) : Prop := Y < y.
Definition Dx (y x : Z) (X Y : Z) : Prop := Y < y \/ (Y < y + k /\ X < x).
Definition Ddy (y x dy : Z) (X Y : Z) : Prop :=
  Dx y x X Y \/ (y <= Y < y + dy /\ x <= X < x + k).
Definition Ddx (y x dy dx : Z) (X Y : Z) : Prop :=
  Ddy y x dy X Y \/ (Y = y + dy /\ x <= X < x + dx).

(** The innermost loop paints one row of the block. *)
Lemma dx_loop (d : list Z) (x y dy : Z) :
  aligned x -> aligned y -> x < w -> 0 <= dy < k -> y + dy < h ->
  Inv (Ddy y x dy) d ->
  exists d',
    for_loop (Z.to_nat k) (fun dx => (dx <? k) && (x + dx <? w)) 1
      (fun dx data =>
         Some (paint_pixel w x y (read d0 (idx x y 0)) (read d0 (idx x y 1))
                 (read d0 (idx x y 2)) dy dx data))
      0 d = Some d'
    /\ Inv (Ddy y x (dy + 1)) d'.
Proof.
  intros Ax Ay Hx Hdy Hy HI.
  pose proof (aligned_nonneg x Ax) as Hx0. pose proof (aligned_nonneg y Ay) as Hy0.
  destruct (for_loop_inv
              (fun dx data => 0 <= dx <= k /\ x + dx <= w /\ Inv (Ddx y x dy dx) data)
              (fun dx => (dx <? k) && (x + dx <? w)) 1
              (fun dx data =>
                 Some (paint_pixel w x y (read d0 (idx x y 0)) (read d0 (idx x y 1))
                         (read d0 (idx x y 2)) dy dx data))
              k) with (Z.to_nat k) 0 d as (j & d' & Hrun & Hexit & Hj & Hjw & HI').
  - lia.
  - intros j Hc. apply andb_prop in Hc as [Hc _]. apply Z.ltb_lt in Hc. exact Hc.
  - intros j data Hc (Hj & Hjw & HIj). apply andb_prop in Hc as [Hc1 Hc2].
    apply Z.ltb_lt in Hc1, Hc2. eexists. split; [reflexivity|].
    split; [lia|]. split; [lia|].
    eapply Inv_ext; [|apply (paint_pixel_inv _ _ x y j dy HIj Ax Ay); unfold valid; lia].
    intros X Y HV. unfold Ddx, Ddy, Dx. lia.
  - lia.
  - split; [lia|]. split; [lia|].
    eapply Inv_ext; [|exact HI]. intros X Y HV. unfold Ddx, Ddy, Dx. lia.
  - exists d'. split; [exact Hrun|].
    eapply Inv_ext; [|exact HI']. intros X Y [HX HY].
    apply andb_false_iff in Hexit. rewrite !Z.ltb_ge in Hexit.
    unfold Ddx, Ddy, Dx. lia.
Qed.

(** The loop over the rows of a block paints the block. *)
Lemma dy_loop (d : list Z) (x y : Z) :
  aligned x -> aligned y -> x < w -> y < h ->
  Inv (Dx y x) d ->
  exists d',
    for_loop (Z.to_nat k) (fun dy => (dy <? k) && (y + dy <? h)) 1
      (fun dy data =>
         for_loop (Z.to_nat k) (fun dx => (dx <? k) && (x + dx <? w)) 1
           (fun dx data =>
              Some (paint_pixel w x y (read d0 (idx x y 0)) (read d0 (idx x y 1))
                      (read d0 (idx x y 2)) dy dx data))
           0 data)
      0 d = Some d'
    /\ Inv (Dx y (x + k)) d'.
Proof.
  intros Ax Ay Hx Hy HI.
  pose proof (aligned_nonneg x Ax) as Hx0. pose proof (aligned_nonneg y Ay) as Hy0.
  destruct (for_loop_inv
              (fun dy data => 0 <= dy <= k /\ y + dy <= h /\ Inv (Ddy y x dy) data)
              (fun dy => (dy <? k) && (y + dy <? h)) 1
              (fun dy data =>
                 for_loop (Z.to_nat k) (fun dx => (dx <? k) && (x + dx <? w)) 1
                   (fun dx data =>
                      Some (paint_pixel w x y (read d0 (idx x y 0)) (read d0 (idx x y 1))
                              (read d0 (idx x y 2)) dy dx data))
                   0 data)
              k) with (Z.to_nat k) 0 d as (j & d' & Hrun & Hexit & Hj & Hjh & HI').
  - lia.
  - intros j Hc. apply andb_prop in Hc as [Hc _]. apply Z.ltb_lt in Hc. exact Hc.
  - intros j data Hc (Hj & Hjh & HIj). apply andb_prop in Hc as [Hc1 Hc2].
    apply Z.ltb_lt in Hc1, Hc2.
    destruct (dx_loop data x y j Ax Ay Hx ltac:(lia) Hc2 HIj) as (data' & Hrun & HI').
    exists data'. split; [exact Hrun|]. split; [lia|]. split; [lia | exact HI'].
  - lia.
  - split; [lia|]. split; [lia|].
    eapply Inv_ext; [|exact HI]. intros X Y HV. unfold Ddy, Dx. lia.
  - exists d'. split; [exact Hrun|].
    eapply Inv_ext; [|exact HI']. intros X Y [HX HY].
    apply andb_false_iff in Hexit. rewrite !Z.ltb_ge in Hexit.
    unfold Ddy, Dx. lia.
Qed.

(** One block: the colour is read at its top-left pixel, which is not yet
    painted. *)
Lemma paint_block_inv (d : list Z) (x y : Z) :
  aligned x -> aligned y -> x < w -> y < h ->
  Inv (Dx y x) d ->
  exists d', paint_block w h k x y d = Some d' /\ Inv (Dx y (x + k)) d'.
Proof.
  intros Ax Ay Hx Hy HI. unfold paint_block.
  pose proof (aligned_nonneg x Ax) as Hx0. pose proof (aligned_nonneg y Ay) as Hy0.
  assert (HV : valid x y) by (unfold valid; lia).
  assert (Hfresh : ~ Dx y x x y) by (unfold Dx; lia).
  assert (Hr : forall c, 0 <= c < 4 -> read d (idx x y c) = read d0 (idx x y c)).
  { intros c Hc. destruct HI as [_ HI]. destruct (HI x y c HV Hc) as (_ & H2 & _).
    exact (H2 Hfresh). }
  replace ((y * w + x) * 4) with (idx x y 0) by (unfold idx; lia).
  replace (idx x y 0 + 1) with (idx x y 1) by (unfold idx; lia).
  replace (idx x y 0 + 2) with (idx x y 2) by (unfold idx; lia).
  rewrite !Hr by lia.
  apply dy_loop; assumption.
Qed.

(** The loop over the blocks of a row of blocks. *)
Lemma x_loop (d : list Z) (y : Z) :
  aligned y -> y < h ->
  Inv (Dy y) d ->
  exists d',
    for_loop (Z.to_nat w) (fun x => x <? w) k
      (fun x data => paint_block w h k x y data) 0 d = Some d'
    /\ Inv (Dy (y + k)) d'.
Proof.
  intros Ay Hy HI.
  destruct (for_loop_inv
              (fun x data => aligned x /\ Inv (Dx y x) data)
              (fun x => x <? w) k
              (fun x data => paint_block w h k x y data)
              w) with (Z.to_nat w) 0 d as (j & d' & Hrun & Hexit & Aj & HI').
  - exact Hk.
  - intros j Hc. apply Z.ltb_lt in Hc. exact Hc.
  - intros j data Hc (Aj & HIj). apply Z.ltb_lt in Hc.
    destruct (paint_block_inv data j y Aj Ay Hc Hy HIj) as (data' & Hrun & HI').
    exists data'. split; [exact Hrun|]. split; [apply aligned_next; exact Aj | exact HI'].
  - lia.
  - split; [exact aligned_0|].
    eapply Inv_ext; [|exact HI]. intros X Y [HX HY]. unfold Dx, Dy. lia.
  - exists d'. split; [exact Hrun|].
    eapply Inv_ext; [|exact HI']. intros X Y [HX HY].
    apply Z.ltb_ge in Hexit. unfold Dx, Dy. lia.
Qed.

(** The loop over the rows of blocks. *)
Lemma y_loop :
  exists d',
    for_loop (Z.to_nat h) (fun y => y <? h) k
      (fun y data =>
         for_loop (Z.to_nat w) (fun x => x <? w) k
           (fun x data => paint_block w h k x y data) 0 data)
      0 d0 = Some d'
    /\ length d' = length d0
    /\ forall X Y c, valid X Y -> 0 <= c < 4 -> read d' (idx X Y c) = target X Y c.
Proof.
  destruct (for_loop_inv
              (fun y data => aligned y /\ Inv (Dy y) data)
              (fun y => y <? h) k
              (fun y data =>
                 for_loop (Z.to_nat w) (fun x => x <? w) k
                   (fun x data => paint_block w h k x y data) 0 data)
              h) with (Z.to_nat h) 0 d0 as (j & d' & Hrun & Hexit & Aj & HI').
  - exact Hk.
  - intros j Hc. apply Z.ltb_lt in Hc. exact Hc.
  - intros j data Hc (Aj & HIj). apply Z.ltb_lt in Hc.
    destruct (x_loop data j Aj Hc HIj) as (data' & Hrun & HI').
    exists data'. split; [exact Hrun|]. split; [apply aligned_next; exact Aj | exact HI'].
  - lia.
  - split; [exact aligned_0|]. split; [reflexivity|].
    intros X Y c [HX HY] Hc. unfold Dy. split; [lia|]. split; reflexivity.
  - exists d'. split; [exact Hrun|]. destruct HI' as [Hl HI']. split; [exact Hl|].
    intros X Y c HV Hc. destruct (HI' X Y c HV Hc) as (H1 & _ & _).
    apply H1. apply Z.ltb_ge in Hexit. destruct HV as [_ HY]. unfold Dy. lia.
Qed.

End Pixelate.

(** An image whose array has four bytes per pixel. *)
Definition wf_image (img : ImageData) : Prop :=
  0 <= width img /\ 0 <= height img
  /\ Z.of_nat (length (data img)) = 4 * width img * height img.

(** With a block size of at least one [_pixelate] returns, and the array
    then holds, at every pixel, the colour of the top-left pixel of its
    block and the alpha it had. *)
Lemma pixelate_spec (img : ImageData) (k : Z) :
  wf_image img -> 1 <= k ->
  exists d',
    _pixelate img k = Some {| width := width img; height := height img; data := d' |}
    /\ length d' = length (data img)
    /\ forall X Y c, valid (width img) (height img) X Y -> 0 <= c < 4 ->
         read d' (idx (width img) X Y c) = target (width img) k (data img) X Y c.
Proof.
  intros (Hw & Hh & Hlen) Hk.
  destruct (y_loop (width img) (height img) k (data img) Hw Hh Hk Hlen)
    as (d' & Hrun & Hl & Hd').
  exists d'. unfold _pixelate. rewrite Hrun. auto.
Qed.

Lemma div4 (a c : Z) : 0 <= c < 4 -> (4 * a + c) / 4 = a /\ (4 * a + c) mod 4 = c.
Proof.
  intros Hc. split.
  - symmetry. apply (Z.div_unique _ 4 a c); lia.
  - symmetry. apply (Z.mod_unique _ 4 a c); lia.
Qed.

Lemma divw (w X Y : Z) : 0 <= X < w -> (Y * w + X) / w = Y /\ (Y * w + X) mod w = X.
Proof.
  intros HX. split.
  - symmetry. apply (Z.div_unique _ w Y X); lia.
  - symmetry. apply (Z.mod_unique _ w Y X); lia.
Qed.

(** Every index of the array is a channel of a pixel. *)
Lemma idx_decompose (w h i : Z) :
  0 <= w -> 0 <= h -> 0 <= i < 4 * w * h ->
  let p := i / 4 in
  i = idx w (p mod w) (p / w) (i mod 4)
  /\ valid w h (p mod w) (p / w)
  /\ 0 <= i mod 4 < 4.
Proof.
  intros Hw0 Hh0 Hi p.
  assert (Hw : 0 < w) by nia.
  assert (Hh : 0 < h) by nia.
  pose proof (Z.div_mod i 4 ltac:(lia)) as E4.
  pose proof (Z.mod_pos_bound i 4 ltac:(lia)) as B4.
  pose proof (Z.div_mod p w ltac:(lia)) as Ew.
  pose proof (Z.mod_pos_bound p w Hw) as Bw.
  assert (Hp : 0 <= p < w * h) by (unfold p; lia).
  assert (Hq : 0 <= p / w < h).
  { split; [apply Z.div_pos; lia|]. apply Z.div_lt_upper_bound; lia. }
  split; [|split].
  - unfold idx. fold p in E4. lia.
  - unfold valid. lia.
  - exact B4.
Qed.

Lemma block_origin_valid (w h k X Y : Z) :
  1 <= k -> valid w h X Y -> valid w h (X / k * k) (Y / k * k).
Proof.
  intros Hk [HX HY].
  pose proof (Z.mul_div_le X k ltac:(lia)). pose proof (Z.mul_div_le Y k ltac:(lia)).
  pose proof (Z.div_pos X k ltac:(lia) ltac:(lia)).
  pose proof (Z.div_pos Y k ltac:(lia) ltac:(lia)).
  unfold valid. nia.
Qed.

(** Painting a painted image changes nothing. *)
Lemma pixelate_idempotent (img img1 : ImageData) (k : Z) :
  wf_image img -> 1 <= k ->
  _pixelate img k = Some img1 -> _pixelate img1 k = Some img1.
Proof.
  intros Hwf Hk Hrun.
  destruct (pixelate_spec img k Hwf Hk) as (d1 & Hrun1 & Hl1 & Hd1).
  rewrite Hrun1 in Hrun. injection Hrun as <-.
  destruct Hwf as (Hw & Hh & Hlen).
  set (w := width img) in *. set (h := height img) in *. set (d0 := data img) in *.
  assert (Hwf1 : wf_image {| width := w; height := h; data := d1 |}).
  { unfold wf_image. simpl. rewrite Hl1. auto. }
  destruct (pixelate_spec _ k Hwf1 Hk) as (d2 & Hrun2 & Hl2 & Hd2). simpl in *.
  rewrite Hrun2. f_equal. f_equal.
  apply read_ext; [exact Hl2|].
  intros i Hi. rewrite Hl2, Hl1, Hlen in Hi.
  destruct (idx_decompose w h i Hw Hh Hi) as (Ei & HV & Hc).
  set (X := (i / 4) mod w) in *. set (Y := (i / 4) / w) in *. set (c := i mod 4) in *.
  rewrite Ei, Hd2, Hd1 by assumption.
  unfold target at 1. destruct (c <? 3) eqn:Ec; [|apply Hd1; assumption].
  rewrite Hd1 by (try apply block_origin_valid; assumption).
  unfold target. rewrite Ec, !Z.div_mul by lia. reflexivity.
Qed.

(** *** The canvas *)

(** A box that lies on the bitmap. *)
Definition in_bounds (cv : Canvas) (b : BBox) : Prop :=
  0 <= x0 b /\ x0 b <= x1 b /\ x1 b <= c_width cv
  /\ 0 <= y0 b /\ y0 b <= y1 b /\ y1 b <= c_height cv.

Lemma getImageData_wf (cv : Canvas) (sx sy sw sh : Z) :
  sw <> 0 -> sh <> 0 ->
  exists img, getImageData cv sx sy sw sh = Returns img
              /\ wf_image img /\ width img = Z.abs sw /\ height img = Z.abs sh.
Proof.
  intros Hsw Hsh. unfold getImageData.
  destruct (Z.eqb_spec sw 0) as [?|_]; [contradiction|].
  destruct (Z.eqb_spec sh 0) as [?|_]; [contradiction|]. simpl.
  eexists. split; [reflexivity|]. unfold wf_image. cbn [width height data].
  rewrite length_tabulate. repeat split; lia.
Qed.

(** Reading back, at the same place, an image that fits on the bitmap. *)
Lemma get_put (cv : Canvas) (img : ImageData) (b : BBox) :
  in_bounds cv b -> x0 b < x1 b -> y0 b < y1 b -> wf_image img ->
  width img = x1 b - x0 b -> height img = y1 b - y0 b ->
  getImageData (putImageData cv img (x0 b) (y0 b)) (x0 b) (y0 b)
    (x1 b - x0 b) (y1 b - y0 b) = Returns img.
Proof.
  intros (Hx0 & _ & Hx1 & Hy0 & _ & Hy1) Hx Hy (_ & _ & Hlen) Ew Eh.
  destruct img as [w h d]. simpl in *. subst w h.
  set (w := x1 b - x0 b) in *. set (h := y1 b - y0 b) in *.
  unfold getImageData.
  destruct (Z.eqb_spec w 0) as [?|_]; [lia|].
  destruct (Z.eqb_spec h 0) as [?|_]; [lia|]. simpl.
  rewrite !Z.abs_eq, !Z.min_l by lia. f_equal. f_equal.
  rewrite <- (tabulate_read d), Hlen. apply tabulate_ext. intros i Hi.
  destruct (idx_decompose w h i ltac:(lia) ltac:(lia) Hi) as (Ei & [HX HY] & Hc).
  set (X := (i / 4) mod w) in *. set (Y := (i / 4) / w) in *. set (c := i mod 4) in *.
  set (cw := c_width cv) in *. set (ch := c_height cv) in *.
  unfold canvas_channel. simpl. fold cw ch.
  replace ((0 <=? x0 b + X) && (x0 b + X <? cw) && (0 <=? y0 b + Y) && (y0 b + Y <? ch))
    with true
    by (symmetry; rewrite !andb_true_iff, !Z.leb_le, !Z.ltb_lt; lia).
  assert (Hcw : 0 <= x0 b + X < cw) by lia.
  rewrite read_tabulate by nia.
  destruct (div4 ((y0 b + Y) * cw + (x0 b + X)) c Hc) as [-> ->].
  destruct (divw cw (x0 b + X) (y0 b + Y) Hcw) as [-> ->].
  replace ((x0 b <=? x0 b + X) && (x0 b + X <? x0 b + w)
           && (y0 b <=? y0 b + Y) && (y0 b + Y <? y0 b + h))
    with true
    by (symmetry; rewrite !andb_true_iff, !Z.leb_le, !Z.ltb_lt; lia).
  replace (4 * ((y0 b + Y - y0 b) * w + (x0 b + X - x0 b)) + c) with i
    by (rewrite Ei at 1; unfold idx; lia).
  apply read_tabulate. exact Hi.
Qed.

(** Writing the same image at the same place a second time. *)
Lemma put_put (cv : Canvas) (img : ImageData) (dx dy : Z) :
  putImageData (putImageData cv img dx dy) img dx dy = putImageData cv img dx dy.
Proof.
  unfold putImageData at 1 3. simpl. f_equal.
  apply tabulate_ext. intros i Hi.
  destruct ((dx <=? (i / 4) mod c_width cv) && ((i / 4) mod c_width cv <? dx + width img)
            && (dy <=? i / 4 / c_width cv) && (i / 4 / c_width cv <? dy + height img)) eqn:E.
  - reflexivity.
  - rewrite read_tabulate by exact Hi. simpl. rewrite E. reflexivity.
Qed.

(** The redaction of a box, whatever the box, leaves the bitmap with its
    dimensions and touches no pixel outside the box. *)
Lemma blur_box_returns (k : Z) (b : BBox) (cv : Canvas) :
  1 <= k -> x1 b <> x0 b -> y1 b <> y0 b ->
  exists img0 img,
    getImageData cv (x0 b) (y0 b) (x1 b - x0 b) (y1 b - y0 b) = Returns img0
    /\ wf_image img0
    /\ _pixelate img0 k = Some img
    /\ width img = Z.abs (x1 b - x0 b) /\ height img = Z.abs (y1 b - y0 b)
    /\ wf_image img
    /\ blur_box k b cv = Returns (putImageData cv img (x0 b) (y0 b)).
Proof.
  intros Hk Hx Hy.
  destruct (getImageData_wf cv (x0 b) (y0 b) (x1 b - x0 b) (y1 b - y0 b))
    as (img0 & Hget & Hwf & Ew & Eh); [lia | lia |].
  destruct (pixelate_spec img0 k Hwf Hk) as (d' & Hrun & Hl & _).
  exists img0. eexists. split; [exact Hget|]. split; [exact Hwf|].
  split; [exact Hrun|]. cbn [width height data].
  split; [exact Ew|]. split; [exact Eh|]. split.
  - destruct Hwf as (Hw & Hh & Hlen). unfold wf_image. cbn [width height data].
    rewrite Hl. auto.
  - unfold blur_box. rewrite Hget, Hrun. reflexivity.
Qed.

Lemma blur_box_idempotent (k : Z) (b : BBox) (cv cv1 : Canvas) :
  in_bounds cv b -> 1 <= k ->
  blur_box k b cv = Returns cv1 -> blur_box k b cv1 = Returns cv1.
Proof.
  intros Hb Hk Hrun.
  pose proof Hb as (Hx0 & Hx & Hx1 & Hy0 & Hy & Hy1).
  destruct (decide (x1 b = x0 b \/ y1 b = y0 b)) as [He|Hne].
  { unfold blur_box, getImageData in Hrun.
    replace ((x1 b - x0 b =? 0) || (y1 b - y0 b =? 0)) with true in Hrun;
      [discriminate|].
    symmetry. rewrite orb_true_iff, !Z.eqb_eq. lia. }
  destruct (blur_box_returns k b cv Hk ltac:(lia) ltac:(lia))
    as (img0 & img1 & Hget & Hwf0 & Hpix & Ew & Eh & Hwf1 & Hbox).
  rewrite Hbox in Hrun. injection Hrun as <-.
  rewrite Z.abs_eq in Ew, Eh by lia.
  unfold blur_box.
  rewrite (get_put cv img1 b Hb ltac:(lia) ltac:(lia) Hwf1 Ew Eh).
  rewrite (pixelate_idempotent img0 img1 k Hwf0 Hk Hpix).
  rewrite put_put. reflexivity.
Qed.

(** *** [blurRegions] *)

(** A box of zero width or zero height. *)
Definition empty_box (box : NLP.RedactionBox) : bool :=
  (x1 (NLP.b_bbox box) =? x0 (NLP.b_bbox box))
  || (y1 (NLP.b_bbox box) =? y0 (NLP.b_bbox box)).

(** A redaction box at [b]. *)
Definition box_at (b : BBox) : NLP.RedactionBox :=
  {| NLP.b_bbox := b; NLP.b_type := NLP.person; NLP.b_text := [];
     NLP.b_confidence := 90%float |}.

Lemma blur_box_empty (k : Z) (b : BBox) (cv : Canvas) :
  (x1 b =? x0 b) || (y1 b =? y0 b) = true -> blur_box k b cv = Throws IndexSizeError.
Proof.
  intros He. unfold blur_box, getImageData.
  replace ((x1 b - x0 b =? 0) || (y1 b - y0 b =? 0)) with true; [reflexivity|].
  symmetry. apply orb_true_iff. apply orb_true_iff in He.
  rewrite !Z.eqb_eq in *. lia.
Qed.

(** On an initialised canvas the loop stops at the first empty box, with
    the canvas's [IndexSizeError], and otherwise runs to its end; the
    bitmap keeps its dimensions. *)
Lemma for_each_blur (k : Z) (boxes : list NLP.RedactionBox) (cv : Canvas) :
  1 <= k ->
  exists cv',
    for_each (blur_one k) boxes {| canvas := Some cv |}
    = (if existsb empty_box boxes then Throws IndexSizeError else Returns tt,
       {| canvas := Some cv' |})
    /\ c_width cv' = c_width cv /\ c_height cv' = c_height cv.
Proof.
  intros Hk. revert cv. induction boxes as [|box boxes IH]; intros cv.
  - exists cv. auto.
  - cbn [for_each existsb]. unfold bind, blur_one at 1. cbn [canvas].
    destruct (empty_box box) eqn:He.
    + rewrite blur_box_empty by exact He. exists cv. auto.
    + unfold empty_box in He. apply orb_false_iff in He as [Hx Hy].
      apply Z.eqb_neq in Hx, Hy.
      destruct (blur_box_returns k (NLP.b_bbox box) cv Hk Hx Hy)
        as (img0 & img & _ & _ & _ & _ & _ & _ & ->).
      destruct (IH (putImageData cv img (x0 (NLP.b_bbox box)) (y0 (NLP.b_bbox box))))
        as (cv' & -> & Hw & Hh).
      exists cv'. auto.
Qed.

(** The bitmap used in the examples: 4 by 2 pixels, byte [i] holding [i]. *)
Definition cv_4x2 : Canvas :=
  {| c_width := 4; c_height := 2; c_pixels := map Z.of_nat (seq 0 32) |}.

(** C5, as the code has it.  The redactor neither clamps a box nor checks
    it against the image.  With a block size of at least one, a call on an
    initialised canvas throws exactly when some box has zero width or zero
    height (the canvas's [IndexSizeError]), wherever the boxes lie, and a
    call before [initCanvas] throws; the bitmap keeps its dimensions; and
    the redaction of one box returns the bitmap with the pixelated image
    written back at the box's corner, so that only pixels of the bitmap
    under that image change. *)
Theorem blurRegions_checks_no_bounds
    (svc : ImageService) (boxes : list NLP.RedactionBox) (k : Z) :
  1 <= k ->
  fst (blurRegions boxes k svc)
  = match canvas svc with
    | None => Throws CanvasNotInitialised
    | Some _ => if existsb empty_box boxes then Throws IndexSizeError else Returns tt
    end
  /\ (forall cv, canvas svc = Some cv ->
        exists cv', canvas (snd (blurRegions boxes k svc)) = Some cv'
                    /\ c_width cv' = c_width cv /\ c_height cv' = c_height cv)
  /\ (forall cv b, x1 b <> x0 b -> y1 b <> y0 b ->
        exists img,
          blur_box k b cv = Returns (putImageData cv img (x0 b) (y0 b))
          /\ width img = Z.abs (x1 b - x0 b) /\ height img = Z.abs (y1 b - y0 b)
          /\ forall X Y c,
               0 <= X < c_width cv -> 0 <= Y < c_height cv -> 0 <= c < 4 ->
               ~ (x0 b <= X < x0 b + width img /\ y0 b <= Y < y0 b + height img) ->
               canvas_channel (putImageData cv img (x0 b) (y0 b)) X Y c
               = read (c_pixels cv) (4 * (Y * c_width cv + X) + c)).
Proof.
  intros Hk. split; [|split].
  - unfold blurRegions. destruct svc as [[cv|]]; cbn [canvas]; [|reflexivity].
    destruct (for_each_blur k boxes cv Hk) as (cv' & -> & _). reflexivity.
  - intros cv Hcv. unfold blurRegions. destruct svc as [c]. cbn [canvas] in *. subst c.
    destruct (for_each_blur k boxes cv Hk) as (cv' & -> & Hw & Hh).
    exists cv'. auto.
  - intros cv b Hx Hy.
    destruct (blur_box_returns k b cv Hk Hx Hy)
      as (img0 & img & _ & _ & _ & Ew & Eh & _ & Hbox).
    exists img. split; [exact Hbox|]. split; [exact Ew|]. split; [exact Eh|].
    intros X Y c HX HY Hc Hout.
    unfold canvas_channel. cbn [c_width c_height c_pixels putImageData].
    replace ((0 <=? X) && (X <? c_width cv) && (0 <=? Y) && (Y <? c_height cv))
      with true
      by (symmetry; rewrite !andb_true_iff, !Z.leb_le, !Z.ltb_lt; lia).
    rewrite read_tabulate by nia.
    destruct (div4 (Y * c_width cv + X) c Hc) as [-> ->].
    destruct (divw (c_width cv) X Y HX) as [-> ->].
    replace ((x0 b <=? X) && (X <? x0 b + width img)
             && (y0 b <=? Y) && (Y <? y0 b + height img)) with false; [reflexivity|].
    symmetry. apply not_true_is_false. intros Hin. apply Hout.
    rewrite !andb_true_iff, !Z.leb_le, !Z.ltb_lt in Hin. lia.
Qed.

Lemma blurRegions_checks_no_bounds_witness :
  fst (blurRegions [box_at (mkBBox 2 0 6 2)] 3 {| canvas := Some cv_4x2 |}) = Returns tt.
Proof.
  apply (blurRegions_checks_no_bounds {| canvas := Some cv_4x2 |}
           [box_at (mkBBox 2 0 6 2)] 3).
  lia.
Defined.

(** C5, as the specification has it, fails.  The box from (2, 0) to (6, 2)
    leaves the 4 by 2 bitmap on the right: the call returns without an
    error, and the two columns of the box that lie on the bitmap have been
    pixelated.  The box from (-1, 0) to (2, 2) leaves it on the left: the
    call returns without an error, and the first column has taken the
    transparent black that the canvas reads outside the bitmap, which is
    not what the redaction of the clamped box, from (0, 0) to (2, 2),
    gives.  The box from (10, 10) to (12, 12) lies wholly outside: the call
    returns without an error and changes nothing. *)
Lemma out_of_bounds_box_is_clipped_silently :
  let svc := {| canvas := Some cv_4x2 |} in
  let result (pixels : list Z) :=
    (Returns tt,
     {| canvas := Some {| c_width := 4; c_height := 2; c_pixels := pixels |} |}) in
  blurRegions [box_at (mkBBox 2 0 6 2)] 3 svc
  = result [0; 1; 2; 3; 4; 5; 6; 7; 8; 9; 10; 11; 8; 9; 10; 15;
            16; 17; 18; 19; 20; 21; 22; 23; 8; 9; 10; 27; 8; 9; 10; 31]
  /\ blurRegions [box_at (mkBBox (-1) 0 2 2)] 2 svc
     = result [0; 0; 0; 3; 4; 5; 6; 7; 8; 9; 10; 11; 12; 13; 14; 15;
               0; 0; 0; 19; 4; 5; 6; 23; 24; 25; 26; 27; 28; 29; 30; 31]
  /\ blurRegions [box_at (mkBBox 0 0 2 2)] 2 svc
     = result [0; 1; 2; 3; 0; 1; 2; 7; 8; 9; 10; 11; 12; 13; 14; 15;
               0; 1; 2; 19; 0; 1; 2; 23; 24; 25; 26; 27; 28; 29; 30; 31]
  /\ blurRegions [box_at (mkBBox 10 10 12 12)] 2 svc = (Returns tt, svc).
Proof. repeat split; vm_compute; reflexivity. Qed.

(** C6.  For a box that lies on the bitmap and a block size from 1 to 50:
    redacting the box a second time, in a second call or as a second box of
    the same call, leaves the service, and with it every byte of the
    bitmap, as the first redaction left it; when the box is not empty both
    redactions return; and [_pixelate] applied to the image it returned
    returns the same image. *)
Theorem redaction_idempotent (cv : Canvas) (b : BBox) (k : Z) :
  in_bounds cv b -> 1 <= k <= 50 ->
  let svc := {| canvas := Some cv |} in
  let once := blurRegions [box_at b] k svc in
  snd (blurRegions [box_at b] k (snd once)) = snd once
  /\ snd (blurRegions [box_at b; box_at b] k svc) = snd once
  /\ (x0 b < x1 b -> y0 b < y1 b ->
      fst once = Returns tt
      /\ fst (blurRegions [box_at b] k (snd once)) = Returns tt
      /\ fst (blurRegions [box_at b; box_at b] k svc) = Returns tt)
  /\ (forall img img1, wf_image img ->
        _pixelate img k = Some img1 -> _pixelate img1 k = Some img1).
Proof.
  intros Hb [Hk _] svc once.
  assert (Hpix : forall img img1, wf_image img ->
                   _pixelate img k = Some img1 -> _pixelate img1 k = Some img1)
    by (intros img img1 Hwf; apply pixelate_idempotent; assumption).
  pose proof Hb as (Hx0 & Hx & Hx1 & Hy0 & Hy & Hy1).
  assert (Hrun : forall c o c',
             blur_box k b c = o ->
             (match o with Returns c1 => c' = c1 | _ => c' = c end) ->
             blurRegions [box_at b] k {| canvas := Some c |}
             = (match o with
                | Returns _ => Returns tt
                | Throws e => Throws e
                | Hangs => Hangs
                end, {| canvas := Some c' |})).
  { intros c o c' Ho Hc'. unfold blurRegions, for_each, bind, blur_one, ret.
    cbn [canvas box_at NLP.b_bbox]. rewrite Ho. destruct o; subst c'; reflexivity. }
  assert (Hrun2 : forall c c1 o c',
             blur_box k b c = Returns c1 -> blur_box k b c1 = o ->
             (match o with Returns c2 => c' = c2 | _ => c' = c1 end) ->
             blurRegions [box_at b; box_at b] k {| canvas := Some c |}
             = (match o with
                | Returns _ => Returns tt
                | Throws e => Throws e
                | Hangs => Hangs
                end, {| canvas := Some c' |})).
  { intros c c1 o c' Hc1 Ho Hc'. unfold blurRegions, for_each, bind, blur_one, ret.
    cbn [canvas box_at NLP.b_bbox]. rewrite Hc1. cbn [canvas]. rewrite Ho.
    destruct o; subst c'; reflexivity. }
  unfold once, svc.
  destruct (decide (x1 b = x0 b \/ y1 b = y0 b)) as [He|Hne].
  - assert (Hbox : blur_box k b cv = Throws IndexSizeError)
      by (apply blur_box_empty; rewrite orb_true_iff, !Z.eqb_eq; exact He).
    rewrite (Hrun cv _ cv Hbox eq_refl). cbn [snd].
    rewrite (Hrun cv _ cv Hbox eq_refl). cbn [snd].
    split; [reflexivity|]. split; [|split; [lia | exact Hpix]].
    unfold blurRegions, for_each, bind, blur_one, ret.
    cbn [canvas box_at NLP.b_bbox]. rewrite Hbox. reflexivity.
  - destruct (blur_box_returns k b cv Hk ltac:(lia) ltac:(lia))
      as (img0 & img1 & _ & _ & _ & _ & _ & _ & Hbox).
    set (cv1 := putImageData cv img1 (x0 b) (y0 b)) in *.
    pose proof (blur_box_idempotent k b cv cv1 Hb Hk Hbox) as Hbox1.
    rewrite (Hrun cv _ cv1 Hbox eq_refl). cbn [snd fst].
    rewrite (Hrun cv1 _ cv1 Hbox1 eq_refl). cbn [snd fst].
    rewrite (Hrun2 cv cv1 _ cv1 Hbox Hbox1 eq_refl). cbn [snd fst].
    split; [reflexivity|]. split; [reflexivity|]. split; [|exact Hpix].
    intros _ _. repeat split.
Qed.

Lemma redaction_idempotent_witness :
  let cv := cv_4x2 in
  let b := mkBBox 1 0 4 2 in
  let k := 2 in
  let svc := {| canvas := Some cv |} in
  let once := blurRegions [box_at b] k svc in
  snd (blurRegions [box_at b] k (snd once)) = snd once
  /\ snd (blurRegions [box_at b; box_at b] k svc) = snd once
  /\ (x0 b < x1 b -> y0 b < y1 b ->
      fst once = Returns tt
      /\ fst (blurRegions [box_at b] k (snd once)) = Returns tt
      /\ fst (blurRegions [box_at b; box_at b] k svc) = Returns tt)
  /\ (forall img img1, wf_image img ->
        _pixelate img k = Some img1 -> _pixelate img1 k = Some img1).
Proof.
  intros cv b k.
  assert (Hb : in_bounds cv b) by (unfold in_bounds, cv, b; simpl; lia).
  assert (Hk : 1 <= k <= 50) by (unfold k; lia).
  exact (redaction_idempotent cv b k Hb Hk).
Defined.

End ImageFacts.

(** ** The orchestrator *)

Module EngineFacts.
Import JS OCR Eff Image Analyze Engine.

(** *** What a computation adds to the emitted events *)

(** Whatever the outcome, [m] only appends events, and all of them
    satisfy [P]. *)
Definition appends {A : Type} (P : event -> Prop) (m : eff EngineState A) : Prop :=
  forall st, exists l, emitted (snd (m st)) = emitted st ++ l /\ Forall P l.

Section Appends.
Variable P : event -> Prop.

Lemma appends_silent {A : Type} (m : eff EngineState A) :
  (forall st, emitted (snd (m st)) = emitted st) -> appends P m.
Proof.
  intros Hm st. exists []. rewrite app_nil_r. split; [apply Hm | constructor].
Qed.

Lemma appends_ret {A : Type} (a : A) : appends P (ret a).
Proof. apply appends_silent. reflexivity. Qed.

Lemma appends_throw {A : Type} (e : exn) : appends P (@throw EngineState A e).
Proof. apply appends_silent. reflexivity. Qed.

Lemma appends_get : appends P get.
Proof. apply appends_silent. reflexivity. Qed.

Lemma appends_await {A : Type} (o : outcome A) : appends P (await o).
Proof. apply appends_silent. reflexivity. Qed.

Lemma appends_set_isProcessing (b : bool) : appends P (set_isProcessing b).
Proof. apply appends_silent. reflexivity. Qed.

Lemma appends_on_imageService {A : Type} (m : eff ImageService A) :
  appends P (on_imageService m).
Proof.
  apply appends_silent. intros st. unfold on_imageService.
  destruct (m (imageService st)). reflexivity.
Qed.

Lemma appends_on_nlpProcessor {A : Type} (m : eff NLP.NLPProcessor A) :
  appends P (on_nlpProcessor m).
Proof.
  apply appends_silent. intros st. unfold on_nlpProcessor.
  destruct (m (nlpProcessor st)). reflexivity.
Qed.

Lemma appends_emit (e : event) : P e -> appends P (emit e).
Proof. intros He st. exists [e]. split; [reflexivity | repeat constructor; exact He]. Qed.

Lemma appends_emitProgress (s : step) (p : float) :
  P (Progress s p) -> appends P (_emitProgress s p).
Proof. intros He st. exists [Progress s p]. split; [reflexivity | repeat constructor; exact He]. Qed.

Lemma appends_bind {A B : Type} (m : eff EngineState A) (k : A -> eff EngineState B) :
  appends P m -> (forall a, appends P (k a)) -> appends P (Eff.bind m k).
Proof.
  intros Hm Hk st. unfold Eff.bind.
  destruct (Hm st) as (l1 & E1 & F1).
  destruct (m st) as [[a|e|] st1]; simpl in E1.
  - destruct (Hk a st1) as (l2 & E2 & F2).
    exists (l1 ++ l2). rewrite E2, E1, app_assoc. split; [reflexivity|].
    apply Forall_app; auto.
  - exists l1. auto.
  - exists l1. auto.
Qed.

Lemma appends_if {A : Type} (b : bool) (m1 m2 : eff EngineState A) :
  appends P m1 -> appends P m2 -> appends P (if b then m1 else m2).
Proof. destruct b; auto. Qed.

Lemma appends_emitComplete (r : ProcessResult) :
  P (Completed r) -> appends P (_emitComplete r).
Proof.
  intros Hr. unfold _emitComplete.
  apply appends_bind; [apply appends_set_isProcessing | intros _; apply appends_emit, Hr].
Qed.

Lemma appends_emitError (e : exn) : P (Failed e) -> appends P (_emitError e).
Proof.
  intros He. unfold _emitError.
  apply appends_bind; [apply appends_set_isProcessing | intros _; apply appends_emit, He].
Qed.

Lemma appends_try {A : Type} (body : eff EngineState A)
    (handler : exn -> eff EngineState A) (final : eff EngineState unit) :
  appends P body -> (forall e, appends P (handler e)) -> appends P final ->
  appends P (try_catch_finally body handler final).
Proof.
  intros Hb Hh Hf st. unfold try_catch_finally.
  destruct (Hb st) as (l1 & E1 & F1).
  assert (Hmid : exists o s1 l,
             (match body st with
              | (Throws e, s') => handler e s'
              | r => r
              end) = (o, s1)
             /\ emitted s1 = emitted st ++ l /\ Forall P l).
  { destruct (body st) as [[a|e|] s'] eqn:Eb; simpl in E1.
    - exists (Returns a), s', l1. auto.
    - destruct (Hh e s') as (l2 & E2 & F2).
      destruct (handler e s') as [o s1] eqn:Eh. simpl in E2.
      exists o, s1, (l1 ++ l2). split; [reflexivity|].
      rewrite E2, E1, app_assoc. split; [reflexivity | apply Forall_app; auto].
    - exists Hangs, s', l1. auto. }
  destruct Hmid as (o & s1 & l & -> & E & F).
  destruct (Hf s1) as (l3 & E3 & F3).
  assert (Hall : Forall P (l ++ l3)) by (apply Forall_app; auto).
  assert (E' : emitted (snd (final s1)) = emitted st ++ (l ++ l3))
    by (rewrite E3, E, app_assoc; reflexivity).
  destruct o as [a|e|].
  - destruct (final s1) as [[[]|e'|] s2]; simpl in *; eauto.
  - destruct (final s1) as [[[]|e'|] s2]; simpl in *; eauto.
  - exists l. auto.
Qed.

End Appends.

(** *** The stages of [processFile] *)

(** The steps of the anonymisation stage. *)
Definition anonymisation_step (s : step) : bool :=
  match s with
  | nlp_analysis | nlp_complete | blur_start | blur_complete | blur_skip => true
  | _ => false
  end.

(** An event that is neither a progress event of the anonymisation stage
    nor a call of the region redactor. *)
Definition outside_anonymisation (e : event) : Prop :=
  match e with
  | Progress s _ => anonymisation_step s = false
  | CalledBlurRegions _ _ => False
  | _ => True
  end.

Definition is_blur_skip (e : event) : bool :=
  match e with
  | Progress blur_skip _ => true
  | _ => false
  end.

Definition is_blur_call (e : event) : bool :=
  match e with
  | CalledBlurRegions _ _ => true
  | _ => false
  end.

Lemma outside_not_blur (l : list event) :
  Forall outside_anonymisation l ->
  List.filter is_blur_skip l = [] /\ List.filter is_blur_call l = [].
Proof.
  induction 1 as [|e l He _ [IH1 IH2]]; [split; reflexivity|].
  simpl. rewrite IH1, IH2.
  destruct e as [[] p| | | |]; simpl in *; try discriminate; try contradiction;
    split; reflexivity.
Qed.

Lemma try_congr {S A : Type} (body body' : eff S A) (handler : exn -> eff S A)
    (final : eff S unit) (s s' : S) :
  body s = body' s' ->
  try_catch_finally body handler final s = try_catch_finally body' handler final s'.
Proof. intros E. unfold try_catch_finally. rewrite E. reflexivity. Qed.

Section Pipeline.
Context `{UnicodeTables}.

Lemma extractText_appends (P : event -> Prop) (w : World) :
  (forall p, P (Progress ocr_processing p)) -> appends P (extractText w ocr_callback).
Proof.
  intros HP st. unfold extractText. destruct (w_recognize w) as [result|e|].
  - apply (appends_bind P); [apply appends_emitProgress, HP | intros _; apply appends_ret].
  - exists []. rewrite app_nil_r. split; [reflexivity | constructor].
  - exists []. rewrite app_nil_r. split; [reflexivity | constructor].
Qed.

Lemma ocr_stage_appends (w : World) (file : File) :
  appends outside_anonymisation (ocr_stage w file).
Proof.
  unfold ocr_stage.
  apply appends_bind; [apply appends_emitProgress; reflexivity | intros _].
  apply appends_if; [apply appends_throw|].
  apply appends_bind; [apply appends_emitProgress; reflexivity | intros _].
  apply appends_bind.
  { unfold load_and_init. apply appends_bind; [apply appends_await | intros bitmap].
    apply appends_on_imageService. }
  intros _.
  apply appends_bind; [apply appends_emitProgress; reflexivity | intros _].
  apply appends_bind; [apply extractText_appends; reflexivity | intros ocrResult].
  apply appends_bind; [apply appends_emitProgress; reflexivity | intros _].
  apply appends_ret.
Qed.

Lemma finish_appends (w : World) (options : Options) (nlpResult : option NLP.NlpResult) :
  appends outside_anonymisation (finish w options nlpResult).
Proof.
  unfold finish.
  apply appends_bind; [apply appends_get | intros st].
  apply appends_bind.
  { apply appends_if; [|apply appends_ret].
    apply appends_bind; [apply appends_emitProgress; reflexivity | intros _].
    apply appends_bind; [apply appends_emit; exact I | intros _].
    apply appends_on_imageService. }
  intros _.
  apply appends_bind; [apply appends_emitProgress; reflexivity | intros _].
  apply appends_bind; [apply appends_await | intros _].
  apply appends_bind; [apply appends_emitProgress; reflexivity | intros _].
  apply appends_bind; [apply appends_await | intros _].
  apply appends_bind; [apply appends_emitComplete; exact I | intros _].
  apply appends_ret.
Qed.

Lemma handler_appends (e : exn) :
  appends outside_anonymisation
    (Eff.bind (_emitError e) (fun _ => @throw EngineState ProcessResult e)).
Proof.
  apply appends_bind; [apply appends_emitError; exact I | intros _; apply appends_throw].
Qed.

(** Without [anonymize], no event of the run belongs to the anonymisation
    stage. *)
Lemma processFile_without_anonymize (w : World) (file : File) (options : Options) :
  anonymize options = false ->
  appends outside_anonymisation (processFile w file options).
Proof.
  intros Hoff. unfold processFile.
  apply appends_try; [| apply handler_appends | apply appends_on_imageService].
  unfold process_body.
  apply appends_bind; [apply appends_set_isProcessing | intros _].
  apply appends_bind; [apply ocr_stage_appends | intros ocrResult].
  apply appends_if.
  - apply appends_bind; [apply appends_emitComplete; exact I | intros _; apply appends_ret].
  - apply appends_bind; [|intros nlpResult; apply finish_appends].
    unfold anonymisation. rewrite Hoff. apply appends_ret.
Qed.

(** The state a stage leaves: [st] with a processor, a step, a progress
    value, and further events. *)
Definition advance (st : EngineState) (svc : ImageService) (np : NLP.NLPProcessor)
    (processing : bool) (s : step) (p : float) (l : list event) : EngineState :=
  {| imageService := svc; nlpProcessor := np;
     licenseStatus := licenseStatus st; currentStep := Some s;
     progress := p; isProcessing := processing;
     emitted := emitted st ++ l |}.

(** With a supported file, an image that loads and a text that is read,
    steps 1 to 3 emit their five events, the second to last being the one
    progress report of the OCR service. *)
Lemma ocr_stage_returns (w : World) (file : File) (st : EngineState)
    (cv : Canvas) (ocrResult : OcrResult) :
  negb (NLP.starts_with (_detectMimeType file) (lit "image/"))
  && negb (str_eqb (_detectMimeType file) (lit "application/pdf")) = false ->
  w_loadImage w = Returns cv ->
  w_recognize w = Returns ocrResult ->
  ocr_stage w file st
  = (Returns ocrResult,
     advance st {| canvas := Some cv |} (nlpProcessor st) (isProcessing st)
       ocr_complete 0.6%float
       [ Progress mime_detection 0.1%float; Progress image_load 0.15%float;
         Progress ocr_start 0.2%float;
         Progress ocr_processing (0.2 + 1 * 0.4)%float;
         Progress ocr_complete 0.6%float ]).
Proof.
  intros Hmime Hload Hocr.
  unfold ocr_stage. rewrite Hmime.
  unfold load_and_init, extractText, ocr_callback. rewrite Hload, Hocr.
  cbv beta iota zeta delta
    [Eff.bind _emitProgress emit await on_imageService ret advance
     imageService nlpProcessor licenseStatus currentStep progress isProcessing emitted].
  rewrite <- !app_assoc. reflexivity.
Qed.

(** When the analysis reports no target, the anonymisation stage emits
    [nlp_analysis], [nlp_complete] and [blur_skip], and leaves the image
    service as it found it. *)
Lemma anonymisation_skips (w : World) (options : Options) (ocrResult : OcrResult)
    (st : EngineState) (r : NLP.NlpResult) (np : NLP.NLPProcessor) :
  anonymize options = true ->
  analyze (w_nlp w) (o_text ocrResult) (nlpProcessor st) = (Returns r, np) ->
  match NLP.total r with Some t => 0 <? t | None => false end = false ->
  anonymisation w options ocrResult st
  = (Returns (Some r),
     advance st (imageService st) np (isProcessing st) blur_skip 0.8%float
       [ Progress nlp_analysis 0.65%float; Progress nlp_complete 0.7%float;
         Progress blur_skip 0.8%float ]).
Proof.
  intros Hon Hr Hzero.
  unfold anonymisation. rewrite Hon.
  destruct st as [svc np0 lic cs pr ip em].
  cbn [nlpProcessor] in Hr.
  cbv beta iota zeta delta
    [Eff.bind _emitProgress emit ret advance on_nlpProcessor
     imageService nlpProcessor licenseStatus currentStep progress isProcessing emitted].
  rewrite Hr.
  cbv beta iota zeta.
  rewrite Hzero.
  cbv beta iota zeta delta
    [Eff.bind _emitProgress emit ret advance
     imageService nlpProcessor licenseStatus currentStep progress isProcessing emitted].
  rewrite <- !app_assoc. reflexivity.
Qed.

Lemma anonymisation_appends_any (w : World) (options : Options) (ocrResult : OcrResult) :
  appends (fun _ => True) (anonymisation w options ocrResult).
Proof.
  unfold anonymisation. apply appends_if; [|apply appends_ret].
  apply appends_bind; [apply appends_emitProgress; exact I | intros _].
  apply appends_bind; [apply appends_on_nlpProcessor | intros nlpResult].
  apply appends_bind; [apply appends_emitProgress; exact I | intros _].
  apply appends_bind; [|intros _; apply appends_ret].
  apply appends_if; [|apply appends_emitProgress; exact I].
  apply appends_bind; [apply appends_emitProgress; exact I | intros _].
  apply appends_bind; [apply appends_emit; exact I | intros _].
  apply appends_bind; [apply appends_on_imageService | intros _].
  apply appends_emitProgress; exact I.
Qed.

Lemma appends_weaken {A : Type} (P Q : event -> Prop) (m : eff EngineState A) :
  (forall e, P e -> Q e) -> appends P m -> appends Q m.
Proof.
  intros HPQ Hm st. destruct (Hm st) as (l & E & F).
  exists l. split; [exact E | eapply Forall_impl; eauto].
Qed.

(** The events of steps 1 to 3. *)
Definition ocr_events : list event :=
  [ Progress mime_detection 0.1%float; Progress image_load 0.15%float;
    Progress ocr_start 0.2%float;
    Progress ocr_processing (0.2 + 1 * 0.4)%float;
    Progress ocr_complete 0.6%float ].

(** A run that gets through steps 1 to 3 emits their five events first. *)
Lemma processFile_ocr_events (w : World) (file : File) (options : Options)
    (st : EngineState) (cv : Canvas) (ocrResult : OcrResult) :
  negb (NLP.starts_with (_detectMimeType file) (lit "image/"))
  && negb (str_eqb (_detectMimeType file) (lit "application/pdf")) = false ->
  w_loadImage w = Returns cv ->
  w_recognize w = Returns ocrResult ->
  exists l, emitted (snd (processFile w file options st)) = emitted st ++ ocr_events ++ l.
Proof.
  intros Hmime Hload Hocr.
  set (st_a := snd (set_isProcessing true st)).
  set (st1 := advance st_a {| canvas := Some cv |} (nlpProcessor st_a) (isProcessing st_a)
                ocr_complete 0.6%float ocr_events).
  set (rest := if extractTextOnly options
               then Eff.bind (_emitComplete (TextExtraction (o_text ocrResult)))
                             (fun _ => ret TextFile)
               else Eff.bind (anonymisation w options ocrResult) (finish w options)).
  assert (Hbody : process_body w file options st = rest st1).
  { unfold process_body. unfold Eff.bind at 1.
    change (set_isProcessing true st) with (Returns tt, st_a). cbv beta iota.
    unfold Eff.bind at 1.
    rewrite (ocr_stage_returns w file st_a cv ocrResult Hmime Hload Hocr).
    reflexivity. }
  unfold processFile.
  rewrite (try_congr _ rest _ _ st st1 Hbody).
  assert (Hrest : appends (fun _ => True) rest).
  { unfold rest. apply appends_if.
    - apply appends_bind; [apply appends_emitComplete; exact I | intros _; apply appends_ret].
    - apply appends_bind; [apply anonymisation_appends_any | intros nlpResult].
      eapply appends_weaken; [|apply finish_appends]. auto. }
  destruct (appends_try (fun _ => True) rest _ _ Hrest
              (fun e => appends_weaken _ _ _ (fun _ _ => I) (handler_appends e))
              (appends_on_imageService _ destroy) st1) as (l & E & _).
  exists l. rewrite E. unfold st1, advance. cbn [emitted].
  rewrite <- app_assoc. reflexivity.
Qed.

(** With [anonymize], and an analysis that reports no target, the run
    emits one [blur_skip] and never calls the redactor. *)
Lemma processFile_skips (w : World) (file : File) (options : Options)
    (st : EngineState) (cv : Canvas) (ocrResult : OcrResult)
    (r : NLP.NlpResult) (np : NLP.NLPProcessor) :
  anonymize options = true -> extractTextOnly options = false ->
  negb (NLP.starts_with (_detectMimeType file) (lit "image/"))
  && negb (str_eqb (_detectMimeType file) (lit "application/pdf")) = false ->
  w_loadImage w = Returns cv ->
  w_recognize w = Returns ocrResult ->
  analyze (w_nlp w) (o_text ocrResult) (nlpProcessor st) = (Returns r, np) ->
  match NLP.total r with Some t => 0 <? t | None => false end = false ->
  exists l,
    emitted (snd (processFile w file options st)) = emitted st ++ l
    /\ List.length (List.filter is_blur_skip l) = 1%nat
    /\ List.filter is_blur_call l = [].
Proof.
  intros Hon Hext Hmime Hload Hocr Hr Hzero.
  set (st_a := snd (set_isProcessing true st)).
  set (st1 := advance st_a {| canvas := Some cv |} (nlpProcessor st_a) (isProcessing st_a)
                ocr_complete 0.6%float ocr_events).
  set (skip_events := [ Progress nlp_analysis 0.65%float; Progress nlp_complete 0.7%float;
                        Progress blur_skip 0.8%float ]).
  set (st2 := advance st1 (imageService st1) np (isProcessing st1) blur_skip 0.8%float
                skip_events).
  assert (Hbody : process_body w file options st = finish w options (Some r) st2).
  { unfold process_body. unfold Eff.bind at 1.
    change (set_isProcessing true st) with (Returns tt, st_a). cbv beta iota.
    unfold Eff.bind at 1.
    rewrite (ocr_stage_returns w file st_a cv ocrResult Hmime Hload Hocr).
    rewrite Hext. unfold Eff.bind at 1. fold ocr_events. fold st1.
    rewrite (anonymisation_skips w options ocrResult st1 r np Hon Hr Hzero).
    reflexivity. }
  unfold processFile.
  rewrite (try_congr _ (finish w options (Some r)) _ _ st st2 Hbody).
  destruct (appends_try outside_anonymisation (finish w options (Some r)) _ _
              (finish_appends w options (Some r)) handler_appends
              (appends_on_imageService _ destroy) st2) as (l & E & F).
  destruct (outside_not_blur l F) as [Fs Fc].
  exists (ocr_events ++ skip_events ++ l). split; [|split].
  - rewrite E. unfold st2, st1, advance. cbn [emitted].
    rewrite <- !app_assoc. reflexivity.
  - rewrite !filter_app, Fs. reflexivity.
  - rewrite !filter_app, Fc. reflexivity.
Qed.

End Pipeline.

(** *** A run on a one-line document *)

(** An image of 40 by 10 pixels, all bytes 255. *)
Definition demo_canvas : Canvas :=
  {| c_width := 40; c_height := 10; c_pixels := replicate 1600 255 |}.

(** The text "tel 0612345678" in two words. *)
Definition demo_ocr : OcrResult :=
  {| o_text := lit "tel 0612345678";
     o_confidence := 90%float;
     o_words := [ {| w_text := lit "tel"; w_confidence := 90%float;
                     w_bbox := {| x0 := 1; y0 := 1; x1 := 10; y1 := 9 |} |};
                  {| w_text := lit "0612345678"; w_confidence := 90%float;
                     w_bbox := {| x0 := 12; y0 := 1; x1 := 39; y1 := 9 |} |} ] |}.

(** Every collaborator succeeds; Compromise finds no named entity. *)
Definition demo_world (ocrResult : OcrResult) : World :=
  {| w_loadImage := Returns demo_canvas;
     w_recognize := Returns ocrResult;
     w_nlp := Some (fun _ => {| people := []; places := []; organizations := [] |});
     w_watermark := fun cv => cv;
     w_exportFile := Returns tt;
     w_exportThumbnail := Returns tt |}.

Definition demo_file : File := {| f_type := lit "image/png"; f_ext := lit "png" |}.

Definition anonymize_on : Options :=
  {| anonymize := true; blurIntensity := 20; extractTextOnly := false |}.

(** C7.  In the run on the one-line document, with [anonymize], one target
    found (the telephone number) and every collaborator succeeding, the
    progress values are those listed: the report of the OCR service is
    [0.2 + 1 * 0.4], which in binary64 arithmetic is above the [0.6] of the
    [ocr_complete] event that follows it, so the sequence decreases there;
    the last progress event is [complete] with 1.  The same five events
    open every run that gets through the OCR stage. *)
Theorem progress_decreases_after_ocr :
  (let outcome := @processFile Latin1.tables (demo_world demo_ocr) demo_file anonymize_on
                    (constructor None) in
   fst outcome = Returns (Result 1 true)
   /\ progress_events (emitted (snd outcome))
      = [ (mime_detection, 0.1); (image_load, 0.15); (ocr_start, 0.2);
          (ocr_processing, 0.2 + 1 * 0.4); (ocr_complete, 0.6);
          (nlp_analysis, 0.65); (nlp_complete, 0.7);
          (blur_start, 0.75); (blur_complete, 0.85);
          (watermark, 0.9); (export, 0.95); (complete, 1.0) ]%float)
  /\ (0.6 <? 0.2 + 1 * 0.4)%float = true
  /\ (forall (U : UnicodeTables) w file options st cv ocrResult,
        negb (NLP.starts_with (_detectMimeType file) (lit "image/"))
        && negb (str_eqb (_detectMimeType file) (lit "application/pdf")) = false ->
        w_loadImage w = Returns cv ->
        w_recognize w = Returns ocrResult ->
        exists l, emitted (snd (processFile w file options st))
                  = emitted st ++ ocr_events ++ l).
Proof.
  split; [|split].
  - vm_compute. split; reflexivity.
  - reflexivity.
  - intros U. apply processFile_ocr_events.
Qed.

(** C8.  Without [anonymize], a run emits no progress event of the
    anonymisation stage ([nlp_analysis], [nlp_complete], [blur_start],
    [blur_complete], [blur_skip]) and never calls the region redactor.
    With [anonymize], when the analysis reports no target, the run emits
    exactly one [blur_skip] and never calls the region redactor, and the
    anonymisation stage leaves the image service, and so the bitmap, as it
    found it. *)
Theorem skip_paths (U : UnicodeTables) (w : World) (file : File) (options : Options)
    (st : EngineState) :
  (anonymize options = false ->
   exists l, emitted (snd (processFile w file options st)) = emitted st ++ l
             /\ Forall outside_anonymisation l)
  /\ (forall cv ocrResult r np,
        anonymize options = true -> extractTextOnly options = false ->
        negb (NLP.starts_with (_detectMimeType file) (lit "image/"))
        && negb (str_eqb (_detectMimeType file) (lit "application/pdf")) = false ->
        w_loadImage w = Returns cv ->
        w_recognize w = Returns ocrResult ->
        analyze (w_nlp w) (o_text ocrResult) (nlpProcessor st) = (Returns r, np) ->
        match NLP.total r with Some t => 0 <? t | None => false end = false ->
        (exists l,
            emitted (snd (processFile w file options st)) = emitted st ++ l
            /\ List.length (List.filter is_blur_skip l) = 1%nat
            /\ List.filter is_blur_call l = [])
        /\ (forall st',
              nlpProcessor st' = nlpProcessor st ->
              imageService (snd (anonymisation w options ocrResult st'))
              = imageService st')).
Proof.
  split.
  - intros Hoff. apply processFile_without_anonymize. exact Hoff.
  - intros cv ocrResult r np Hon Hext Hmime Hload Hocr Hr Hzero. split.
    + eapply processFile_skips; eassumption.
    + intros st' Hst'. rewrite <- Hst' in Hr.
      rewrite (anonymisation_skips w options ocrResult st' r np Hon Hr Hzero).
      reflexivity.
Qed.

(** The text "bonjour" in one word: nothing to redact. *)
Definition plain_ocr : OcrResult :=
  {| o_text := lit "bonjour";
     o_confidence := 90%float;
     o_words := [ {| w_text := lit "bonjour"; w_confidence := 90%float;
                     w_bbox := {| x0 := 1; y0 := 1; x1 := 30; y1 := 9 |} |} ] |}.

Lemma skip_paths_witness :
  exists l,
    emitted (snd (@processFile Latin1.tables (demo_world plain_ocr) demo_file anonymize_on
                    (constructor None)))
    = emitted (constructor None) ++ l
    /\ List.length (List.filter is_blur_skip l) = 1%nat
    /\ List.filter is_blur_call l = [].
Proof.
  destruct (skip_paths Latin1.tables (demo_world plain_ocr) demo_file anonymize_on
              (constructor None)) as [_ Hskip].
  destruct (Hskip demo_canvas plain_ocr
              {| NLP.entities := []; NLP.sensitive := []; NLP.total := Some 0 |}
              NLP.constructor) as [Hl _]; try reflexivity.
  exact Hl.
Defined.

End EngineFacts.

Module LicenceFacts.
Import JS Security SecurityFacts Licence.

(** *** The time code of a credential *)

Lemma read_hex_bound (s : jsstring) (seen : bool) (acc m : Z) :
  0 <= acc -> read_hex s seen acc = Num m ->
  0 <= m < (acc + 1) * 16 ^ Z.of_nat (length s).
Proof.
  revert seen acc. induction s as [|c s IH]; intros seen acc Hacc Hm; simpl in Hm.
  - destruct seen; [|discriminate]. injection Hm as <-. simpl. lia.
  - destruct (hex_value c) as [d|] eqn:Ed.
    + assert (Hd : 0 <= d < 16).
      { unfold hex_value, is_digit, in_range in Ed.
        repeat match type of Ed with
               | (if ?b then _ else _) = _ => destruct b eqn:?
               end; try discriminate; injection Ed as <-; lia. }
      apply IH in Hm; [|lia].
      rewrite length_cons, Nat2Z.inj_succ, Z.pow_succ_r by lia. nia.
    + destruct seen; [|discriminate]. injection Hm as <-.
      assert (0 < 16 ^ Z.of_nat (length (c :: s))) by (apply Z.pow_pos_nonneg; lia).
      nia.
Qed.

Lemma key_char_plain (c : Z) :
  is_key_char c = true -> is_space c = false /\ c <> 45 /\ c <> 43.
Proof.
  unfold is_key_char, is_upper, is_digit, is_space, in_range. intros Hc.
  split; [|lia].
  repeat (apply orb_false_iff; split); lia.
Qed.

(** A string that starts with neither white space nor a sign. *)
Lemma parseInt16_plain (a : Z) (s : jsstring) :
  is_space a = false -> a <> 45 -> a <> 43 ->
  parseInt16 (a :: s) = read_hex (strip_0x (a :: s)) false 0.
Proof.
  intros Hs H45 H43. unfold parseInt16. cbn [skip_space]. rewrite Hs.
  assert (E : forall r : number,
             match r with Num z => Num z | NaN => NaN end = r)
    by (intros []; reflexivity).
  destruct a as [|p|p]; try apply E.
  do 6 (destruct p as [p|p|]; try apply E); lia.
Qed.

(** The four characters of a group hold a number below [16 ^ 4], if any. *)
Lemma parseInt16_group (g : jsstring) (m : Z) :
  is_group g -> parseInt16 g = Num m -> 0 <= m < 65536.
Proof.
  intros [Hlen Hg] Hm.
  destruct g as [|a [|b [|c [|d [|? ?]]]]]; try discriminate Hlen.
  simpl in Hg. apply andb_true_iff in Hg as [Ha _].
  destruct (key_char_plain a Ha) as (Hs & H45 & H43).
  rewrite parseInt16_plain in Hm by assumption.
  apply read_hex_bound in Hm; [|lia].
  assert (Hl : (length (strip_0x [a; b; c; d]) <= 4)%nat).
  { unfold strip_0x. destruct a as [|p|p]; try (simpl; lia).
    do 6 (destruct p as [p|p|]; try (simpl; lia)).
    destruct ((b =? 120) || (b =? 88)); simpl; lia. }
  assert (16 ^ Z.of_nat (length (strip_0x [a; b; c; d])) <= 16 ^ 4)
    by (apply Z.pow_le_mono_r; lia).
  change (16 ^ 4) with 65536 in *. lia.
Qed.


(** *** Keys with a readable time code *)

Lemma validate_used_key (now : Z) (key : jsstring) (ls : LocalStorage) :
  In key (get_used_keys ls) -> _validateLicenseKey now key ls = (false, ls).
Proof.
  intros Hin. unfold _validateLicenseKey, time_replay_stage, replay_stage.
  destruct (negb (shape_test key)); [reflexivity|].
  destruct (negb (str_eqb (check_of key) (calculatedCheck key))); [reflexivity|].
  destruct (window_rejects now (timeCodeHex_of key)); [reflexivity|].
  replace (includes_key (get_used_keys ls) key) with true; [reflexivity|].
  symmetry. apply includes_key_In. exact Hin.
Qed.

(** The validator compares the minutes elapsed since 1970 with a time code
    of four characters, which holds at most [0xFFFF]: from minute 65541 on
    (15 February 1970), a key in which [parseInt] reads a number is always
    rejected as expired, so a key that validates is one whose time code
    [parseInt] cannot read. *)
Theorem numeric_time_code_is_expired (now : Z) (key : jsstring) (ls : LocalStorage) :
  65541 * 60000 <= now ->
  fst (_validateLicenseKey now key ls) = true ->
  parseInt16 (timeCodeHex_of key) = NaN.
Proof.
  intros Hnow Hok.
  apply validate_true_inv in Hok as (Hshape & _ & Hwin & _).
  apply shape_test_credential in Hshape
    as (g1 & g2 & g3 & g4 & G1 & G2 & G3 & G4 & ->).
  destruct (check_of_credential g1 g2 g3 g4 G1 G2 G3 G4) as [_ Htc].
  rewrite Htc in *.
  destruct (parseInt16 g2) as [|m] eqn:Em; [reflexivity|]. exfalso.
  pose proof (parseInt16_group g2 m G2 Em) as Hm.
  apply (window_numeric now m g2 Em) in Hwin.
  assert (65541 <= now / 60000) by (apply Z.div_le_lower_bound; lia).
  lia.
Qed.

Lemma numeric_time_code_is_expired_witness :
  parseInt16 (timeCodeHex_of (lit "AAAA-ZZZZ-AAAA-9538")) = NaN.
Proof.
  apply (numeric_time_code_is_expired (65541 * 60000) (lit "AAAA-ZZZZ-AAAA-9538")
           emptyStorage).
  - lia.
  - vm_compute. reflexivity.
Defined.

(** *** Activation, reload, expiry *)

Lemma activate_true_inv (now now' : Z) (key : jsstring) (m : Manager) :
  fst (Security.activateLicense now now' key m) = true ->
  let expiry := now' + 365 * 24 * 60 * 60 * 1000 in
  ~ In key (get_used_keys (storage m))
  /\ snd (Security.activateLicense now now' key m)
     = {| licenseStatus :=
            {| isPro := true; expirationDate := Some expiry;
               maxFilesPerDay := Infinity; remainingFiles := Infinity;
               maxFileSize := Infinity; licenseKey := Some key |};
          storage :=
            set_license {| sl_key := key; sl_expirationDate := expiry; sl_isPro := true |}
              (set_used_keys (get_used_keys (storage m) ++ [key]) (storage m)) |}.
Proof.
  unfold Security.activateLicense.
  pose proof (validate_true_inv now key (storage m)) as Hv.
  destruct (_validateLicenseKey now key (storage m)) as [ok ls].
  destruct ok; [|discriminate]. intros _.
  destruct (Hv eq_refl) as (_ & _ & _ & Hfresh & Hls). simpl in Hls. subst ls.
  split; [exact Hfresh | reflexivity].
Qed.

(** The manager after a successful activation. *)
Definition activated (now' : Z) (key : jsstring) (m : SecurityManager) : SecurityManager :=
  let license := {| sl_key := key;
                    sl_expirationDate := now' + 365 * 24 * 60 * 60 * 1000;
                    sl_isPro := true |} in
  {| status := proStatus license;
     store := {| items := set_license license
                            (set_used_keys (get_used_keys (items (store m)) ++ [key])
                               (items (store m)));
                 localseal_counter := localseal_counter (store m) |} |}.

Lemma activate_ok (now now' : Z) (key : jsstring) (m : SecurityManager) :
  fst (activateLicense now now' key m) = true ->
  snd (activateLicense now now' key m) = activated now' key m.
Proof.
  unfold activateLicense.
  pose proof (activate_true_inv now now' key
                {| licenseStatus := status m; storage := items (store m) |}) as Hact.
  destruct (Security.activateLicense now now' key _) as [ok M'].
  cbn [fst snd] in *. intros ->. destruct (Hact eq_refl) as [_ ->]. reflexivity.
Qed.

(** A successful activation makes the manager Pro, without watermark, with
    an expiry one year after the activation.  After a reload of the page (a
    new manager over the same storage) [checkLicense] finds the licence
    again at any time before the expiry, and finds none from the expiry
    on; the manager that performed the activation keeps its Pro status at
    every later check, expired or not. *)
Theorem activation_survives_reload (now now' t : Z) (today key : jsstring)
    (m : SecurityManager) :
  fst (activateLicense now now' key m) = true ->
  let m' := snd (activateLicense now now' key m) in
  let expiry := now' + 365 * 24 * 60 * 60 * 1000 in
  let pro := {| isPro := true; expirationDate := Some expiry;
                maxFilesPerDay := Infinity; remainingFiles := Infinity;
                maxFileSize := Infinity; licenseKey := Some key |} in
  status m' = pro
  /\ requiresWatermark m' = false
  /\ (t < expiry ->
      checkLicense t today (constructor (store m')) = {| status := pro; store := store m' |})
  /\ (expiry <= t -> isPro (status (checkLicense t today (constructor (store m')))) = false)
  /\ checkLicense t today m' = m'.
Proof.
  intros Hok m' expiry pro. unfold m'. rewrite (activate_ok now now' key m Hok).
  split; [reflexivity|]. split; [reflexivity|].
  unfold checkLicense, constructor, activated.
  cbn [store items localseal_license set_license sl_expirationDate status].
  fold expiry. split; [|split].
  - intros Ht. replace (t <? expiry) with true by (symmetry; apply Z.ltb_lt; exact Ht).
    reflexivity.
  - intros Ht. replace (t <? expiry) with false by (symmetry; apply Z.ltb_ge; exact Ht).
    cbn [status initialStatus isPro negb].
    unfold _updateFileCounter. cbn [store status localseal_counter].
    destruct (localseal_counter (store m)) as [c|]; [|reflexivity].
    destruct (str_eqb (c_date c) today); reflexivity.
  - destruct (t <? expiry); reflexivity.
Qed.

Lemma activation_survives_reload_witness :
  let m := constructor {| items := emptyStorage; localseal_counter := None |} in
  let key := lit "AAAA-ZZZZ-AAAA-9538" in
  isPro (status (checkLicense 1000 (lit "Thu Jan 01 1970")
                   (constructor (store (snd (activateLicense 0 0 key m)))))) = true.
Proof.
  intros m key.
  destruct (activation_survives_reload 0 0 1000 (lit "Thu Jan 01 1970") key m)
    as (_ & _ & Hreload & _).
  - vm_compute. reflexivity.
  - rewrite Hreload by lia. reflexivity.
Defined.

(** *** The daily credits *)

(** [n] calls of [consumeFileCredit] in a row: the answers, and the manager
    after the last. *)
Fixpoint credits (n : nat) (m : SecurityManager) : list answer * SecurityManager :=
  match n with
  | O => ([], m)
  | S n' =>
      let '(a, m) := consumeFileCredit m in
      let '(l, m) := credits n' m in
      (a :: l, m)
  end.

Lemma set_remainingFiles_same (st : LicenseStatus) (q : quota) :
  remainingFiles st = q -> set_remainingFiles q st = st.
Proof. intros <-. destruct st; reflexivity. Qed.

Lemma set_remainingFiles_twice (st : LicenseStatus) (q q' : quota) :
  set_remainingFiles q' (set_remainingFiles q st) = set_remainingFiles q' st.
Proof. reflexivity. Qed.

(** A free manager with [r] credits left and a counter at [c]: the first
    [r] calls are granted and counted, the others are refused. *)
Lemma credits_free (n : nat) :
  forall (st : LicenseStatus) (r : Z) (s : LocalStorage) (d : jsstring) (c : Z),
    isPro st = false -> remainingFiles st = Finite r ->
    let k := Nat.min n (Z.to_nat r) in
    credits n {| status := st;
                 store := {| items := s;
                             localseal_counter := Some {| c_date := d; c_count := c |} |} |}
    = (replicate k (Value true) ++ replicate (n - k) (Value false),
       {| status := set_remainingFiles (Finite (r - Z.of_nat k)) st;
          store := {| items := s;
                      localseal_counter :=
                        Some {| c_date := d; c_count := c + Z.of_nat k |} |} |}).
Proof.
  induction n as [|n IH]; intros st r s d c Hfree Hr k.
  - unfold k. simpl. rewrite Z.sub_0_r, Z.add_0_r.
    rewrite set_remainingFiles_same by exact Hr. reflexivity.
  - cbn [credits]. unfold consumeFileCredit. cbn [status store localseal_counter].
    rewrite Hfree, Hr. cbn [quota_pos quota_sub].
    destruct (Z.ltb_spec 0 r) as [Hpos|Hneg].
    + cbn [status store localseal_counter c_date c_count].
      unfold set_counter. cbn [items].
      rewrite (IH (set_remainingFiles (Finite (r - 1)) st) (r - 1) s d (c + 1)
                 Hfree eq_refl).
      rewrite set_remainingFiles_twice.
      set (k' := Nat.min n (Z.to_nat (r - 1))).
      assert (Ek : k = S k') by (unfold k, k'; lia).
      rewrite Ek.
      replace (r - Z.of_nat (S k')) with (r - 1 - Z.of_nat k') by lia.
      replace (c + Z.of_nat (S k')) with (c + 1 + Z.of_nat k') by lia.
      reflexivity.
    + rewrite (IH st r s d c Hfree Hr).
      assert (Ek : k = 0%nat) by (unfold k; lia).
      assert (En : Nat.min n (Z.to_nat r) = 0%nat) by lia.
      rewrite Ek, En. cbn [replicate app]. rewrite Nat.sub_0_r. reflexivity.
Qed.

(** What the counter item says has been used today. *)
Definition used_today (today : jsstring) (s : Store) : Z :=
  match localseal_counter s with
  | Some c => if str_eqb (c_date c) today then c_count c else 0
  | None => 0
  end.

(** A stored licence, if any, has expired. *)
Definition no_valid_licence (now : Z) (s : Store) : Prop :=
  match localseal_license (items s) with
  | Some license => sl_expirationDate license <= now
  | None => True
  end.

Lemma checkLicense_free (now : Z) (today : jsstring) (s : Store) :
  no_valid_licence now s ->
  checkLicense now today (constructor s)
  = {| status := set_remainingFiles (Finite (Z.max 0 (5 - used_today today s))) initialStatus;
       store := {| items := items s;
                   localseal_counter :=
                     Some {| c_date := today; c_count := used_today today s |} |} |}.
Proof.
  intros Hno. destruct s as [it cnt].
  unfold checkLicense, constructor, no_valid_licence, used_today in *.
  cbn [store status items localseal_counter] in *.
  assert (E : match localseal_license it with
              | Some license =>
                  if now <? sl_expirationDate license
                  then {| status := proStatus license;
                          store := {| items := it; localseal_counter := cnt |} |}
                  else {| status := initialStatus;
                          store := {| items := it; localseal_counter := cnt |} |}
              | None => {| status := initialStatus;
                           store := {| items := it; localseal_counter := cnt |} |}
              end = {| status := initialStatus;
                       store := {| items := it; localseal_counter := cnt |} |}).
  { destruct (localseal_license it) as [l|]; [|reflexivity].
    destruct (Z.ltb_spec now (sl_expirationDate l)); [lia | reflexivity]. }
  rewrite E. cbn [status initialStatus isPro negb].
  unfold _updateFileCounter. cbn [store status localseal_counter].
  destruct cnt as [[d c]|]; cbn [c_date c_count].
  - destruct (str_eqb d today) eqn:Ed.
    + apply str_eqb_true in Ed. subst d. reflexivity.
    + reflexivity.
  - reflexivity.
Qed.

(** The free quota.  After [checkLicense] on a new manager without a valid
    licence, the credits left are five minus what the counter item records
    for today, and not below zero; of [n] calls of [consumeFileCredit] that
    follow, the first ones, as many as there are credits left, are granted
    and the others refused; the counter item records each granted call; and
    a reload of the page on the same day finds the credits that were left,
    not five. *)
Theorem daily_quota (now now2 : Z) (today : jsstring) (s : Store) (n : nat) :
  no_valid_licence now s -> no_valid_licence now2 s ->
  let m := checkLicense now today (constructor s) in
  let left := Z.max 0 (5 - used_today today s) in
  let granted := Nat.min n (Z.to_nat left) in
  let m' := snd (credits n m) in
  remainingFiles (status m) = Finite left
  /\ fst (credits n m)
     = replicate granted (Value true) ++ replicate (n - granted) (Value false)
  /\ localseal_counter (store m')
     = Some {| c_date := today; c_count := used_today today s + Z.of_nat granted |}
  /\ remainingFiles (status m') = Finite (left - Z.of_nat granted)
  /\ remainingFiles (status (checkLicense now2 today (constructor (store m'))))
     = Finite (Z.max 0 (left - Z.of_nat granted)).
Proof.
  intros Hno Hno2 m left granted m'.
  assert (Em : m = checkLicense now today (constructor s)) by reflexivity.
  rewrite (checkLicense_free now today s Hno) in Em. fold left in Em.
  pose proof (credits_free n (set_remainingFiles (Finite left) initialStatus) left
                (items s) today (used_today today s) eq_refl eq_refl) as Hrun.
  cbv zeta in Hrun. fold granted in Hrun. rewrite <- Em in Hrun.
  split; [rewrite Em; reflexivity|].
  split; [rewrite Hrun; reflexivity|].
  unfold m'. rewrite Hrun. cbn [snd store status localseal_counter].
  split; [reflexivity|]. split; [reflexivity|].
  rewrite checkLicense_free by exact Hno2.
  cbn [status set_remainingFiles remainingFiles]. f_equal.
  unfold used_today at 1. cbn [localseal_counter c_date c_count].
  replace (str_eqb today today) with true by (symmetry; apply str_eqb_true; reflexivity).
  unfold left. lia.
Qed.

Lemma daily_quota_witness :
  let s := {| items := emptyStorage;
              localseal_counter := Some {| c_date := lit "Mon Jan 05 2026"; c_count := 3 |} |} in
  fst (credits 4 (checkLicense 0 (lit "Mon Jan 05 2026") (constructor s)))
  = [Value true; Value true; Value false; Value false].
Proof.
  intros s.
  destruct (daily_quota 0 0 (lit "Mon Jan 05 2026") s 4) as (_ & Hrun & _).
  - exact I.
  - exact I.
  - rewrite Hrun. reflexivity.
Defined.

(** Before the first [checkLicense] there is no counter item: a call of
    [consumeFileCredit] on a new manager then takes a credit and fails with
    a [TypeError]; after five such calls the credits are used up and every
    further call is refused.  No call is granted. *)
Theorem credit_without_counter (s : LocalStorage) (n : nat) :
  let m := constructor {| items := s; localseal_counter := None |} in
  fst (credits n m)
  = replicate (Nat.min n 5) TypeError ++ replicate (n - 5) (Value false)
  /\ remainingFiles (status (snd (credits n m))) = Finite (5 - Z.of_nat (Nat.min n 5))
  /\ store (snd (credits n m)) = store m.
Proof.
  intros m.
  assert (Hgen : forall n st r,
             isPro st = false -> remainingFiles st = Finite r ->
             let k := Nat.min n (Z.to_nat r) in
             credits n {| status := st;
                          store := {| items := s; localseal_counter := None |} |}
             = (replicate k TypeError ++ replicate (n - k) (Value false),
                {| status := set_remainingFiles (Finite (r - Z.of_nat k)) st;
                   store := {| items := s; localseal_counter := None |} |})).
  { clear n m. induction n as [|n IH]; intros st r Hfree Hr k.
    - unfold k. simpl. rewrite Z.sub_0_r.
      rewrite set_remainingFiles_same by exact Hr. reflexivity.
    - cbn [credits]. unfold consumeFileCredit. cbn [status store localseal_counter].
      rewrite Hfree, Hr. cbn [quota_pos quota_sub].
      destruct (Z.ltb_spec 0 r) as [Hpos|Hneg].
      + cbn [status store localseal_counter].
        rewrite (IH (set_remainingFiles (Finite (r - 1)) st) (r - 1) Hfree eq_refl).
        rewrite set_remainingFiles_twice.
        set (k' := Nat.min n (Z.to_nat (r - 1))).
        assert (Ek : k = S k') by (unfold k, k'; lia).
        rewrite Ek.
        replace (r - Z.of_nat (S k')) with (r - 1 - Z.of_nat k') by lia.
        reflexivity.
      + rewrite (IH st r Hfree Hr).
        assert (Ek : k = 0%nat) by (unfold k; lia).
        assert (En : Nat.min n (Z.to_nat r) = 0%nat) by lia.
        rewrite Ek, En. cbn [replicate app]. rewrite Nat.sub_0_r. reflexivity. }
  unfold m, constructor.
  rewrite (Hgen n initialStatus 5 eq_refl eq_refl).
  change (Z.to_nat 5) with 5%nat. cbn [fst snd status store].
  split; [|split; reflexivity].
  f_equal. f_equal. lia.
Qed.

(** *** [resetLicense] *)

(** [resetLicense] removes the licence and returns to the free status, but
    leaves the replay set: the key of the licence that was reset is refused
    at every later activation, which changes nothing. *)
Theorem reset_keeps_replay_set (now now' now2 now2' : Z) (key : jsstring)
    (m : SecurityManager) :
  fst (activateLicense now now' key m) = true ->
  let m1 := resetLicense (snd (activateLicense now now' key m)) in
  status m1 = initialStatus
  /\ localseal_license (items (store m1)) = None
  /\ In key (get_used_keys (items (store m1)))
  /\ activateLicense now2 now2' key m1 = (false, m1).
Proof.
  intros Hok m1. unfold m1. clear m1. rewrite (activate_ok now now' key m Hok).
  set (m1 := resetLicense (activated now' key m)).
  assert (Hin : In key (get_used_keys (items (store m1)))).
  { unfold m1, resetLicense, remove_license, get_used_keys. simpl.
    apply in_or_app. right. left. reflexivity. }
  split; [reflexivity|]. split; [reflexivity|]. split; [exact Hin|].
  unfold activateLicense, Security.activateLicense. cbn [storage licenseStatus].
  rewrite (validate_used_key now2 key _ Hin). reflexivity.
Qed.

Lemma reset_keeps_replay_set_witness :
  let m := constructor {| items := emptyStorage; localseal_counter := None |} in
  let key := lit "AAAA-ZZZZ-AAAA-9538" in
  fst (activateLicense 60000 60000 key (resetLicense (snd (activateLicense 0 0 key m))))
  = false.
Proof.
  intros m key.
  destruct (reset_keeps_replay_set 0 0 60000 60000 key m) as (_ & _ & _ & Hact).
  - vm_compute. reflexivity.
  - rewrite Hact. reflexivity.
Defined.

(** [resetLicense] sets the credits of the manager back to five whatever
    the counter item records: the five calls of [consumeFileCredit] that
    follow are granted, and counted on top of what the item held, until the
    next [checkLicense]. *)
Theorem reset_restores_credits (m : SecurityManager) (c : Counter) (n : nat) :
  localseal_counter (store m) = Some c ->
  let m1 := resetLicense m in
  let granted := Nat.min n 5 in
  remainingFiles (status m1) = Finite 5
  /\ fst (credits n m1)
     = replicate granted (Value true) ++ replicate (n - granted) (Value false)
  /\ localseal_counter (store (snd (credits n m1)))
     = Some {| c_date := c_date c; c_count := c_count c + Z.of_nat granted |}.
Proof.
  intros Hc m1 granted. split; [reflexivity|].
  destruct c as [d k].
  pose proof (credits_free n initialStatus 5
                {| localseal_used_keys := localseal_used_keys (items (store m));
                   localseal_license := None |} d k eq_refl eq_refl) as Hrun.
  cbv zeta in Hrun. change (Z.to_nat 5) with 5%nat in Hrun. fold granted in Hrun.
  assert (Em : m1 = {| status := initialStatus;
                       store := {| items := {| localseal_used_keys :=
                                                 localseal_used_keys (items (store m));
                                               localseal_license := None |};
                                   localseal_counter :=
                                     Some {| c_date := d; c_count := k |} |} |}).
  { unfold m1, resetLicense, remove_license. rewrite Hc. reflexivity. }
  rewrite Em, Hrun. split; reflexivity.
Qed.

Lemma reset_restores_credits_witness :
  let m := {| status := set_remainingFiles (Finite 0) initialStatus;
              store := {| items := emptyStorage;
                          localseal_counter :=
                            Some {| c_date := lit "Mon Jan 05 2026"; c_count := 5 |} |} |} in
  fst (consumeFileCredit m) = Value false
  /\ fst (credits 1 (resetLicense m)) = [Value true].
Proof.
  intros m. split; [reflexivity|].
  destruct (reset_restores_credits m {| c_date := lit "Mon Jan 05 2026"; c_count := 5 |} 1)
    as (_ & Hrun & _).
  - reflexivity.
  - rewrite Hrun. reflexivity.
Defined.

End LicenceFacts.

(** ** The region redactor: what it writes, and when it does not return *)

Module RedactionFacts.
Import JS OCR Eff Image ImageFacts.

(** A pixel of the bitmap. *)
Definition on_bitmap (cv : Canvas) (X Y : Z) : Prop :=
  0 <= X < c_width cv /\ 0 <= Y < c_height cv.

(** The bitmap has four bytes per pixel. *)
Definition wf_canvas (cv : Canvas) : Prop :=
  0 <= c_width cv /\ 0 <= c_height cv
  /\ Z.of_nat (length (c_pixels cv)) = 4 * c_width cv * c_height cv.

Lemma channel_on_bitmap (cv : Canvas) (X Y c : Z) :
  on_bitmap cv X Y ->
  canvas_channel cv X Y c = read (c_pixels cv) (4 * (Y * c_width cv + X) + c).
Proof.
  intros [HX HY]. unfold canvas_channel.
  replace ((0 <=? X) && (X <? c_width cv) && (0 <=? Y) && (Y <? c_height cv)) with true
    by (symmetry; rewrite !andb_true_iff, !Z.leb_le, !Z.ltb_lt; lia).
  reflexivity.
Qed.

(** The image read from a rectangle of positive width and height holds the
    channels of the canvas, transparent black outside the bitmap. *)
Lemma channel_get (cv : Canvas) (sx sy sw sh : Z) (img : ImageData) (X Y c : Z) :
  0 < sw -> 0 < sh ->
  getImageData cv sx sy sw sh = Returns img ->
  0 <= X < sw -> 0 <= Y < sh -> 0 <= c < 4 ->
  read (data img) (idx sw X Y c) = canvas_channel cv (sx + X) (sy + Y) c.
Proof.
  intros Hsw Hsh Hget HX HY Hc. unfold getImageData in Hget.
  destruct (Z.eqb_spec sw 0) as [?|_]; [lia|].
  destruct (Z.eqb_spec sh 0) as [?|_]; [lia|]. simpl in Hget.
  injection Hget as <-. cbn [data].
  rewrite !Z.abs_eq, !Z.min_l by lia.
  rewrite read_tabulate by (unfold idx; nia).
  unfold idx.
  destruct (div4 (Y * sw + X) c Hc) as [-> ->].
  destruct (divw sw X Y HX) as [-> ->].
  reflexivity.
Qed.

(** A pixel of the bitmap after [putImageData]: the pixel of the image that
    covers it, if any. *)
Lemma channel_put (cv : Canvas) (img : ImageData) (dx dy X Y c : Z) :
  on_bitmap cv X Y -> 0 <= c < 4 ->
  canvas_channel (putImageData cv img dx dy) X Y c
  = if (dx <=? X) && (X <? dx + width img) && (dy <=? Y) && (Y <? dy + height img)
    then read (data img) (idx (width img) (X - dx) (Y - dy) c)
    else canvas_channel cv X Y c.
Proof.
  intros Hon Hc. pose proof Hon as [HX HY].
  rewrite (channel_on_bitmap cv X Y c Hon).
  rewrite channel_on_bitmap by exact Hon.
  cbn [c_width c_height c_pixels putImageData].
  rewrite read_tabulate by nia.
  destruct (div4 (Y * c_width cv + X) c Hc) as [-> ->].
  destruct (divw (c_width cv) X Y HX) as [-> ->].
  reflexivity.
Qed.

Lemma blur_box_spec (cv : Canvas) (b : BBox) (k : Z) :
  1 <= k -> x0 b < x1 b -> y0 b < y1 b ->
  exists cv',
    blur_box k b cv = Returns cv'
    /\ c_width cv' = c_width cv /\ c_height cv' = c_height cv
    /\ length (c_pixels cv') = Z.to_nat (4 * c_width cv * c_height cv)
    /\ forall X Y c, on_bitmap cv X Y -> 0 <= c < 4 ->
         canvas_channel cv' X Y c
         = if (x0 b <=? X) && (X <? x1 b) && (y0 b <=? Y) && (Y <? y1 b) && (c <? 3)
           then canvas_channel cv (x0 b + (X - x0 b) / k * k) (y0 b + (Y - y0 b) / k * k) c
           else canvas_channel cv X Y c.
Proof.
  intros Hk Hx Hy.
  destruct (blur_box_returns k b cv Hk ltac:(lia) ltac:(lia))
    as (img0 & img & Hget & Hwf0 & Hpix & Ew & Eh & Hwf & Hbox).
  rewrite Z.abs_eq in Ew, Eh by lia.
  destruct (getImageData_wf cv (x0 b) (y0 b) (x1 b - x0 b) (y1 b - y0 b)
              ltac:(lia) ltac:(lia)) as (img0' & Hget' & _ & Ew0 & Eh0).
  rewrite Hget in Hget'. injection Hget' as <-.
  rewrite Z.abs_eq in Ew0, Eh0 by lia.
  destruct (pixelate_spec img0 k Hwf0 Hk) as (d' & Hpix' & _ & Hd').
  rewrite Hpix in Hpix'. injection Hpix' as ->.
  destruct img0 as [w0 h0 d0]. cbn [width height data] in *. subst w0 h0.
  set (w := x1 b - x0 b) in *. set (h := y1 b - y0 b) in *.
  exists (putImageData cv {| width := w; height := h; data := d' |} (x0 b) (y0 b)).
  split; [exact Hbox|]. split; [reflexivity|]. split; [reflexivity|]. split.
  { cbn [putImageData c_pixels]. apply length_tabulate. }
  intros X Y c Hon Hc.
  rewrite channel_put by assumption. cbn [width height data].
  replace (x0 b + w) with (x1 b) by (unfold w; lia).
  replace (y0 b + h) with (y1 b) by (unfold h; lia).
  destruct ((x0 b <=? X) && (X <? x1 b) && (y0 b <=? Y) && (Y <? y1 b)) eqn:Ein;
    [|reflexivity].
  rewrite !andb_true_iff, !Z.leb_le, !Z.ltb_lt in Ein.
  assert (HV : valid w h (X - x0 b) (Y - y0 b)) by (unfold valid, w, h; lia).
  rewrite (Hd' _ _ c HV Hc). unfold target.
  cbn [andb]. destruct (c <? 3) eqn:Ec.
  - pose proof (block_origin_valid w h k _ _ Hk HV) as [HX' HY'].
    apply (channel_get cv (x0 b) (y0 b) w h {| width := w; height := h; data := d0 |}
             _ _ c); try assumption; unfold w, h; lia.
  - destruct HV as [HX' HY'].
    rewrite (channel_get cv (x0 b) (y0 b) w h {| width := w; height := h; data := d0 |}
               _ _ c); try assumption; [f_equal; lia | unfold w; lia | unfold h; lia].
Qed.

(** The redaction of a box of positive width and height, wherever it lies,
    with a block size of at least one: the call returns; every pixel of the
    bitmap under the box takes the red, green and blue of the pixel at the
    top-left corner of its block, the blocks being counted from the corner
    of the box, and that colour is transparent black when the corner of the
    block lies outside the bitmap; every alpha and every pixel outside the
    box stay as they were. *)
Theorem redaction_paints_block_corners (cv : Canvas) (b : BBox) (k : Z) :
  1 <= k -> x0 b < x1 b -> y0 b < y1 b ->
  exists cv',
    blur_box k b cv = Returns cv'
    /\ c_width cv' = c_width cv /\ c_height cv' = c_height cv
    /\ length (c_pixels cv') = Z.to_nat (4 * c_width cv * c_height cv)
    /\ forall X Y c, on_bitmap cv X Y -> 0 <= c < 4 ->
         canvas_channel cv' X Y c
         = if (x0 b <=? X) && (X <? x1 b) && (y0 b <=? Y) && (Y <? y1 b) && (c <? 3)
           then canvas_channel cv (x0 b + (X - x0 b) / k * k) (y0 b + (Y - y0 b) / k * k) c
           else canvas_channel cv X Y c.
Proof. apply blur_box_spec. Qed.

Lemma redaction_paints_block_corners_witness :
  exists cv',
    blur_box 2 (mkBBox 1 0 4 2) cv_4x2 = Returns cv'
    /\ canvas_channel cv' 2 1 0 = canvas_channel cv_4x2 1 0 0
    /\ canvas_channel cv' 2 1 3 = canvas_channel cv_4x2 2 1 3.
Proof.
  destruct (redaction_paints_block_corners cv_4x2 (mkBBox 1 0 4 2) 2)
    as (cv' & Hrun & _ & _ & _ & Hpaint); [lia | simpl; lia | simpl; lia |].
  exists cv'. split; [exact Hrun|]. split.
  - rewrite Hpaint by (unfold on_bitmap; simpl; lia). reflexivity.
  - rewrite Hpaint by (unfold on_bitmap; simpl; lia). reflexivity.
Defined.

(** *** A block size of one *)

(** Two bitmaps of the same dimensions with the same channels. *)
Lemma canvas_ext (cv cv' : Canvas) :
  wf_canvas cv ->
  c_width cv' = c_width cv -> c_height cv' = c_height cv ->
  length (c_pixels cv') = Z.to_nat (4 * c_width cv * c_height cv) ->
  (forall X Y c, on_bitmap cv X Y -> 0 <= c < 4 ->
     canvas_channel cv' X Y c = canvas_channel cv X Y c) ->
  cv' = cv.
Proof.
  intros (Hw & Hh & Hlen) Ew Eh Hl Hch.
  destruct cv as [w h d], cv' as [w' h' d']. cbn [c_width c_height c_pixels] in *.
  subst w' h'. f_equal.
  apply read_ext; [lia|]. intros i Hi.
  assert (Hi' : 0 <= i < 4 * w * h) by lia.
  destruct (idx_decompose w h i Hw Hh Hi') as (Ei & [HX HY] & Hc).
  specialize (Hch ((i / 4) mod w) (i / 4 / w) (i mod 4) (conj HX HY) Hc).
  rewrite !channel_on_bitmap in Hch by (split; assumption).
  cbn [c_width c_pixels] in Hch. unfold idx in Ei. rewrite <- Ei in Hch. exact Hch.
Qed.

Lemma blur_box_one (cv : Canvas) (b : BBox) :
  wf_canvas cv -> x0 b < x1 b -> y0 b < y1 b -> blur_box 1 b cv = Returns cv.
Proof.
  intros Hwf Hx Hy.
  destruct (blur_box_spec cv b 1 ltac:(lia) Hx Hy) as (cv' & -> & Ew & Eh & Hl & Hpaint).
  f_equal. apply canvas_ext; try assumption.
  intros X Y c Hon Hc. rewrite Hpaint by assumption.
  rewrite !Z.div_1_r, !Z.mul_1_r.
  replace (x0 b + (X - x0 b)) with X by lia.
  replace (y0 b + (Y - y0 b)) with Y by lia.
  destruct (_ && _); reflexivity.
Qed.

(** A box of positive width and height. *)
Definition proper_box (box : NLP.RedactionBox) : Prop :=
  x0 (NLP.b_bbox box) < x1 (NLP.b_bbox box) /\ y0 (NLP.b_bbox box) < y1 (NLP.b_bbox box).

(** With [blurIntensity = 1] every block is one pixel, which is painted
    with its own colour: whatever the boxes, the call returns and the
    bitmap is, byte for byte, what it was. *)
Theorem block_size_one_redacts_nothing (cv : Canvas) (boxes : list NLP.RedactionBox) :
  wf_canvas cv -> Forall proper_box boxes ->
  blurRegions boxes 1 {| canvas := Some cv |} = (Returns tt, {| canvas := Some cv |}).
Proof.
  intros Hwf Hboxes. unfold blurRegions. cbn [canvas].
  induction Hboxes as [|box boxes [Hx Hy] _ IH]; [reflexivity|].
  cbn [for_each]. unfold bind, blur_one at 1. cbn [canvas].
  rewrite (blur_box_one cv (NLP.b_bbox box) Hwf Hx Hy). exact IH.
Qed.

Lemma block_size_one_redacts_nothing_witness :
  blurRegions [box_at (mkBBox 1 0 4 2); box_at (mkBBox (-1) 0 2 1)] 1
    {| canvas := Some cv_4x2 |}
  = (Returns tt, {| canvas := Some cv_4x2 |}).
Proof.
  apply (block_size_one_redacts_nothing cv_4x2).
  - unfold wf_canvas. simpl. lia.
  - repeat constructor; simpl; lia.
Defined.

(** *** A block size that is not positive *)

(** A loop whose condition holds at its start and at every smaller value,
    with a step that is not positive and a body that returns: no number of
    turns ends it. *)
Lemma for_loop_diverges {S : Type} (cond : Z -> bool) (step : Z)
    (body : Z -> S -> option S) (i : Z) :
  step <= 0 ->
  (forall j, j <= i -> cond j = true) ->
  (forall j s, exists s', body j s = Some s') ->
  forall (fuel : nat) (j : Z) (s : S), j <= i -> for_loop fuel cond step body j s = None.
Proof.
  intros Hstep Hcond Hbody fuel.
  induction fuel as [|fuel IH]; intros j s Hj; rewrite for_loop_unfold, Hcond by exact Hj.
  - reflexivity.
  - destruct (Hbody j s) as (s' & ->). apply IH. lia.
Qed.

Lemma paint_block_skips (w h k x y : Z) (d : list Z) :
  k <= 0 -> paint_block w h k x y d = Some d.
Proof.
  intros Hk. unfold paint_block. rewrite for_loop_unfold.
  replace (0 <? k) with false by (symmetry; apply Z.ltb_ge; exact Hk).
  reflexivity.
Qed.

(** The loop over [x] of [_pixelate], in the row [y]. *)
Definition x_loop_of (w h k y : Z) (fuel : nat) (d : list Z) : option (list Z) :=
  for_loop fuel (fun x => x <? w) k (fun x data => paint_block w h k x y data) 0 d.

Lemma x_loop_diverges (w h k y : Z) (fuel : nat) (d : list Z) :
  k <= 0 -> 0 < w -> x_loop_of w h k y fuel d = None.
Proof.
  intros Hk Hw. unfold x_loop_of.
  apply (for_loop_diverges (fun x => x <? w) k _ 0 Hk); [| |lia].
  - intros j Hj. apply Z.ltb_lt. lia.
  - intros j s. exists s. apply paint_block_skips. exact Hk.
Qed.

(** With a [blurIntensity] of zero or less, the first box of positive
    width and height is the last thing the call looks at: in [_pixelate]
    the loop over [x] adds to [x] a step that is not positive, so [x] stays
    below the width, and no number of turns ends it.  The call does not
    return, and the bitmap is as it was. *)
Theorem redaction_hangs_without_block_size
    (cv : Canvas) (box : NLP.RedactionBox) (boxes : list NLP.RedactionBox) (k : Z) :
  k <= 0 -> proper_box box ->
  blurRegions (box :: boxes) k {| canvas := Some cv |} = (Hangs, {| canvas := Some cv |})
  /\ (forall img, 0 < width img -> 0 < height img -> _pixelate img k = None)
  /\ (forall w h y fuel d, 0 < w -> x_loop_of w h k y fuel d = None).
Proof.
  intros Hk [Hx Hy].
  assert (Hpix : forall img, 0 < width img -> 0 < height img -> _pixelate img k = None).
  { intros img Hw Hh. unfold _pixelate.
    rewrite for_loop_unfold.
    replace (0 <? height img) with true by (symmetry; apply Z.ltb_lt; exact Hh).
    destruct (Z.to_nat (height img)) as [|fuel]; [reflexivity|].
    change (for_loop (Z.to_nat (width img)) (fun x => x <? width img) k
              (fun x data => paint_block (width img) (height img) k x 0 data) 0 (data img))
      with (x_loop_of (width img) (height img) k 0 (Z.to_nat (width img)) (data img)).
    rewrite x_loop_diverges by assumption. reflexivity. }
  split; [|split; [exact Hpix|]].
  - unfold blurRegions. cbn [canvas for_each]. unfold bind, blur_one at 1. cbn [canvas].
    unfold blur_box.
    destruct (getImageData_wf cv (x0 (NLP.b_bbox box)) (y0 (NLP.b_bbox box))
                (x1 (NLP.b_bbox box) - x0 (NLP.b_bbox box))
                (y1 (NLP.b_bbox box) - y0 (NLP.b_bbox box)) ltac:(lia) ltac:(lia))
      as (img & -> & _ & Ew & Eh).
    rewrite Hpix by lia. reflexivity.
  - intros w h y fuel d Hw. apply x_loop_diverges; assumption.
Qed.

Lemma redaction_hangs_without_block_size_witness :
  blurRegions [box_at (mkBBox 1 0 4 2)] 0 {| canvas := Some cv_4x2 |}
  = (Hangs, {| canvas := Some cv_4x2 |}).
Proof.
  apply (redaction_hangs_without_block_size cv_4x2 (box_at (mkBBox 1 0 4 2)) [] 0).
  - lia.
  - split; simpl; lia.
Defined.

End RedactionFacts.

(** ** The orchestrator: how a run ends *)

Module RunFacts.
Import JS OCR Eff Image Analyze Engine EngineFacts.

(** The two events that end a run for its listeners. *)
Definition terminal (e : event) : bool :=
  match e with
  | Completed _ | Failed _ => true
  | _ => false
  end.

Definition running (e : event) : Prop := terminal e = false.

(** What the completion listeners receive from a run that returns [r] in
    the world [w]: the result object itself; at the text-only exit, where
    the run returns the text file, the object [{ file: textFile, text }]
    with the text that the OCR service read.  (No run returns that
    object.) *)
Definition reported (w : World) (r p : ProcessResult) : Prop :=
  match r with
  | Result _ _ => p = r
  | TextFile => exists o, w_recognize w = Returns o /\ p = TextExtraction (o_text o)
  | TextExtraction _ => False
  end.

(** A computation whose value, when it returns one, satisfies [Q]. *)
Definition yields {A : Type} (Q : A -> Prop) (m : eff EngineState A) : Prop :=
  forall st a, fst (m st) = Returns a -> Q a.

Lemma yields_bind {A B : Type} (Q : A -> Prop) (R : B -> Prop)
    (m : eff EngineState A) (k : A -> eff EngineState B) :
  yields Q m -> (forall a, Q a -> yields R (k a)) -> yields R (Eff.bind m k).
Proof.
  intros Hm Hk st b. unfold Eff.bind. specialize (Hm st).
  destruct (m st) as [[a|e|] st1]; cbn [fst] in *; try discriminate.
  apply (Hk a); apply Hm; reflexivity.
Qed.

Lemma yields_any {A : Type} (m : eff EngineState A) : yields (fun _ => True) m.
Proof. intros st a _. exact I. Qed.

Lemma yields_if {A : Type} (Q : A -> Prop) (b : bool) (m1 m2 : eff EngineState A) :
  yields Q m1 -> yields Q m2 -> yields Q (if b then m1 else m2).
Proof. destruct b; auto. Qed.

Lemma yields_throw {A : Type} (Q : A -> Prop) (e : exn) :
  yields Q (@throw EngineState A e).
Proof. intros st a [=]. Qed.

Lemma yields_ret {A : Type} (Q : A -> Prop) (a : A) : Q a -> yields Q (ret a).
Proof. intros Ha st a' [= <-]. exact Ha. Qed.

(** A computation that, when it returns [r], has called the completion
    listeners last, with what is reported for [r], and emitted nothing
    terminal before, with [isProcessing] off; and that has emitted nothing
    terminal when it throws or does not return. *)
Definition completes (w : World) (m : eff EngineState ProcessResult) : Prop :=
  forall st,
    exists l, Forall running l
      /\ match fst (m st) with
         | Returns r =>
             exists p, reported w r p
               /\ emitted (snd (m st)) = emitted st ++ l ++ [Completed p]
               /\ isProcessing (snd (m st)) = false
         | _ => emitted (snd (m st)) = emitted st ++ l
         end.

Lemma completes_bind {A : Type} (w : World) (Q : A -> Prop) (m : eff EngineState A)
    (k : A -> eff EngineState ProcessResult) :
  appends running m -> yields Q m -> (forall a, Q a -> completes w (k a)) ->
  completes w (Eff.bind m k).
Proof.
  intros Hm HQ Hk st. unfold Eff.bind.
  destruct (Hm st) as (l1 & E1 & F1). specialize (HQ st).
  destruct (m st) as [[a|e|] st1]; cbn [fst snd] in *.
  - destruct (Hk a (HQ a eq_refl) st1) as (l2 & F2 & H2).
    exists (l1 ++ l2). split; [apply Forall_app; auto|].
    destruct (fst (k a st1)) as [r|e|].
    + destruct H2 as (p & Hp & E2 & Hoff). exists p. split; [exact Hp|].
      split; [|exact Hoff]. rewrite E2, E1, <- !app_assoc. reflexivity.
    + rewrite H2, E1, app_assoc. reflexivity.
    + rewrite H2, E1, app_assoc. reflexivity.
  - exists l1. split; [exact F1 | exact E1].
  - exists l1. split; [exact F1 | exact E1].
Qed.

Lemma completes_after {A : Type} (w : World) (m : eff EngineState A)
    (k : A -> eff EngineState ProcessResult) :
  appends running m -> (forall a, completes w (k a)) -> completes w (Eff.bind m k).
Proof.
  intros Hm Hk. apply (completes_bind w (fun _ => True)); [exact Hm | apply yields_any|].
  intros a _. apply Hk.
Qed.

Lemma completes_if (w : World) (b : bool) (m1 m2 : eff EngineState ProcessResult) :
  completes w m1 -> completes w m2 -> completes w (if b then m1 else m2).
Proof. destruct b; auto. Qed.

(** [this._emitComplete(result); return result]. *)
Lemma completes_emitComplete (w : World) (n : Z) (watermarked : bool) :
  completes w (Eff.bind (_emitComplete (Result n watermarked))
                        (fun _ => ret (Result n watermarked))).
Proof.
  intros st. exists []. split; [constructor|].
  exists (Result n watermarked). split; [reflexivity|]. split; reflexivity.
Qed.

(** [this._emitComplete({ file: textFile, text: ocrResult.text }); return
    textFile]. *)
Lemma completes_text (w : World) (ocrResult : OcrResult) :
  w_recognize w = Returns ocrResult ->
  completes w (Eff.bind (_emitComplete (TextExtraction (o_text ocrResult)))
                        (fun _ => ret TextFile)).
Proof.
  intros Hocr st. exists []. split; [constructor|].
  exists (TextExtraction (o_text ocrResult)).
  split; [exists ocrResult; auto|]. split; reflexivity.
Qed.

Section Pipeline.
Context `{UnicodeTables}.

Lemma ocr_stage_quiet (w : World) (file : File) : appends running (ocr_stage w file).
Proof.
  unfold ocr_stage.
  apply appends_bind; [apply appends_emitProgress; reflexivity | intros _].
  apply appends_if; [apply appends_throw|].
  apply appends_bind; [apply appends_emitProgress; reflexivity | intros _].
  apply appends_bind.
  { unfold load_and_init. apply appends_bind; [apply appends_await | intros bitmap].
    apply appends_on_imageService. }
  intros _.
  apply appends_bind; [apply appends_emitProgress; reflexivity | intros _].
  apply appends_bind; [apply extractText_appends; reflexivity | intros ocrResult].
  apply appends_bind; [apply appends_emitProgress; reflexivity | intros _].
  apply appends_ret.
Qed.

(** The text that the OCR stage hands on is the one the OCR service
    read. *)
Lemma ocr_stage_yields (w : World) (file : File) :
  yields (fun ocrResult => w_recognize w = Returns ocrResult) (ocr_stage w file).
Proof.
  unfold ocr_stage.
  apply (yields_bind (fun _ => True)); [apply yields_any | intros _ _].
  apply yields_if; [apply yields_throw|].
  apply (yields_bind (fun _ => True)); [apply yields_any | intros _ _].
  apply (yields_bind (fun _ => True)); [apply yields_any | intros _ _].
  apply (yields_bind (fun _ => True)); [apply yields_any | intros _ _].
  apply (yields_bind (fun ocrResult => w_recognize w = Returns ocrResult)).
  - intros st a. unfold extractText. destruct (w_recognize w) as [result|e|];
      [|discriminate|discriminate].
    unfold Eff.bind. destruct (ocr_callback 1%float st) as [[[]|e|] st1];
      [|discriminate|discriminate].
    intros [= <-]. reflexivity.
  - intros ocrResult Hocr.
    apply (yields_bind (fun _ => True)); [apply yields_any | intros _ _].
    apply yields_ret. exact Hocr.
Qed.

(** Without an image there is no text. *)
Lemma ocr_stage_needs_image (w : World) (file : File) :
  (forall cv, w_loadImage w <> Returns cv) ->
  yields (fun _ => False) (ocr_stage w file).
Proof.
  intros Hload. unfold ocr_stage.
  apply (yields_bind (fun _ => True)); [apply yields_any | intros _ _].
  apply yields_if; [apply yields_throw|].
  apply (yields_bind (fun _ => True)); [apply yields_any | intros _ _].
  apply (yields_bind (fun _ => False)); [|intros _ []].
  unfold load_and_init.
  apply (yields_bind (fun _ => False)); [|intros _ []].
  intros st cv. unfold await. cbn [fst]. intros Hcv. exact (Hload cv Hcv).
Qed.

Lemma anonymisation_quiet (w : World) (options : Options) (ocrResult : OcrResult) :
  appends running (anonymisation w options ocrResult).
Proof.
  unfold anonymisation. apply appends_if; [|apply appends_ret].
  apply appends_bind; [apply appends_emitProgress; reflexivity | intros _].
  apply appends_bind; [apply appends_on_nlpProcessor | intros nlpResult].
  apply appends_bind; [apply appends_emitProgress; reflexivity | intros _].
  apply appends_bind; [|intros _; apply appends_ret].
  apply appends_if; [|apply appends_emitProgress; reflexivity].
  apply appends_bind; [apply appends_emitProgress; reflexivity | intros _].
  apply appends_bind; [apply appends_emit; reflexivity | intros _].
  apply appends_bind; [apply appends_on_imageService | intros _].
  apply appends_emitProgress; reflexivity.
Qed.

Lemma finish_completes (w : World) (options : Options) (nlpResult : option NLP.NlpResult) :
  completes w (finish w options nlpResult).
Proof.
  unfold finish.
  apply completes_after; [apply appends_get | intros st].
  apply completes_after.
  { apply appends_if; [|apply appends_ret].
    apply appends_bind; [apply appends_emitProgress; reflexivity | intros _].
    apply appends_bind; [apply appends_emit; reflexivity | intros _].
    apply appends_on_imageService. }
  intros _.
  apply completes_after; [apply appends_emitProgress; reflexivity | intros _].
  apply completes_after; [apply appends_await | intros _].
  apply completes_after; [apply appends_emitProgress; reflexivity | intros _].
  apply completes_after; [apply appends_await | intros _].
  apply completes_emitComplete.
Qed.

Lemma process_body_completes (w : World) (file : File) (options : Options) :
  completes w (process_body w file options).
Proof.
  unfold process_body.
  apply completes_after; [apply appends_set_isProcessing | intros _].
  apply (completes_bind w (fun ocrResult => w_recognize w = Returns ocrResult));
    [apply ocr_stage_quiet | apply ocr_stage_yields | intros ocrResult Hocr].
  apply completes_if; [apply completes_text; exact Hocr|].
  apply completes_after; [apply anonymisation_quiet | intros nlpResult].
  apply finish_completes.
Qed.

(** In a world where the image does not load, the body of a run does not
    return. *)
Lemma process_body_needs_image (w : World) (file : File) (options : Options) :
  (forall cv, w_loadImage w <> Returns cv) ->
  yields (fun _ => False) (process_body w file options).
Proof.
  intros Hload. unfold process_body.
  apply (yields_bind (fun _ => True)); [apply yields_any | intros _ _].
  apply (yields_bind (fun _ => False)); [|intros _ []].
  apply ocr_stage_needs_image. exact Hload.
Qed.

(** The state after the [finally] block. *)
Definition released (st : EngineState) : EngineState :=
  {| imageService := {| canvas := None |}; nlpProcessor := nlpProcessor st;
     licenseStatus := licenseStatus st; currentStep := currentStep st;
     progress := progress st; isProcessing := isProcessing st;
     emitted := emitted st |}.

(** The state after [_emitError(e)]. *)
Definition failed (e : exn) (st : EngineState) : EngineState :=
  {| imageService := imageService st; nlpProcessor := nlpProcessor st;
     licenseStatus := licenseStatus st; currentStep := currentStep st;
     progress := progress st; isProcessing := false;
     emitted := emitted st ++ [Failed e] |}.

Lemma processFile_unfold (w : World) (file : File) (options : Options) (st : EngineState) :
  processFile w file options st
  = match process_body w file options st with
    | (Returns r, st1) => (Returns r, released st1)
    | (Throws e, st1) => (Throws e, released (failed e st1))
    | (Hangs, st1) => (Hangs, st1)
    end.
Proof.
  unfold processFile, try_catch_finally.
  destruct (process_body w file options st) as [[r|e|] st1]; reflexivity.
Qed.

Lemma run_ends_once_aux (w : World) (file : File) (options : Options) (st : EngineState) :
  let res := processFile w file options st in
  exists l, Forall running l
    /\ match fst res with
       | Returns r =>
           exists p, reported w r p
             /\ emitted (snd res) = emitted st ++ l ++ [Completed p]
             /\ isProcessing (snd res) = false
             /\ imageService (snd res) = {| canvas := None |}
       | Throws e =>
           emitted (snd res) = emitted st ++ l ++ [Failed e]
           /\ isProcessing (snd res) = false
           /\ imageService (snd res) = {| canvas := None |}
       | Hangs => emitted (snd res) = emitted st ++ l
       end.
Proof.
  intros res. unfold res. rewrite processFile_unfold.
  destruct (process_body_completes w file options st) as (l & F & Hb).
  destruct (process_body w file options st) as [[r|e|] st1]; cbn [fst snd] in *.
  - destruct Hb as (p & Hp & E & Hoff). exists l. split; [exact F|].
    exists p. split; [exact Hp|]. split; [exact E|]. split; [exact Hoff | reflexivity].
  - exists l. split; [exact F|]. cbn [released failed emitted isProcessing imageService].
    rewrite Hb, app_assoc. auto.
  - exists l. auto.
Qed.

End Pipeline.

(** Every run that ends, ends for its listeners exactly once, and last:
    with a call of the completion listeners when [processFile] returns,
    with [Failed e] when it throws [e]; every event before is a progress
    report or a recorded call.  The completion listeners receive the result
    object that the run returns; at the text-only exit the run returns the
    text file and they receive another value, the object
    [{ file: textFile, text }] with the text read by the OCR service.  The
    run leaves [isProcessing] off and the image service without a
    canvas. *)
Theorem run_ends_once (U : UnicodeTables) (w : World) (file : File) (options : Options)
    (st : EngineState) :
  let res := processFile w file options st in
  exists l, Forall running l
    /\ match fst res with
       | Returns r =>
           exists p, reported w r p
             /\ emitted (snd res) = emitted st ++ l ++ [Completed p]
             /\ isProcessing (snd res) = false
             /\ imageService (snd res) = {| canvas := None |}
       | Throws e =>
           emitted (snd res) = emitted st ++ l ++ [Failed e]
           /\ isProcessing (snd res) = false
           /\ imageService (snd res) = {| canvas := None |}
       | Hangs => emitted (snd res) = emitted st ++ l
       end.
Proof. apply run_ends_once_aux. Qed.


(** *** A file of an unsupported type *)

(** A file whose [type] is given and is neither an image type nor
    [application/pdf] is refused at once: the run reports [mime_detection],
    fails with the unsupported-type error, and has asked nothing of the
    image loader, the OCR service or the exporter. *)
Theorem unsupported_type_fails_before_loading (U : UnicodeTables) (w : World)
    (file : File) (options : Options) (st : EngineState) :
  f_type file <> [] ->
  NLP.starts_with (f_type file) (lit "image/") = false ->
  f_type file <> lit "application/pdf" ->
  processFile w file options st
  = (Throws UnsupportedFileType,
     {| imageService := {| canvas := None |}; nlpProcessor := nlpProcessor st;
        licenseStatus := licenseStatus st; currentStep := Some mime_detection;
        progress := 0.1%float; isProcessing := false;
        emitted := emitted st ++ [ Progress mime_detection 0.1%float;
                                   Failed UnsupportedFileType ] |}).
Proof.
  intros Hty Himg Hpdf.
  assert (Hmime : _detectMimeType file = f_type file).
  { unfold _detectMimeType. destruct (f_type file); [contradiction | reflexivity]. }
  assert (Hnot : str_eqb (f_type file) (lit "application/pdf") = false).
  { unfold str_eqb. apply bool_decide_eq_false. exact Hpdf. }
  rewrite processFile_unfold.
  unfold process_body, ocr_stage. rewrite Hmime, Himg, Hnot. cbn [negb andb].
  destruct st as [svc np lic cs pr ip em].
  cbv beta iota zeta delta
    [Eff.bind set_isProcessing _emitProgress emit throw released failed fst snd
     imageService nlpProcessor licenseStatus currentStep progress isProcessing emitted].
  rewrite <- app_assoc. reflexivity.
Qed.

Lemma unsupported_type_fails_before_loading_witness :
  fst (@processFile Latin1.tables (demo_world demo_ocr)
         {| f_type := lit "text/plain"; f_ext := lit "txt" |} anonymize_on (constructor None))
  = Throws UnsupportedFileType.
Proof.
  rewrite (unsupported_type_fails_before_loading Latin1.tables (demo_world demo_ocr)
             {| f_type := lit "text/plain"; f_ext := lit "txt" |} anonymize_on
             (constructor None)).
  - reflexivity.
  - discriminate.
  - reflexivity.
  - discriminate.
Defined.

(** *** Text extraction only *)

(** With [extractTextOnly], a run on a supported file whose image loads and
    whose text is read returns the text file right after the OCR stage:
    whatever [anonymize] says, there is no analysis, no redaction, no
    watermark and no export, and the detector is left as it was. *)
Theorem text_only_stops_after_ocr (U : UnicodeTables) (w : World) (file : File)
    (options : Options) (st : EngineState) (cv : Canvas) (ocrResult : OcrResult) :
  extractTextOnly options = true ->
  negb (NLP.starts_with (_detectMimeType file) (lit "image/"))
  && negb (str_eqb (_detectMimeType file) (lit "application/pdf")) = false ->
  w_loadImage w = Returns cv ->
  w_recognize w = Returns ocrResult ->
  processFile w file options st
  = (Returns TextFile,
     {| imageService := {| canvas := None |}; nlpProcessor := nlpProcessor st;
        licenseStatus := licenseStatus st; currentStep := Some ocr_complete;
        progress := 0.6%float; isProcessing := false;
        emitted := emitted st ++ ocr_events
                   ++ [Completed (TextExtraction (o_text ocrResult))] |}).
Proof.
  intros Htext Hmime Hload Hocr.
  rewrite processFile_unfold.
  unfold process_body. unfold Eff.bind at 1.
  destruct st as [svc np lic cs pr ip em].
  cbv beta iota delta [set_isProcessing imageService nlpProcessor licenseStatus
                       currentStep progress isProcessing emitted].
  unfold Eff.bind at 1.
  rewrite (ocr_stage_returns w file _ cv ocrResult Hmime Hload Hocr), Htext.
  cbv beta iota zeta delta
    [Eff.bind set_isProcessing _emitComplete emit ret released advance fst snd
     imageService nlpProcessor licenseStatus currentStep progress isProcessing emitted].
  unfold ocr_events. rewrite <- !app_assoc. reflexivity.
Qed.

Lemma text_only_stops_after_ocr_witness :
  fst (@processFile Latin1.tables (demo_world demo_ocr) demo_file
         {| anonymize := true; blurIntensity := 20; extractTextOnly := true |}
         (constructor None))
  = Returns TextFile.
Proof.
  rewrite (text_only_stops_after_ocr Latin1.tables (demo_world demo_ocr) demo_file
             {| anonymize := true; blurIntensity := 20; extractTextOnly := true |}
             (constructor None) demo_canvas demo_ocr); reflexivity.
Defined.


(** *** The watermark follows the licence *)

(** An event of the stages before the watermark: a progress report of
    steps 1 to 4, or a call of the region redactor. *)
Definition early (e : event) : Prop :=
  match e with
  | Progress s _ =>
      match s with
      | watermark | export | complete => False
      | _ => True
      end
  | CalledBlurRegions _ _ => True
  | _ => False
  end.

(** The events that close a run that returns [r] and reports [p] to the
    completion listeners. *)
Definition closing (r p : ProcessResult) : list event :=
  match r with
  | Result _ watermarked =>
      (if watermarked
       then [Progress watermark 0.9%float; CalledAddSmartWatermark]
       else [])
      ++ [Progress export 0.95%float; Progress complete 1.0%float; Completed p]
  | _ => [Completed p]
  end.

Section Licence.
Variable w : World.
Variable lic : LicenseStatus.

(** A computation that emits early events only and leaves the licence
    status of the engine as it is. *)
Definition evolves {A : Type} (m : eff EngineState A) : Prop :=
  forall st, licenseStatus st = lic ->
    exists l, emitted (snd (m st)) = emitted st ++ l /\ Forall early l
              /\ licenseStatus (snd (m st)) = lic.

Lemma evolves_silent {A : Type} (m : eff EngineState A) :
  (forall st, emitted (snd (m st)) = emitted st
              /\ licenseStatus (snd (m st)) = licenseStatus st) ->
  evolves m.
Proof.
  intros Hm st Hlic. destruct (Hm st) as [E L]. exists [].
  rewrite app_nil_r, L. auto.
Qed.

Lemma evolves_ret {A : Type} (a : A) : evolves (ret a).
Proof. apply evolves_silent. intros st. split; reflexivity. Qed.

Lemma evolves_throw {A : Type} (e : exn) : evolves (@throw EngineState A e).
Proof. apply evolves_silent. intros st. split; reflexivity. Qed.

Lemma evolves_await {A : Type} (o : outcome A) : evolves (await o).
Proof. apply evolves_silent. intros st. split; reflexivity. Qed.

Lemma evolves_set_isProcessing (b : bool) : evolves (set_isProcessing b).
Proof. apply evolves_silent. intros st. split; reflexivity. Qed.

Lemma evolves_on_imageService {A : Type} (m : eff ImageService A) :
  evolves (on_imageService m).
Proof.
  apply evolves_silent. intros st. unfold on_imageService.
  destruct (m (imageService st)). split; reflexivity.
Qed.

Lemma evolves_on_nlpProcessor {A : Type} (m : eff NLP.NLPProcessor A) :
  evolves (on_nlpProcessor m).
Proof.
  apply evolves_silent. intros st. unfold on_nlpProcessor.
  destruct (m (nlpProcessor st)). split; reflexivity.
Qed.

Lemma evolves_emit (e : event) : early e -> evolves (emit e).
Proof.
  intros He st Hlic. exists [e]. split; [reflexivity|].
  split; [repeat constructor; exact He | exact Hlic].
Qed.

Lemma evolves_emitProgress (s : step) (p : float) :
  early (Progress s p) -> evolves (_emitProgress s p).
Proof.
  intros He st Hlic. exists [Progress s p]. split; [reflexivity|].
  split; [repeat constructor; exact He | exact Hlic].
Qed.

Lemma evolves_bind {A B : Type} (m : eff EngineState A) (k : A -> eff EngineState B) :
  evolves m -> (forall a, evolves (k a)) -> evolves (Eff.bind m k).
Proof.
  intros Hm Hk st Hlic. unfold Eff.bind.
  destruct (Hm st Hlic) as (l1 & E1 & F1 & L1).
  destruct (m st) as [[a|e|] st1]; cbn [snd] in *.
  - destruct (Hk a st1 L1) as (l2 & E2 & F2 & L2).
    exists (l1 ++ l2). rewrite E2, E1, app_assoc.
    split; [reflexivity|]. split; [apply Forall_app; auto | exact L2].
  - exists l1. auto.
  - exists l1. auto.
Qed.

Lemma evolves_if {A : Type} (b : bool) (m1 m2 : eff EngineState A) :
  evolves m1 -> evolves m2 -> evolves (if b then m1 else m2).
Proof. destruct b; auto. Qed.

(** A computation that, when it returns [r], has emitted early events and
    then the closing events of [r], the watermark being drawn exactly
    when the licence status requires it. *)
Definition finishes (m : eff EngineState ProcessResult) : Prop :=
  forall st, licenseStatus st = lic ->
    forall r, fst (m st) = Returns r ->
      exists l p, Forall early l
        /\ reported w r p
        /\ emitted (snd (m st)) = emitted st ++ l ++ closing r p
        /\ match r with
           | Result _ watermarked => watermarked = requiresWatermark lic
           | _ => True
           end.

Lemma finishes_bind {A : Type} (Q : A -> Prop) (m : eff EngineState A)
    (k : A -> eff EngineState ProcessResult) :
  evolves m -> yields Q m -> (forall a, Q a -> finishes (k a)) ->
  finishes (Eff.bind m k).
Proof.
  intros Hm HQ Hk st Hlic r. unfold Eff.bind.
  destruct (Hm st Hlic) as (l1 & E1 & F1 & L1). specialize (HQ st).
  destruct (m st) as [[a|e|] st1]; cbn [fst snd] in *; try discriminate.
  intros Hr. destruct (Hk a (HQ a eq_refl) st1 L1 r Hr) as (l2 & p & F2 & Hp & E2 & Hw).
  exists (l1 ++ l2), p. split; [apply Forall_app; auto|]. split; [exact Hp|].
  split; [|exact Hw]. rewrite E2, E1, <- !app_assoc. reflexivity.
Qed.

Lemma finishes_after {A : Type} (m : eff EngineState A)
    (k : A -> eff EngineState ProcessResult) :
  evolves m -> (forall a, finishes (k a)) -> finishes (Eff.bind m k).
Proof.
  intros Hm Hk. apply (finishes_bind (fun _ => True)); [exact Hm | apply yields_any|].
  intros a _. apply Hk.
Qed.

Lemma finishes_if (b : bool) (m1 m2 : eff EngineState ProcessResult) :
  finishes m1 -> finishes m2 -> finishes (if b then m1 else m2).
Proof. destruct b; auto. Qed.

Lemma finishes_text_file (ocrResult : OcrResult) :
  w_recognize w = Returns ocrResult ->
  finishes (Eff.bind (_emitComplete (TextExtraction (o_text ocrResult)))
                     (fun _ => ret TextFile)).
Proof.
  intros Hocr st Hlic r [= <-]. exists [], (TextExtraction (o_text ocrResult)).
  split; [constructor|]. split; [exists ocrResult; auto|]. split; reflexivity.
Qed.

Lemma finishes_finish (options : Options) (nlpResult : option NLP.NlpResult) :
  finishes (finish w options nlpResult).
Proof.
  intros st Hlic r. destruct st as [svc np lic0 cs pr ip em].
  cbn [licenseStatus] in Hlic. subst lic0.
  unfold finish, addSmartWatermark.
  cbv beta iota zeta delta
    [Eff.bind get _emitProgress _emitComplete set_isProcessing emit await ret
     on_imageService fst snd
     imageService nlpProcessor licenseStatus currentStep progress isProcessing emitted].
  destruct (requiresWatermark lic) eqn:Erw.
  - destruct (canvas svc) as [cv|]; [|discriminate].
    destruct (w_exportFile w) as [[]|e|]; try discriminate.
    destruct (w_exportThumbnail w) as [[]|e|]; try discriminate.
    cbn [fst snd]. intros [= <-]. eexists [], _. split; [constructor|].
    split; [reflexivity|].
    split; [|reflexivity]. cbn [closing app]. rewrite <- !app_assoc. reflexivity.
  - destruct (w_exportFile w) as [[]|e|]; try discriminate.
    destruct (w_exportThumbnail w) as [[]|e|]; try discriminate.
    cbn [fst snd]. intros [= <-]. eexists [], _. split; [constructor|].
    split; [reflexivity|].
    split; [|reflexivity]. cbn [closing app]. rewrite <- !app_assoc. reflexivity.
Qed.

End Licence.

Section Pipeline.
Context `{UnicodeTables}.

Lemma ocr_stage_evolves (lic : LicenseStatus) (w : World) (file : File) :
  evolves lic (ocr_stage w file).
Proof.
  unfold ocr_stage.
  apply evolves_bind; [apply evolves_emitProgress; exact I | intros _].
  apply evolves_if; [apply evolves_throw|].
  apply evolves_bind; [apply evolves_emitProgress; exact I | intros _].
  apply evolves_bind.
  { unfold load_and_init. apply evolves_bind; [apply evolves_await | intros bitmap].
    apply evolves_on_imageService. }
  intros _.
  apply evolves_bind; [apply evolves_emitProgress; exact I | intros _].
  apply evolves_bind.
  { intros st Hlic. unfold extractText. destruct (w_recognize w) as [result|e|].
    - apply (evolves_bind lic); [|intros _; apply evolves_ret|exact Hlic].
      apply evolves_emitProgress. exact I.
    - exists []. rewrite app_nil_r. auto.
    - exists []. rewrite app_nil_r. auto. }
  intros ocrResult.
  apply evolves_bind; [apply evolves_emitProgress; exact I | intros _].
  apply evolves_ret.
Qed.

Lemma anonymisation_evolves (lic : LicenseStatus) (w : World) (options : Options)
    (ocrResult : OcrResult) :
  evolves lic (anonymisation w options ocrResult).
Proof.
  unfold anonymisation. apply evolves_if; [|apply evolves_ret].
  apply evolves_bind; [apply evolves_emitProgress; exact I | intros _].
  apply evolves_bind; [apply evolves_on_nlpProcessor | intros nlpResult].
  apply evolves_bind; [apply evolves_emitProgress; exact I | intros _].
  apply evolves_bind; [|intros _; apply evolves_ret].
  apply evolves_if; [|apply evolves_emitProgress; exact I].
  apply evolves_bind; [apply evolves_emitProgress; exact I | intros _].
  apply evolves_bind; [apply evolves_emit; exact I | intros _].
  apply evolves_bind; [apply evolves_on_imageService | intros _].
  apply evolves_emitProgress; exact I.
Qed.

Lemma process_body_finishes (lic : LicenseStatus) (w : World) (file : File)
    (options : Options) :
  finishes w lic (process_body w file options).
Proof.
  unfold process_body.
  apply finishes_after; [apply evolves_set_isProcessing | intros _].
  apply (finishes_bind w lic (fun ocrResult => w_recognize w = Returns ocrResult));
    [apply ocr_stage_evolves | apply ocr_stage_yields | intros ocrResult Hocr].
  apply finishes_if; [apply finishes_text_file; exact Hocr|].
  apply finishes_after; [apply anonymisation_evolves | intros nlpResult].
  apply finishes_finish.
Qed.

End Pipeline.

(** A run that returns a result has drawn the watermark exactly when the
    licence status it started with requires one, and says so in the
    result: its events are early events (progress reports of mime
    detection, loading, OCR and anonymisation, and calls of the redactor),
    then, with a watermark, the [watermark] report and the one call of
    [addSmartWatermark], then [export], [complete] and the completion; the
    watermark is drawn after every redaction and before the export. *)
Theorem watermark_follows_licence (U : UnicodeTables) (w : World) (file : File)
    (options : Options) (st : EngineState) (r : ProcessResult) :
  fst (processFile w file options st) = Returns r ->
  exists l p, Forall early l
    /\ reported w r p
    /\ emitted (snd (processFile w file options st)) = emitted st ++ l ++ closing r p
    /\ match r with
       | Result _ watermarked => watermarked = requiresWatermark (licenseStatus st)
       | _ => True
       end.
Proof.
  rewrite processFile_unfold.
  pose proof (process_body_finishes (licenseStatus st) w file options st eq_refl r) as Hb.
  destruct (process_body w file options st) as [[r'|e|] st1]; cbn [fst snd] in *;
    try discriminate.
  intros Hr. exact (Hb Hr).
Qed.

Lemma watermark_follows_licence_witness :
  exists l, Forall early l
    /\ emitted (snd (@processFile Latin1.tables (demo_world demo_ocr) demo_file
                       anonymize_on (constructor None)))
       = emitted (constructor None) ++ l ++ closing (Result 1 true) (Result 1 true).
Proof.
  destruct (watermark_follows_licence Latin1.tables (demo_world demo_ocr) demo_file
              anonymize_on (constructor None) (Result 1 true)) as (l & p & F & Hp & E & _).
  - vm_compute. reflexivity.
  - cbn [reported] in Hp. subst p. exists l. split; [exact F | exact E].
Defined.

End RunFacts.

(** ** The detector and the text mask *)

Module SpanFacts.
Import JS Regex RegexFacts NLP NLPFacts Analyze Mask.

(** The characters of [text] from [offset], [length] of them. *)
Definition slice (text : jsstring) (offset length : Z) : jsstring :=
  take (Z.to_nat length) (drop (Z.to_nat offset) text).

(** A span that lies in [text]. *)
Definition in_text (text : jsstring) (s : TextSpan) : Prop :=
  0 <= offset s /\ 0 <= length s /\ offset s + length s <= Z.of_nat (List.length text).

(** A match: a span of [text], not empty, that carries the characters at
    its place. *)
Definition is_match (text : jsstring) (s : TextSpan) : Prop :=
  in_text text s /\ 1 <= length s /\ NLP.text s = slice text (offset s) (length s).

(** Spans from left to right, none reaching into the next. *)
Fixpoint left_to_right (l : list TextSpan) : Prop :=
  match l with
  | [] => True
  | a :: l' => Forall (fun b => offset a + length a <= offset b) l' /\ left_to_right l'
  end.

(** *** The loop over [exec] *)

Lemma exec_loop_block (fuel : nat) (ty : kind) (text : jsstring) :
  forall (rx : RegExp) (results results' : list TextSpan) (rx' : RegExp),
    (1 <= min_len (source rx))%nat ->
    exec_loop fuel ty text rx results = Some (results', rx') ->
    exists block,
      results' = results ++ block
      /\ Forall (fun s => type s = ty /\ is_match text s
                          /\ Z.of_nat (lastIndex rx) <= offset s) block
      /\ left_to_right block.
Proof.
  induction fuel as [|fuel IH]; intros rx results results' rx' Hmin Hrun;
    simpl in Hrun; destruct (exec rx text) as [[[i e]|] rx1] eqn:Ex; try discriminate.
  - injection Hrun as <- <-. exists []. rewrite app_nil_r.
    split; [reflexivity|]. split; [constructor | exact I].
  - apply exec_match in Ex as [Hie ->].
    apply IH in Hrun as (block & -> & Hall & Hsorted); [|exact Hmin].
    cbn [lastIndex] in Hall.
    set (s0 := {| type := ty; text := matched_text text i e;
                  offset := Z.of_nat i; length := Z.of_nat (e - i) |}) in *.
    exists (s0 :: block). rewrite <- app_assoc. split; [reflexivity|]. split.
    + constructor.
      * split; [reflexivity|]. split; [|simpl; lia].
        unfold is_match, in_text, slice. cbn [s0 offset length NLP.text].
        rewrite !Nat2Z.id. repeat split; try lia.
      * revert Hall. apply List.Forall_impl. intros s (Ht & Hm & Hs).
        split; [exact Ht|]. split; [exact Hm | lia].
    + split; [|exact Hsorted].
      revert Hall. apply List.Forall_impl. intros s (_ & _ & Hs).
      cbn [s0 offset length]. lia.
  - injection Hrun as <- <-. exists []. rewrite app_nil_r.
    split; [reflexivity|]. split; [constructor | exact I].
Qed.

(** The matches of one pattern, as the scan reports them. *)
Definition block_of (text : jsstring) (entry : kind * RegExp) (block : list TextSpan)
  : Prop :=
  Forall (fun s => type s = fst entry /\ is_match text s) block /\ left_to_right block.

Lemma detect_entries_blocks (text : jsstring) (entries : list (kind * RegExp)) :
  Forall (fun entry => (1 <= min_len (source (snd entry)))%nat) entries ->
  forall results results' entries',
    detect_entries text entries results = Some (results', entries') ->
    exists blocks,
      results' = results ++ concat blocks /\ Forall2 (block_of text) entries blocks.
Proof.
  induction 1 as [|[ty rx] entries Hmin _ IH]; intros results results' entries' Hrun;
    cbn [detect_entries] in Hrun.
  - injection Hrun as <- <-. exists []. rewrite app_nil_r. split; [reflexivity | constructor].
  - destruct (exec_loop (S (List.length text)) ty text rx results)
      as [[results1 rx1]|] eqn:E1; [|discriminate].
    destruct (detect_entries text entries results1) as [[results2 entries2]|] eqn:E2;
      [|discriminate].
    injection Hrun as <- <-.
    apply exec_loop_block in E1 as (block & -> & Hall & Hsorted); [|exact Hmin].
    apply IH in E2 as (blocks & -> & Hblocks).
    exists (block :: blocks). cbn [concat]. rewrite <- app_assoc.
    split; [reflexivity|]. constructor; [|exact Hblocks].
    split; [|exact Hsorted].
    revert Hall. apply List.Forall_impl. intros s (Ht & Hm & _). auto.
Qed.

(** *** The spans are the matches of the patterns *)

(** The pattern [r] (with or without the [i] flag) matches [text] at the
    index [i], and the match ends at [e]. *)
Definition matches_at (text : jsstring) (r : regex) (ic : bool) (i e : nat) : Prop :=
  compile text ic r i Some = Some e.

(** The pattern does not match at [i]. *)
Definition no_match_at (text : jsstring) (r : regex) (ic : bool) (i : nat) : Prop :=
  compile text ic r i Some = None.

(** The match at [i] is the first one from [from] on, and is not empty. *)
Definition first_match (text : jsstring) (r : regex) (ic : bool) (from i e : nat) : Prop :=
  (from <= i /\ i < e <= List.length text)%nat
  /\ matches_at text r ic i e
  /\ forall j, (from <= j < i)%nat -> no_match_at text r ic j.

(** The span recorded for the match from [i] to [e]. *)
Definition span_of (ty : kind) (text : jsstring) (i e : nat) : TextSpan :=
  {| type := ty;
     text := slice text (Z.of_nat i) (Z.of_nat (e - i));
     offset := Z.of_nat i;
     length := Z.of_nat (e - i) |}.

(** All the matches of one pattern from [from] on, as a scan from left to
    right finds them: the first match, then the matches from its end on,
    until the pattern matches at no further index. *)
Inductive scan (text : jsstring) (ty : kind) (r : regex) (ic : bool)
  : nat -> list TextSpan -> Prop :=
| scan_end (from : nat) :
    (forall j, (from <= j <= List.length text)%nat -> no_match_at text r ic j) ->
    scan text ty r ic from []
| scan_match (from i e : nat) (rest : list TextSpan) :
    first_match text r ic from i e ->
    scan text ty r ic e rest ->
    scan text ty r ic from (span_of ty text i e :: rest).

(** All the matches of the pattern of an entry of [this.patterns]. *)
Definition all_matches (text : jsstring) (entry : kind * RegExp) (block : list TextSpan)
  : Prop :=
  scan text (fst entry) (source (snd entry)) (ignoreCase (snd entry)) 0 block.

Lemma search_finds (text : jsstring) (ic : bool) (r : regex) (fuel : nat) :
  forall i,
    match search text ic r fuel i with
    | Some (j, e) =>
        (i <= j <= i + fuel)%nat /\ matches_at text r ic j e
        /\ forall k, (i <= k < j)%nat -> no_match_at text r ic k
    | None => forall k, (i <= k <= i + fuel)%nat -> no_match_at text r ic k
    end.
Proof.
  unfold matches_at, no_match_at.
  induction fuel as [|fuel IH]; intros i; cbn [search].
  - destruct (compile text ic r i Some) as [e|] eqn:Ec.
    + split; [lia|]. split; [exact Ec | intros k Hk; lia].
    + intros k Hk. assert (k = i) by lia. subst k. exact Ec.
  - destruct (compile text ic r i Some) as [e|] eqn:Ec.
    + split; [lia|]. split; [exact Ec | intros k Hk; lia].
    + specialize (IH (S i)). destruct (search text ic r fuel (S i)) as [[j e]|].
      * destruct IH as (Hj & Hm & Hno). split; [lia|]. split; [exact Hm|].
        intros k Hk. destruct (Nat.eq_dec k i) as [->|Hne]; [exact Ec | apply Hno; lia].
      * intros k Hk. destruct (Nat.eq_dec k i) as [->|Hne]; [exact Ec | apply IH; lia].
Qed.

Lemma exec_loop_scan (fuel : nat) (ty : kind) (text : jsstring) :
  forall (rx : RegExp) (results results' : list TextSpan) (rx' : RegExp),
    (1 <= min_len (source rx))%nat ->
    (lastIndex rx <= List.length text)%nat ->
    exec_loop fuel ty text rx results = Some (results', rx') ->
    exists block,
      results' = results ++ block
      /\ scan text ty (source rx) (ignoreCase rx) (lastIndex rx) block.
Proof.
  induction fuel as [|fuel IH]; intros rx results results' rx' Hmin Hlast Hrun;
    cbn [exec_loop] in Hrun; destruct (exec rx text) as [[[i e]|] rx1] eqn:Ex;
    try discriminate.
  - injection Hrun as <- <-. exists []. rewrite app_nil_r. split; [reflexivity|].
    apply scan_end. unfold exec in Ex.
    destruct (Nat.ltb_spec (List.length text) (lastIndex rx)) as [?|_]; [lia|].
    pose proof (search_finds text (ignoreCase rx) (source rx)
                  (List.length text - lastIndex rx) (lastIndex rx)) as Hs.
    destruct (search _ _ _ _ _) as [[i e]|]; [discriminate|].
    intros j Hj. apply Hs. lia.
  - pose proof (exec_match _ _ _ _ _ Ex) as [Hie ->].
    unfold exec in Ex.
    destruct (Nat.ltb_spec (List.length text) (lastIndex rx)) as [?|_]; [lia|].
    pose proof (search_finds text (ignoreCase rx) (source rx)
                  (List.length text - lastIndex rx) (lastIndex rx)) as Hs.
    destruct (search _ _ _ _ _) as [[i0 e0]|]; [|discriminate].
    injection Ex as -> ->. destruct Hs as (Hj & Hm & Hno).
    apply IH in Hrun as (block & -> & Hscan); cbn [source lastIndex]; [|exact Hmin|lia].
    cbn [source ignoreCase lastIndex] in Hscan.
    exists (span_of ty text i e :: block). split.
    + rewrite <- app_assoc. cbn [app]. do 3 f_equal.
      unfold span_of, slice, matched_text. rewrite !Nat2Z.id. reflexivity.
    + apply (scan_match text ty _ _ _ i e); [|exact Hscan].
      split; [lia|]. split; [exact Hm | exact Hno].
  - injection Hrun as <- <-. exists []. rewrite app_nil_r. split; [reflexivity|].
    apply scan_end. unfold exec in Ex.
    destruct (Nat.ltb_spec (List.length text) (lastIndex rx)) as [?|_]; [lia|].
    pose proof (search_finds text (ignoreCase rx) (source rx)
                  (List.length text - lastIndex rx) (lastIndex rx)) as Hs.
    destruct (search _ _ _ _ _) as [[i e]|]; [discriminate|].
    intros j Hj. apply Hs. lia.
Qed.

(** The patterns of the constructor are fresh: their scans start at 0. *)
Lemma patterns_fresh :
  Forall (fun entry => lastIndex (snd entry) = 0%nat) (patterns constructor).
Proof. repeat constructor. Qed.

Lemma detect_entries_scans (text : jsstring) (entries : list (kind * RegExp)) :
  Forall (fun entry => (1 <= min_len (source (snd entry)))%nat) entries ->
  Forall (fun entry => lastIndex (snd entry) = 0%nat) entries ->
  forall results results' entries',
    detect_entries text entries results = Some (results', entries') ->
    exists blocks,
      results' = results ++ concat blocks /\ Forall2 (all_matches text) entries blocks.
Proof.
  induction 1 as [|[ty rx] entries Hmin _ IH]; intros Hfresh results results' entries' Hrun;
    cbn [detect_entries] in Hrun.
  - injection Hrun as <- <-. exists []. rewrite app_nil_r. split; [reflexivity | constructor].
  - destruct (exec_loop (S (List.length text)) ty text rx results)
      as [[results1 rx1]|] eqn:E1; [|discriminate].
    destruct (detect_entries text entries results1) as [[results2 entries2]|] eqn:E2;
      [|discriminate].
    injection Hrun as <- <-.
    pose proof (List.Forall_inv Hfresh) as H0. cbn [snd] in H0.
    apply exec_loop_scan in E1 as (block & -> & Hscan); [|exact Hmin|rewrite H0; lia].
    apply IH in E2 as (blocks & -> & Hblocks); [|exact (List.Forall_inv_tail Hfresh)].
    exists (block :: blocks). cbn [concat]. rewrite <- app_assoc.
    split; [reflexivity|]. constructor; [|exact Hblocks].
    unfold all_matches. cbn [fst snd]. rewrite H0 in Hscan. exact Hscan.
Qed.

(** The matches of a scan are matches in the weaker sense: of the kind of
    the pattern, in the text, from left to right. *)
Lemma scan_block (text : jsstring) (ty : kind) (r : regex) (ic : bool)
    (from : nat) (block : list TextSpan) :
  scan text ty r ic from block ->
  Forall (fun s => type s = ty /\ is_match text s /\ Z.of_nat from <= offset s) block
  /\ left_to_right block.
Proof.
  induction 1 as [from Hno | from i e rest ((Hfi & Hie) & Hm & Hno) _ [IHall IHsorted]].
  - split; [constructor | exact I].
  - split.
    + constructor.
      * split; [reflexivity|]. split; [|cbn; lia].
        unfold is_match, in_text, span_of. cbn [offset length NLP.text].
        repeat split; lia.
      * revert IHall. apply List.Forall_impl. intros s (Ht & Hs & Ho).
        split; [exact Ht|]. split; [exact Hs | lia].
    + split; [|exact IHsorted].
      revert IHall. apply List.Forall_impl. intros s (_ & _ & Ho).
      unfold span_of. cbn [offset length]. lia.
Qed.

Lemma all_matches_blocks (text : jsstring) (entries : list (kind * RegExp))
    (blocks : list (list TextSpan)) :
  Forall2 (all_matches text) entries blocks -> Forall2 (block_of text) entries blocks.
Proof.
  induction 1 as [|entry block entries blocks Hscan _ IH]; constructor; [|exact IH].
  apply scan_block in Hscan as [Hall Hsorted]. split; [|exact Hsorted].
  revert Hall. apply List.Forall_impl. intros s (Ht & Hm & _). auto.
Qed.

(** What the scan of a text returns on the processor that the constructor
    builds. *)
Lemma detect_scans (text : jsstring) :
  exists spans blocks,
    _detectSensitiveValues text constructor = Some (spans, constructor)
    /\ spans = concat blocks
    /\ Forall2 (all_matches text) (patterns constructor) blocks.
Proof.
  destruct (detect_entries_returns text (patterns constructor) [] patterns_consume)
    as (spans & Hrun).
  destruct (detect_entries_scans text (patterns constructor) patterns_consume
              patterns_fresh [] spans _ Hrun) as (blocks & Hspans & Hblocks).
  exists spans, blocks. split; [|split; [exact Hspans | exact Hblocks]].
  unfold _detectSensitiveValues. rewrite Hrun. reflexivity.
Qed.

(** The scan of a text by the processor that the constructor builds
    returns, pattern after pattern in the order of [this.patterns], all the
    matches of that pattern and nothing else: the first index at which the
    pattern matches, with the match the pattern makes there, then the first
    match from the end of that one on, and so on until the pattern matches
    at no further index of the text.  Each span is of the pattern's kind,
    lies in the text, is not empty and carries the characters found at its
    offset; the matches of one pattern come from left to right and do not
    overlap.  The scan leaves the processor as it was. *)
Theorem detected_spans_are_matches (text : jsstring) :
  exists spans blocks,
    _detectSensitiveValues text constructor = Some (spans, constructor)
    /\ spans = concat blocks
    /\ Forall2 (all_matches text) (patterns constructor) blocks
    /\ Forall2 (block_of text) (patterns constructor) blocks.
Proof.
  destruct (detect_scans text) as (spans & blocks & Hrun & Hspans & Hblocks).
  exists spans, blocks. split; [exact Hrun|]. split; [exact Hspans|].
  split; [exact Hblocks | apply all_matches_blocks; exact Hblocks].
Qed.

(** Every span of a scan is a match. *)
Lemma blocks_are_matches (text : jsstring) (entries : list (kind * RegExp))
    (blocks : list (list TextSpan)) :
  Forall2 (block_of text) entries blocks -> Forall (is_match text) (concat blocks).
Proof.
  induction 1 as [|entry block entries blocks [Hall _] _ IH]; [constructor|].
  cbn [concat]. apply Forall_app. split; [|exact IH].
  revert Hall. apply List.Forall_impl. intros s [_ Hm]. exact Hm.
Qed.

(** *** [analyze] *)

(** [indexOf]: -1 when the string does not occur, the least index at which
    it occurs otherwise. *)
Definition first_at (text search : jsstring) (j : nat) : Prop :=
  starts_with (drop j text) search = true
  /\ forall j', (j' < j)%nat -> starts_with (drop j' text) search = false.

Lemma index_from_spec (text search : jsstring) (i : Z) :
  (index_from text search i = -1 /\ ~ substring search text)
  \/ (exists j, index_from text search i = i + Z.of_nat j /\ first_at text search j).
Proof.
  revert i. induction text as [|c text IH]; intros i.
  - cbn [index_from]. destruct (starts_with [] search) eqn:E.
    + right. exists 0%nat. split; [lia|]. split; [exact E | intros j' Hj'; lia].
    + left. split; [reflexivity|]. rewrite <- includes_spec, includes_nil, E. discriminate.
  - cbn [index_from]. destruct (starts_with (c :: text) search) eqn:E.
    + right. exists 0%nat. split; [lia|]. split; [exact E | intros j' Hj'; lia].
    + destruct (IH (i + 1)) as [[Hr Hno] | (j & Hr & Hj & Hfirst)].
      * left. split; [exact Hr|].
        rewrite <- includes_spec, includes_cons, E. rewrite <- includes_spec in Hno.
        destruct (includes text search); [contradiction Hno; reflexivity | discriminate].
      * right. exists (S j). split; [lia|]. split; [exact Hj|].
        intros [|j'] Hj'; [exact E | apply Hfirst; lia].
Qed.

(** What [analyze] records for a text that Compromise reports. *)
Definition located (text : jsstring) (s : TextSpan) : Prop :=
  length s = Z.of_nat (List.length (NLP.text s))
  /\ ((offset s = -1 /\ ~ substring (NLP.text s) text)
      \/ (exists j, offset s = Z.of_nat j /\ first_at text (NLP.text s) j)).

Lemma entity_of_located (ty : kind) (text found : jsstring) :
  located text (entity_of ty text found).
Proof.
  split; [reflexivity|]. cbn [entity_of offset NLP.text]. unfold indexOf.
  destruct (index_from_spec text found 0) as [H | (j & Hr & Hj)]; [left; exact H|].
  right. exists j. split; [lia | exact Hj].
Qed.

(** [analyze] on the processor that the constructor builds always returns,
    and leaves the processor as it was.  For a blank text, or without
    Compromise, the result is empty and has no [total].  Otherwise the
    entities are the people, places and organisations that Compromise
    reports, in this order, each with the length of its text and the index
    of the first occurrence of that text (-1 when it does not occur as
    such); the sensitive values are what [_detectSensitiveValues] returns
    for the text, that is, pattern after pattern, all the matches of the
    pattern found from left to right; and [total] counts both. *)
Theorem analyze_returns_located_spans (nlp : option (jsstring -> NerDoc))
    (text : jsstring) :
  exists r,
    analyze nlp text constructor = (Eff.Returns r, constructor)
    /\ match nlp with
       | Some ner =>
           if forallb is_space text
           then r = {| entities := []; sensitive := []; total := None |}
           else
             entities r
             = map (entity_of person text) (people (ner text))
               ++ map (entity_of place text) (places (ner text))
               ++ map (entity_of organization text) (organizations (ner text))
             /\ Forall (located text) (entities r)
             /\ _detectSensitiveValues text constructor
                = Some (sensitive r, constructor)
             /\ (exists blocks,
                   sensitive r = concat blocks
                   /\ Forall2 (all_matches text) (patterns constructor) blocks)
             /\ Forall (is_match text) (sensitive r)
             /\ total r = Some (Z.of_nat (List.length (entities r))
                                + Z.of_nat (List.length (sensitive r)))
       | None => r = {| entities := []; sensitive := []; total := None |}
       end.
Proof.
  unfold analyze. destruct nlp as [ner|].
  - destruct (forallb is_space text); [eexists; split; reflexivity|].
    destruct (detect_scans text) as (spans & blocks & Hrun & Hspans & Hblocks).
    rewrite Hrun.
    eexists. split; [reflexivity|]. cbn [entities sensitive total].
    split; [reflexivity|]. split; [|split; [reflexivity|split; [|split; [|reflexivity]]]].
    + assert (Hmap : forall ty l, Forall (located text) (map (entity_of ty text) l)).
      { intros ty l. apply List.Forall_forall. intros e He.
        apply in_map_iff in He as (found & <- & _). apply entity_of_located. }
      repeat (apply Forall_app; split); apply Hmap.
    + exists blocks. split; [exact Hspans | exact Hblocks].
    + rewrite Hspans.
      apply (blocks_are_matches text _ _ (all_matches_blocks text _ _ Hblocks)).
  - destruct (forallb is_space text); eexists; split; reflexivity.
Qed.

(** *** [maskText] *)

Lemma insert_desc_In (a x : TextSpan) (l : list TextSpan) :
  In x (insert_desc a l) <-> x = a \/ In x l.
Proof.
  induction l as [|b l IH]; simpl.
  - intuition.
  - destruct (offset b <=? offset a); simpl; [intuition|].
    rewrite IH. intuition.
Qed.

(** The sorted list has the elements of the list. *)
Lemma sort_desc_In (x : TextSpan) (l : list TextSpan) :
  In x (sort_desc l) <-> In x l.
Proof.
  induction l as [|a l IH]; simpl; [reflexivity|].
  rewrite insert_desc_In, IH. intuition.
Qed.

(** The character at [i] lies in one of the spans. *)
Definition covers (s : TextSpan) (i : Z) : bool :=
  (offset s <=? i) && (i <? offset s + length s).

Definition covered (targets : list TextSpan) (i : Z) : bool :=
  existsb (fun s => covers s i) targets.

Lemma covered_sort_desc (l : list TextSpan) (i : Z) :
  covered (sort_desc l) i = covered l i.
Proof.
  unfold covered. apply eq_true_iff_eq. rewrite !existsb_exists.
  split; intros (s & Hin & Hs); exists s; (split; [|exact Hs]);
    apply sort_desc_In; exact Hin.
Qed.

Lemma mask_one_spec (t : jsstring) (s : TextSpan) :
  in_text t s ->
  exists t',
    mask_one t s = Some t'
    /\ List.length t' = List.length t
    /\ forall i : nat,
         t' !! i = if covers s (Z.of_nat i) then
                     (if (i <? List.length t)%nat then Some block_char else None)
                   else t !! i.
Proof.
  intros (Ho & Hl & Hend). unfold mask_one.
  replace (length s <? 0) with false by (symmetry; apply Z.ltb_ge; exact Hl).
  eexists. split; [reflexivity|].
  unfold substring_to, substring_from, clamp.
  rewrite Z.max_l, Z.min_l by lia.
  rewrite Z.max_l, Z.min_l by lia.
  set (o := Z.to_nat (offset s)). set (n := Z.to_nat (length s)).
  replace (Z.to_nat (offset s + length s)) with (o + n)%nat by (unfold o, n; lia).
  assert (Hon : (o + n <= List.length t)%nat) by (unfold o, n; lia).
  assert (Eo : Z.of_nat o = offset s) by (unfold o; lia).
  assert (En : Z.of_nat n = length s) by (unfold n; lia).
  clearbody o n. split.
  - rewrite !length_app, length_take, length_replicate, length_drop. lia.
  - intros i. unfold covers, jsstring in *.
    destruct (Z.leb_spec (offset s) (Z.of_nat i)) as [H1|H1];
      destruct (Z.ltb_spec (Z.of_nat i) (offset s + length s)) as [H2|H2]; cbn [andb].
    + replace (i <? List.length t)%nat with true by (symmetry; apply Nat.ltb_lt; lia).
      rewrite lookup_app_r by (rewrite length_take; lia).
      rewrite length_take, lookup_app_l by (rewrite length_replicate; lia).
      apply lookup_replicate_2. lia.
    + rewrite lookup_app_r by (rewrite length_take; lia).
      rewrite length_take, lookup_app_r by (rewrite length_replicate; lia).
      rewrite length_replicate, lookup_drop. f_equal. lia.
    + rewrite lookup_app_l by (rewrite length_take; lia).
      apply lookup_take_lt. lia.
    + lia.
Qed.

Lemma mask_all_spec (targets : list TextSpan) :
  forall t : jsstring,
    Forall (in_text t) targets ->
    exists t',
      mask_all t targets = Some t'
      /\ List.length t' = List.length t
      /\ forall i : nat,
           t' !! i = if covered targets (Z.of_nat i) then
                       (if (i <? List.length t)%nat then Some block_char else None)
                     else t !! i.
Proof.
  induction targets as [|s targets IH]; intros t Hall.
  - exists t. split; [reflexivity|]. split; reflexivity.
  - pose proof (List.Forall_inv Hall) as Hs. apply List.Forall_inv_tail in Hall.
    destruct (mask_one_spec t s Hs) as (t1 & Hone & Hl1 & Hc1).
    assert (Hall1 : Forall (in_text t1) targets).
    { revert Hall. apply List.Forall_impl. unfold in_text. rewrite Hl1. auto. }
    destruct (IH t1 Hall1) as (t' & Hrun & Hl & Hc).
    exists t'. cbn [mask_all]. rewrite Hone. split; [exact Hrun|].
    split; [congruence|]. intros i. rewrite Hc, Hl1. cbn [covered existsb].
    fold (covered targets (Z.of_nat i)).
    destruct (covered targets (Z.of_nat i)).
    + rewrite orb_true_r. reflexivity.
    + rewrite orb_false_r. apply Hc1.
Qed.

Lemma maskText_spec (text : jsstring) (nlpResult : NlpResult) :
  Forall (in_text text) (entities nlpResult ++ sensitive nlpResult) ->
  exists masked,
    maskText text nlpResult = Some masked
    /\ List.length masked = List.length text
    /\ forall i : nat,
         (i < List.length text)%nat ->
         masked !! i
         = if covered (entities nlpResult ++ sensitive nlpResult) (Z.of_nat i)
           then Some block_char else text !! i.
Proof.
  intros Hall. unfold maskText.
  destruct (mask_all_spec (sort_desc (entities nlpResult ++ sensitive nlpResult)) text)
    as (masked & Hrun & Hl & Hc).
  { apply List.Forall_forall. intros s Hs. apply (proj1 (sort_desc_In _ _)) in Hs.
    rewrite List.Forall_forall in Hall. apply Hall. exact Hs. }
  exists masked. split; [exact Hrun|]. split; [exact Hl|].
  intros i Hi. rewrite Hc, covered_sort_desc.
  replace (i <? List.length text)%nat with true by (symmetry; apply Nat.ltb_lt; exact Hi).
  reflexivity.
Qed.

(** When every target lies in the text, [maskText] returns a text of the
    same length in which a character is the block character exactly when
    some target covers it, and is the character of the text otherwise; the
    targets may overlap, and their order does not matter. *)
Theorem mask_replaces_covered_characters (text : jsstring) (nlpResult : NlpResult) :
  Forall (in_text text) (entities nlpResult ++ sensitive nlpResult) ->
  exists masked,
    maskText text nlpResult = Some masked
    /\ List.length masked = List.length text
    /\ forall i : nat,
         (i < List.length text)%nat ->
         masked !! i
         = if covered (entities nlpResult ++ sensitive nlpResult) (Z.of_nat i)
           then Some block_char else text !! i.
Proof. apply maskText_spec. Qed.

Lemma mask_replaces_covered_characters_witness :
  maskText (lit "tel 0612345678")
    {| entities := [];
       sensitive := [ {| type := phone; text := lit "0612345678"; offset := 4; length := 10 |} ];
       total := Some 1 |}
  = Some (lit "tel " ++ replicate 10 block_char).
Proof.
  destruct (mask_replaces_covered_characters (lit "tel 0612345678")
              {| entities := [];
                 sensitive := [ {| type := phone; text := lit "0612345678";
                                   offset := 4; length := 10 |} ];
                 total := Some 1 |}) as (masked & Hrun & _).
  - repeat constructor; simpl; lia.
  - rewrite Hrun. vm_compute in Hrun. injection Hrun as <-. reflexivity.
Defined.

(** The mask of what the detector finds: the scan and [maskText] both
    return, the masked text has the length of the text, and its characters
    are the block character where a match lies and the characters of the
    text elsewhere. *)
Theorem masking_detected_spans_keeps_length (text : jsstring) :
  exists spans masked,
    _detectSensitiveValues text constructor = Some (spans, constructor)
    /\ maskText text {| entities := []; sensitive := spans;
                        total := Some (Z.of_nat (List.length spans)) |} = Some masked
    /\ List.length masked = List.length text
    /\ forall i : nat,
         (i < List.length text)%nat ->
         masked !! i = if covered spans (Z.of_nat i) then Some block_char else text !! i.
Proof.
  destruct (detect_entries_returns text (patterns constructor) [] patterns_consume)
    as (spans & Hrun).
  destruct (detect_entries_blocks text (patterns constructor) patterns_consume
              [] spans _ Hrun) as (blocks & Hspans & Hblocks).
  pose proof (blocks_are_matches text _ _ Hblocks) as Hm.
  cbn [app] in Hspans. rewrite <- Hspans in Hm.
  destruct (maskText_spec text {| entities := []; sensitive := spans;
                                  total := Some (Z.of_nat (List.length spans)) |})
    as (masked & Hmask & Hl & Hc).
  { cbn [entities sensitive app]. revert Hm. apply List.Forall_impl.
    intros s [Hin _]. exact Hin. }
  exists spans, masked. split; [|split; [exact Hmask|split; [exact Hl | exact Hc]]].
  unfold _detectSensitiveValues. rewrite Hrun. reflexivity.
Qed.

(** An entity whose text does not occur as such in the text has the offset
    -1 in the result of [analyze]; [maskText] then puts its mask in front
    and keeps the text from the index [length - 1] on, so the masked text
    is longer than the text. *)
Theorem unlocated_entity_lengthens_the_text (ty : kind) (text found : jsstring) :
  found <> [] -> ~ substring found text ->
  let entity := entity_of ty text found in
  offset entity = -1
  /\ maskText text {| entities := [entity]; sensitive := []; total := Some 1 |}
     = Some (replicate (List.length found) block_char
             ++ drop (List.length found - 1) text)
  /\ (List.length text
      < List.length (replicate (List.length found) block_char
                     ++ drop (List.length found - 1) text))%nat.
Proof.
  intros Hne Hno entity.
  assert (Hoff : offset entity = -1).
  { cbn [entity entity_of offset]. unfold indexOf.
    destruct (index_from_spec text found 0) as [[Hr _] | (j & _ & Hj & _)]; [exact Hr|].
    exfalso. apply Hno. apply starts_with_spec in Hj as [post Hp].
    exists (take j text), post. rewrite <- Hp. symmetry. apply take_drop. }
  assert (Hlen : (1 <= List.length found)%nat)
    by (destruct found; [contradiction | simpl; lia]).
  split; [exact Hoff|]. split.
  - unfold maskText. cbn [entities sensitive app sort_desc fold_right insert_desc mask_all].
    unfold mask_one. rewrite Hoff. cbn [entity entity_of length].
    replace (Z.of_nat (List.length found) <? 0) with false by (symmetry; apply Z.ltb_ge; lia).
    unfold substring_to, substring_from, clamp.
    rewrite Nat2Z.id. change (Z.to_nat (Z.min (Z.max (-1) 0) _)) with
      (Z.to_nat (Z.min 0 (Z.of_nat (List.length text)))).
    rewrite Z.min_l by lia. change (Z.to_nat 0) with 0%nat. rewrite take_0.
    cbn [app]. do 2 f_equal.
    destruct (Nat.le_gt_cases (List.length found - 1) (List.length text)) as [Hle|Hgt].
    + f_equal. lia.
    + rewrite !drop_ge by lia. reflexivity.
  - rewrite length_app, length_replicate, length_drop. lia.
Qed.

Lemma unlocated_entity_lengthens_the_text_witness :
  maskText (lit "Jean  Valjean")
    {| entities := [entity_of person (lit "Jean  Valjean") (lit "Jean Valjean")];
       sensitive := []; total := Some 1 |}
  = Some (replicate 12 block_char ++ lit "an").
Proof.
  destruct (unlocated_entity_lengthens_the_text person (lit "Jean  Valjean")
              (lit "Jean Valjean")) as (_ & Hrun & _).
  - discriminate.
  - rewrite <- includes_spec. vm_compute. discriminate.
  - rewrite Hrun. reflexivity.
Defined.

End SpanFacts.

(** ** The name of the output file *)

Module FilenameFacts.
Import JS Regex RegexFacts Filename.

(** An extension: a dot, then word characters, at least one. *)
Definition is_extension (s : jsstring) : bool :=
  match s with
  | 46 :: c :: rest => is_word c && forallb is_word rest
  | _ => false
  end.

Section Matcher.
Variable input : jsstring.

(** [$], then the end of the pattern. *)
Definition at_end (y : nat) : option nat :=
  if (y =? length input)%nat then Some y else None.

(** [\w*$] from [x]: the rest of the input is made of word characters. *)
Lemma word_star_end (fuel x : nat) :
  (x <= length input)%nat -> (length input - x <= fuel)%nat ->
  repeat_any (compile input false (Class is_word)) fuel x at_end
  = if forallb is_word (drop x input) then Some (length input) else None.
Proof.
  revert x. induction fuel as [|fuel IH]; intros x Hx Hfuel.
  - assert (x = length input) by lia. subst x.
    cbn [repeat_any]. unfold at_end. rewrite Nat.eqb_refl, drop_all. reflexivity.
  - cbn [repeat_any compile]. rewrite (lookup_head_drop input x).
    destruct (drop x input) as [|ch rest] eqn:Ed.
    + cbn [try_both forallb]. unfold at_end.
      assert (x = length input).
      { assert (Hl : length (drop x input) = 0%nat) by (rewrite Ed; reflexivity).
        rewrite length_drop in Hl. lia. }
      subst x. rewrite Nat.eqb_refl. reflexivity.
    + assert (Hlt : (x < length input)%nat).
      { assert (Hl : length (drop x input) = S (length rest)) by (rewrite Ed; reflexivity).
        rewrite length_drop in Hl. lia. }
      unfold class_matches. cbn [andb forallb]. rewrite orb_false_r.
      assert (Hend : at_end x = None).
      { unfold at_end. destruct (Nat.eqb_spec x (length input)); [lia | reflexivity]. }
      destruct (is_word ch); cbn [andb].
      * replace (S x <=? x)%nat with false by (symmetry; apply Nat.leb_gt; lia).
        rewrite IH by lia. rewrite (drop_tail input x ch rest Ed).
        destruct (forallb is_word rest); [reflexivity | exact Hend].
      * exact Hend.
Qed.

(** The pattern matches at [x] exactly when an extension starts there and
    ends the input. *)
Lemma ext_re_at (x : nat) :
  compile input false ext_re x Some
  = if is_extension (drop x input) then Some (length input) else None.
Proof.
  unfold ext_re, seq_of, plus. cbn [fold_right].
  cbn [compile repeat_required]. rewrite (lookup_head_drop input x).
  destruct (drop x input) as [|dot s1] eqn:E0; [reflexivity|].
  unfold canonicalize at 1 2. cbn [andb].
  destruct (Z.eqb_spec dot 46) as [->|Hne].
  - rewrite (lookup_head_drop input (S x)), (drop_tail input x 46 s1 E0).
    destruct s1 as [|c rest] eqn:E1; [reflexivity|].
    unfold class_matches. cbn [andb is_extension]. rewrite orb_false_r.
    destruct (is_word c); [|reflexivity]. cbn [andb].
    assert (Hd : drop (S (S x)) input = rest).
    { apply (drop_tail input (S x) c rest). apply (drop_tail input x 46 (c :: rest) E0). }
    assert (Hl : (S (S x) <= length input)%nat).
    { assert (Hl : length (drop x input) = S (S (length rest))) by (rewrite E0; reflexivity).
      rewrite length_drop in Hl. lia. }
    assert (Hcont : forall y,
               compile input false InputEnd y (fun z => compile input false Empty z Some)
               = at_end y) by reflexivity.
    change (fun y => compile input false InputEnd y
                       (fun z => compile input false Empty z Some)) with at_end.
    rewrite word_star_end by lia. rewrite Hd. reflexivity.
  - destruct dot as [|p|p]; try reflexivity.
    do 6 (destruct p as [p|p|]; try reflexivity). contradiction.
Qed.

(** The search finds the first index at which the pattern matches. *)
Lemma search_first (r : regex) (fuel i j e : nat) :
  (i <= j <= i + fuel)%nat ->
  (forall k, (i <= k < j)%nat -> compile input false r k Some = None) ->
  compile input false r j Some = Some e ->
  search input false r fuel i = Some (j, e).
Proof.
  revert i. induction fuel as [|fuel IH]; intros i Hij Hnone Hj.
  - assert (i = j) by lia. subst i. simpl. rewrite Hj. reflexivity.
  - destruct (Nat.eq_dec i j) as [->|Hne].
    + simpl. rewrite Hj. reflexivity.
    + simpl. rewrite Hnone by lia. apply IH; [lia | | exact Hj].
      intros k Hk. apply Hnone. lia.
Qed.

Lemma search_none (r : regex) (fuel i : nat) :
  (forall k, (i <= k <= i + fuel)%nat -> compile input false r k Some = None) ->
  search input false r fuel i = None.
Proof.
  revert i. induction fuel as [|fuel IH]; intros i Hnone; simpl.
  - rewrite Hnone by lia. reflexivity.
  - rewrite Hnone by lia. apply IH. intros k Hk. apply Hnone. lia.
Qed.

End Matcher.

Lemma forallb_word_no_dot (s1 s2 : jsstring) :
  forallb is_word (s1 ++ 46 :: s2) = false.
Proof.
  rewrite forallb_app. cbn [forallb].
  change (is_word 46) with false. cbn [andb]. apply andb_false_r.
Qed.

(** A name that ends with an extension: the extension is what the pattern
    finds. *)
Lemma replace_extension (base ext by_ : jsstring) :
  ext <> [] -> forallb is_word ext = true ->
  replace_first ext_re by_ (base ++ 46 :: ext) = base ++ by_.
Proof.
  intros Hne Hw. unfold replace_first.
  set (name := base ++ 46 :: ext).
  assert (Hdrop : drop (length base) name = 46 :: ext)
    by (unfold name; rewrite drop_app_length; reflexivity).
  rewrite (search_first name ext_re (length name) 0 (length base) (length name)).
  - rewrite drop_all, app_nil_r. unfold name. rewrite take_app_length. reflexivity.
  - unfold name. rewrite length_app. lia.
  - intros k Hk. rewrite ext_re_at.
    replace (is_extension (drop k name)) with false; [reflexivity|].
    symmetry. unfold name. rewrite drop_app_le by lia.
    destruct (drop k base) as [|d [|c rest]] eqn:Ed.
    + assert (Hl : length (drop k base) = 0%nat) by (rewrite Ed; reflexivity).
      rewrite length_drop in Hl. lia.
    + cbn [app is_extension].
      destruct d as [|p|p]; try reflexivity.
      do 6 (destruct p as [p|p|]; try reflexivity).
    + cbn [app is_extension].
      destruct d as [|p|p]; try reflexivity.
      do 6 (destruct p as [p|p|]; try reflexivity).
      rewrite forallb_word_no_dot. apply andb_false_r.
  - rewrite ext_re_at, Hdrop. cbn [is_extension].
    destruct ext as [|c rest]; [contradiction|].
    cbn [forallb] in Hw. rewrite Hw. reflexivity.
Qed.

(** A name without an extension at its end is left as it is. *)
Lemma replace_no_extension (name by_ : jsstring) :
  (forall k, is_extension (drop k name) = false) ->
  replace_first ext_re by_ name = name.
Proof.
  intros Hno. unfold replace_first. rewrite search_none; [reflexivity|].
  intros k _. rewrite ext_re_at, Hno. reflexivity.
Qed.

(** The output name.  When the name ends with a dot followed by word
    characters, at least one, that last extension is replaced by the suffix
    and the new extension, whatever comes before it (other dots included);
    a name with no such ending is kept whole.  The same holds for the name
    of the text file, with [.txt]. *)
Theorem output_name_replaces_last_extension (anonymized isPdf : bool) :
  let suffix := if anonymized then lit "_anonymized" else lit "_processed" in
  let ext' := if isPdf then lit ".pdf" else lit ".jpg" in
  (forall base ext,
      ext <> [] -> forallb is_word ext = true ->
      _generateOutputFilename (base ++ 46 :: ext) anonymized isPdf = base ++ suffix ++ ext'
      /\ text_file_name (base ++ 46 :: ext) = base ++ lit ".txt")
  /\ (forall name,
        (forall k, is_extension (drop k name) = false) ->
        _generateOutputFilename name anonymized isPdf = name ++ suffix ++ ext'
        /\ text_file_name name = name).
Proof.
  intros suffix ext'. split.
  - intros base ext Hne Hw. unfold _generateOutputFilename, text_file_name.
    rewrite !replace_extension by assumption. rewrite app_nil_r. split; reflexivity.
  - intros name Hno. unfold _generateOutputFilename, text_file_name.
    rewrite !replace_no_extension by assumption. split; reflexivity.
Qed.

Lemma output_name_replaces_last_extension_witness :
  _generateOutputFilename (lit "scan.v2.png") true false = lit "scan.v2_anonymized.jpg"
  /\ _generateOutputFilename (lit "scan") false true = lit "scan_processed.pdf".
Proof.
  destruct (output_name_replaces_last_extension true false) as [Hext _].
  destruct (output_name_replaces_last_extension false true) as [_ Hnone].
  destruct (Hext (lit "scan.v2") (lit "png")) as [E1 _]; [discriminate | reflexivity |].
  destruct (Hnone (lit "scan")) as [E2 _].
  { intros k. do 5 (destruct k as [|k]; [reflexivity|]). reflexivity. }
  split; [exact E1 | exact E2].
Defined.

End FilenameFacts.

(** ** The engine behind a worker *)

Module WorkerFacts.
Import JS Eff Image Engine EngineFacts RunFacts Worker.

Definition is_progress (m : message) : Prop :=
  match m with
  | ProgressMsg _ _ => True
  | _ => False
  end.

Lemma posted_for_running (l : list event) :
  Forall running l -> Forall is_progress (flat_map posted_for l).
Proof.
  induction 1 as [|e l He _ IH]; [constructor|].
  cbn [flat_map]. apply Forall_app. split; [|exact IH].
  destruct e; cbn in *; try discriminate; repeat constructor.
Qed.

(** *** The licence status of the engine *)

(** A computation that leaves [this.licenseStatus] as it is. *)
Definition keeps {A : Type} (m : eff EngineState A) : Prop :=
  forall st, licenseStatus (snd (m st)) = licenseStatus st.

Lemma keeps_bind {A B : Type} (m : eff EngineState A) (k : A -> eff EngineState B) :
  keeps m -> (forall a, keeps (k a)) -> keeps (Eff.bind m k).
Proof.
  intros Hm Hk st. unfold Eff.bind. specialize (Hm st).
  destruct (m st) as [[a|e|] st1]; cbn [snd] in *; [|exact Hm|exact Hm].
  rewrite Hk. exact Hm.
Qed.

Lemma keeps_if {A : Type} (b : bool) (m1 m2 : eff EngineState A) :
  keeps m1 -> keeps m2 -> keeps (if b then m1 else m2).
Proof. destruct b; auto. Qed.

Lemma keeps_ret {A : Type} (a : A) : keeps (ret a).
Proof. intros st. reflexivity. Qed.

Lemma keeps_throw {A : Type} (e : exn) : keeps (@throw EngineState A e).
Proof. intros st. reflexivity. Qed.

Lemma keeps_get : keeps get.
Proof. intros st. reflexivity. Qed.

Lemma keeps_await {A : Type} (o : outcome A) : keeps (await o).
Proof. intros st. reflexivity. Qed.

Lemma keeps_emit (e : event) : keeps (emit e).
Proof. intros st. reflexivity. Qed.

Lemma keeps_emitProgress (s : step) (p : float) : keeps (_emitProgress s p).
Proof. intros st. reflexivity. Qed.

Lemma keeps_set_isProcessing (b : bool) : keeps (set_isProcessing b).
Proof. intros st. reflexivity. Qed.

Lemma keeps_on_imageService {A : Type} (m : eff ImageService A) :
  keeps (on_imageService m).
Proof. intros st. unfold on_imageService. destruct (m (imageService st)). reflexivity. Qed.

Lemma keeps_on_nlpProcessor {A : Type} (m : eff NLP.NLPProcessor A) :
  keeps (on_nlpProcessor m).
Proof. intros st. unfold on_nlpProcessor. destruct (m (nlpProcessor st)). reflexivity. Qed.

Lemma keeps_emitComplete (r : ProcessResult) : keeps (_emitComplete r).
Proof. intros st. reflexivity. Qed.

Section Process.
Context `{UnicodeTables}.

Lemma ocr_stage_keeps (w : World) (file : File) : keeps (ocr_stage w file).
Proof.
  unfold ocr_stage.
  apply keeps_bind; [apply keeps_emitProgress | intros _].
  apply keeps_if; [apply keeps_throw|].
  apply keeps_bind; [apply keeps_emitProgress | intros _].
  apply keeps_bind.
  { unfold load_and_init. apply keeps_bind; [apply keeps_await | intros bitmap].
    apply keeps_on_imageService. }
  intros _.
  apply keeps_bind; [apply keeps_emitProgress | intros _].
  apply keeps_bind.
  { intros st. unfold extractText. destruct (w_recognize w) as [result|e|];
      [|reflexivity|reflexivity].
    apply (keeps_bind (ocr_callback 1%float) (fun _ => ret result));
      [apply keeps_emitProgress | intros _; apply keeps_ret]. }
  intros ocrResult.
  apply keeps_bind; [apply keeps_emitProgress | intros _].
  apply keeps_ret.
Qed.

Lemma anonymisation_keeps (w : World) (options : Options) (ocrResult : OCR.OcrResult) :
  keeps (anonymisation w options ocrResult).
Proof.
  unfold anonymisation. apply keeps_if; [|apply keeps_ret].
  apply keeps_bind; [apply keeps_emitProgress | intros _].
  apply keeps_bind; [apply keeps_on_nlpProcessor | intros nlpResult].
  apply keeps_bind; [apply keeps_emitProgress | intros _].
  apply keeps_bind; [|intros _; apply keeps_ret].
  apply keeps_if; [|apply keeps_emitProgress].
  apply keeps_bind; [apply keeps_emitProgress | intros _].
  apply keeps_bind; [apply keeps_emit | intros _].
  apply keeps_bind; [apply keeps_on_imageService | intros _].
  apply keeps_emitProgress.
Qed.

Lemma finish_keeps (w : World) (options : Options) (nlpResult : option NLP.NlpResult) :
  keeps (finish w options nlpResult).
Proof.
  unfold finish.
  apply keeps_bind; [apply keeps_get | intros st].
  apply keeps_bind.
  { apply keeps_if; [|apply keeps_ret].
    apply keeps_bind; [apply keeps_emitProgress | intros _].
    apply keeps_bind; [apply keeps_emit | intros _].
    apply keeps_on_imageService. }
  intros _.
  apply keeps_bind; [apply keeps_emitProgress | intros _].
  apply keeps_bind; [apply keeps_await | intros _].
  apply keeps_bind; [apply keeps_emitProgress | intros _].
  apply keeps_bind; [apply keeps_await | intros _].
  apply keeps_bind; [apply keeps_emitComplete | intros _].
  apply keeps_ret.
Qed.

(** No run changes the licence status of the engine, however it ends. *)
Lemma processFile_keeps (w : World) (file : File) (options : Options) :
  keeps (processFile w file options).
Proof.
  intros st. rewrite processFile_unfold.
  assert (Hb : keeps (process_body w file options)).
  { unfold process_body.
    apply keeps_bind; [apply keeps_set_isProcessing | intros _].
    apply keeps_bind; [apply ocr_stage_keeps | intros ocrResult].
    apply keeps_if.
    - apply keeps_bind; [apply keeps_emitComplete | intros _; apply keeps_ret].
    - apply keeps_bind; [apply anonymisation_keeps | intros nlpResult].
      apply finish_keeps. }
  specialize (Hb st).
  destruct (process_body w file options st) as [[r|e|] st1]; exact Hb.
Qed.

(** *** What the worker posts *)

(** What the worker posts at the end of a run: the listener of the engine
    posts first, the message handler second. *)
Lemma on_process_outbox (lic : option LicenseStatus) (w : World) (file : File)
    (options : Options) (ws : WorkerState) (eng : EngineState) :
  engine (initEngine lic ws) = Some eng ->
  exists progress,
    Forall is_progress progress
    /\ match fst (processFile w file options eng) with
       | Returns r =>
           exists p, reported w r p
             /\ outbox (on_process lic w file options ws)
                = outbox ws ++ progress ++ [CompleteMsg p; ResultMsg r]
       | Throws e =>
           outbox (on_process lic w file options ws)
           = outbox ws ++ progress ++ [ErrorMsg e; ErrorMsg e]
       | Hangs => outbox (on_process lic w file options ws) = outbox ws ++ progress
       end.
Proof.
  intros Heng. unfold on_process. rewrite Heng.
  assert (Hout : outbox (initEngine lic ws) = outbox ws)
    by (unfold initEngine; destruct (engine ws); reflexivity).
  destruct (run_ends_once_aux w file options eng) as (l & Hl & Hrun).
  destruct (processFile w file options eng) as [[r|e|] eng']; cbn [fst snd] in *.
  - destruct Hrun as (p & Hp & E & _). rewrite E, drop_app_length.
    exists (flat_map posted_for l). split; [apply posted_for_running; exact Hl|].
    exists p. split; [exact Hp|].
    cbn [post outbox]. rewrite Hout, flat_map_app.
    cbn [flat_map posted_for app]. rewrite <- !app_assoc. reflexivity.
  - destruct Hrun as (E & _). rewrite E, drop_app_length.
    exists (flat_map posted_for l). split; [apply posted_for_running; exact Hl|].
    cbn [post outbox]. rewrite Hout, flat_map_app.
    cbn [flat_map posted_for app]. rewrite <- !app_assoc. reflexivity.
  - rewrite Hrun, drop_app_length.
    exists (flat_map posted_for l). split; [apply posted_for_running; exact Hl|].
    cbn [outbox]. rewrite Hout. reflexivity.
Qed.

(** In a world where the image does not load, no run returns. *)
Lemma processFile_needs_image (w : World) (file : File) (options : Options)
    (st : EngineState) (r : ProcessResult) :
  (forall cv, w_loadImage w <> Returns cv) ->
  fst (processFile w file options st) <> Returns r.
Proof.
  intros Hload Hr. rewrite processFile_unfold in Hr.
  pose proof (process_body_needs_image w file options Hload st) as Hb.
  destruct (process_body w file options st) as [[r'|e|] st1]; cbn [fst] in *;
    try discriminate.
  exact (Hb r' eq_refl).
Qed.

(** With an engine, the licence status that a ['process'] message carries
    is not read, and the status of the engine stays what it is. *)
Lemma on_process_engine (lic : option LicenseStatus) (w : World) (file : File)
    (options : Options) (ws : WorkerState) (eng : EngineState) :
  engine ws = Some eng ->
  on_process lic w file options ws = on_process None w file options ws
  /\ exists eng', engine (on_process lic w file options ws) = Some eng'
                  /\ licenseStatus eng' = licenseStatus eng.
Proof.
  intros Heng.
  assert (Hinit : forall l, initEngine l ws = ws)
    by (intros l; unfold initEngine; rewrite Heng; reflexivity).
  unfold on_process. rewrite !Hinit, Heng.
  split; [reflexivity|].
  pose proof (processFile_keeps w file options eng) as Hk.
  destruct (processFile w file options eng) as [[r|e|] eng']; cbn [snd] in Hk;
    exists eng'; (split; [reflexivity | exact Hk]).
Qed.

End Process.

Definition is_end (c : call) : bool :=
  match c with
  | CallProgress _ _ => false
  | _ => true
  end.

Lemma progress_calls (cb : Callbacks) (progress : list message) :
  Forall is_progress progress ->
  List.filter is_end (flat_map (_handleMessage cb) progress) = [].
Proof.
  induction 1 as [|m l Hm _ IH]; [reflexivity|].
  cbn [flat_map]. rewrite filter_app, IH, app_nil_r.
  destruct m; try contradiction. cbn [_handleMessage].
  destruct (onProgress cb); reflexivity.
Qed.

(** A world as a worker has it: there is neither [Image] nor [document],
    and [loadImage] is rejected. *)
Definition worker_world : World :=
  {| w_loadImage := Throws LoadFailed;
     w_recognize := Returns demo_ocr;
     w_nlp := None;
     w_watermark := fun cv => cv;
     w_exportFile := Returns tt;
     w_exportThumbnail := Returns tt |}.

(** In a worker, where [loadImage] does not resolve (it needs [Image], and
    [initCanvas] needs [document]), no ['process'] message is answered by
    ['complete'] or ['result']: the run does not return.  When it ends, it
    ends with an error [e], which reaches the manager twice: after the
    progress messages the worker posts ['error'] for [e] two times, once
    from the listener it registered on the engine and once from its
    message handler, and [onError] is called twice.  When the run does not
    end, only progress messages are posted. *)
Theorem worker_reports_a_failure_twice (U : UnicodeTables) (lic : option LicenseStatus)
    (w : World) (file : File) (options : Options) (ws : WorkerState) (cb : Callbacks) :
  (forall cv, w_loadImage w <> Returns cv) ->
  let eng := match engine ws with Some eng => eng | None => constructor lic end in
  let posted := drop (length (outbox ws)) (outbox (on_process lic w file options ws)) in
  exists progress,
    Forall is_progress progress
    /\ match fst (processFile w file options eng) with
       | Throws e =>
           posted = progress ++ [ErrorMsg e; ErrorMsg e]
           /\ List.filter is_end (flat_map (_handleMessage cb) posted)
              = if onError cb then [CallError e; CallError e] else []
       | Hangs =>
           posted = progress
           /\ List.filter is_end (flat_map (_handleMessage cb) posted) = []
       | Returns _ => False
       end.
Proof.
  intros Hload eng posted.
  assert (Heng : engine (initEngine lic ws) = Some eng).
  { unfold initEngine, eng. destruct (engine ws) as [e|] eqn:E; [exact E | reflexivity]. }
  destruct (on_process_outbox lic w file options ws eng Heng) as (progress & Hp & Hout).
  pose proof (processFile_needs_image w file options eng) as Hnever.
  exists progress. split; [exact Hp|]. unfold posted.
  destruct (fst (processFile w file options eng)) as [r|e|].
  - exact (Hnever r Hload eq_refl).
  - rewrite Hout, drop_app_length. split; [reflexivity|].
    rewrite flat_map_app, filter_app, (progress_calls cb progress Hp).
    cbn [app flat_map _handleMessage]. destruct (onError cb); reflexivity.
  - rewrite Hout, drop_app_length. split; [reflexivity|].
    apply progress_calls. exact Hp.
Qed.

Lemma worker_reports_a_failure_twice_witness :
  exists progress,
    Forall is_progress progress
    /\ drop 2 (outbox (@on_process Latin1.tables None worker_world demo_file anonymize_on
                         (on_init None loaded)))
       = progress ++ [ErrorMsg LoadFailed; ErrorMsg LoadFailed].
Proof.
  pose proof (worker_reports_a_failure_twice Latin1.tables None worker_world demo_file
                anonymize_on (on_init None loaded)
                {| onProgress := true; onComplete := true; onError := true |}) as Hw.
  destruct Hw as (progress & Hp & Hposted); [intros cv; discriminate|].
  assert (E : fst (@processFile Latin1.tables worker_world demo_file anonymize_on
                     (constructor None)) = Throws LoadFailed) by (vm_compute; reflexivity).
  change (match engine (on_init None loaded) with
          | Some eng => eng
          | None => constructor None
          end) with (constructor None) in Hposted.
  rewrite E in Hposted. destruct Hposted as [Hposted _].
  exists progress. split; [exact Hp | exact Hposted].
Defined.

(** *** The licence status of a ['process'] message *)

(** A ['process'] message, with the answers of the collaborators during
    the run it starts. *)
Record ProcessMessage : Type := mkProcessMessage {
  m_licenseStatus : option LicenseStatus;
  m_world : World;
  m_file : File;
  m_options : Options
}.

Definition deliver `{UnicodeTables} (ws : WorkerState) (m : ProcessMessage) : WorkerState :=
  on_process (m_licenseStatus m) (m_world m) (m_file m) (m_options m) ws.

(** The same message without a licence status. *)
Definition without_licence (m : ProcessMessage) : ProcessMessage :=
  {| m_licenseStatus := None; m_world := m_world m; m_file := m_file m;
     m_options := m_options m |}.

Lemma deliver_all `{UnicodeTables} (msgs : list ProcessMessage) :
  forall (ws : WorkerState) (eng : EngineState),
    engine ws = Some eng ->
    fold_left deliver msgs ws = fold_left deliver (map without_licence msgs) ws
    /\ exists eng', engine (fold_left deliver msgs ws) = Some eng'
                    /\ licenseStatus eng' = licenseStatus eng.
Proof.
  induction msgs as [|m msgs IH]; intros ws eng Heng; cbn [fold_left map].
  - split; [reflexivity|]. exists eng. auto.
  - destruct (on_process_engine (m_licenseStatus m) (m_world m) (m_file m) (m_options m)
                ws eng Heng) as (Esame & eng1 & Heng1 & Hlic1).
    assert (Ed : deliver ws (without_licence m) = deliver ws m).
    { unfold deliver, without_licence. cbn. symmetry. exact Esame. }
    rewrite Ed.
    destruct (IH (deliver ws m) eng1 Heng1) as (E & eng' & Heng' & Hlic').
    split; [exact E|]. exists eng'. split; [exact Heng' | congruence].
Qed.

(** The licence status that comes with a ['process'] message is read only
    when the worker has no engine yet.  After an ['init'] message, whatever
    ['process'] messages follow and whatever status they carry, the engine
    keeps the status given at ['init'] (the default one, which requires
    the watermark, when none was given), and the worker ends in the state
    and with the messages it would have without any status in the
    ['process'] messages. *)
Theorem process_message_licence_is_ignored (U : UnicodeTables)
    (lic0 : option LicenseStatus) (ws : WorkerState) (msgs : list ProcessMessage) :
  engine ws = None ->
  let ws' := fold_left deliver msgs (on_init lic0 ws) in
  ws' = fold_left deliver (map without_licence msgs) (on_init lic0 ws)
  /\ exists eng,
       engine ws' = Some eng
       /\ licenseStatus eng
          = default {| isPro := false; requiresWatermark := true |} lic0.
Proof.
  intros Hnone ws'.
  assert (Heng : engine (on_init lic0 ws) = Some (constructor lic0)).
  { unfold on_init, post, initEngine. rewrite Hnone. reflexivity. }
  destruct (deliver_all msgs (on_init lic0 ws) _ Heng) as (E & eng & Heng' & Hlic).
  split; [exact E|]. exists eng. split; [exact Heng' | exact Hlic].
Qed.

Lemma process_message_licence_is_ignored_witness :
  exists eng,
    engine (fold_left (@deliver Latin1.tables)
              [ {| m_licenseStatus := Some {| isPro := true; requiresWatermark := false |};
                   m_world := worker_world; m_file := demo_file;
                   m_options := anonymize_on |} ]
              (on_init None loaded))
    = Some eng
    /\ requiresWatermark (licenseStatus eng) = true.
Proof.
  destruct (process_message_licence_is_ignored Latin1.tables None loaded
              [ {| m_licenseStatus := Some {| isPro := true; requiresWatermark := false |};
                   m_world := worker_world; m_file := demo_file;
                   m_options := anonymize_on |} ] eq_refl)
    as (_ & eng & Heng & Hlic).
  exists eng. split; [exact Heng|]. rewrite Hlic. reflexivity.
Defined.

End WorkerFacts.

(** ** The OCR service *)

Module OCRServiceFacts.
Import JS OCR Eff OCRService.

(** When the service says it is initialised, it has a worker, and the
    worker was created for the language of the service. *)
Definition consistent (svc : Service) : Prop :=
  isInitialized svc = true ->
  exists tw, worker svc = Some tw /\ made_for tw = language svc.

(** A call of one of the methods of the service. *)
Inductive method : Type :=
| Initialize
| ExtractText
| SetLanguage (l : jsstring)
| Terminate.

Definition run_method (t : Tesseract) (m : method) (svc : Service) : Service :=
  match m with
  | Initialize => snd (initialize t svc)
  | ExtractText => snd (extractText t svc)
  | SetLanguage l => snd (setLanguage t l svc)
  | Terminate => snd (terminate t svc)
  end.

Lemma initialize_consistent (t : Tesseract) (svc : Service) :
  consistent svc -> consistent (snd (initialize t svc)).
Proof.
  intros Hc. unfold initialize. destruct (isInitialized svc) eqn:Ei; [exact Hc|].
  destruct (t_createWorker t (language svc)); [|exact Hc].
  intros _. eexists. split; reflexivity.
Qed.

Lemma extractText_state (t : Tesseract) (svc : Service) :
  snd (extractText t svc) = snd (initialize t svc).
Proof.
  unfold extractText, Eff.bind, initialize.
  destruct (isInitialized svc) eqn:Ei; cbn [snd].
  - destruct (worker svc) as [tw|]; [|reflexivity].
    destruct (t_recognize t tw); reflexivity.
  - destruct (t_createWorker t (language svc)); [|reflexivity].
    cbn [worker]. destruct (t_recognize t _); reflexivity.
Qed.

Lemma run_method_consistent (t : Tesseract) (m : method) (svc : Service) :
  consistent svc -> consistent (run_method t m svc).
Proof.
  intros Hc. destruct m as [| |l|]; cbn [run_method].
  - apply initialize_consistent. exact Hc.
  - rewrite extractText_state. apply initialize_consistent. exact Hc.
  - unfold setLanguage. destruct (str_eqb (language svc) l); [exact Hc|].
    cbn [worker]. destruct (worker svc) as [tw|]; [|intros [=]].
    destruct (t_terminate t tw); intros [=].
  - unfold terminate. destruct (worker svc) as [tw|]; [|exact Hc].
    destruct (t_terminate t tw); [intros [=] | exact Hc].
Qed.

(** The service after a sequence of calls, each answered by Tesseract as
    it pleases. *)
Fixpoint run_methods (calls : list (Tesseract * method)) (svc : Service) : Service :=
  match calls with
  | [] => svc
  | (t, m) :: calls => run_methods calls (run_method t m svc)
  end.

Lemma run_methods_consistent (calls : list (Tesseract * method)) (svc : Service) :
  consistent svc -> consistent (run_methods calls svc).
Proof.
  revert svc. induction calls as [|[t m] calls IH]; intros svc Hc; [exact Hc|].
  apply IH, run_method_consistent, Hc.
Qed.

(** Whatever calls were made on the service since its construction and
    however Tesseract answered them (failures of [createWorker] and of
    [terminate] included), a text that [extractText] returns was read by a
    worker created for the language the service has at that moment: after
    [setLanguage(l)], no text is read with a worker of another language. *)
Theorem text_is_read_in_the_current_language
    (options_language : option jsstring) (calls : list (Tesseract * method))
    (t : Tesseract) (result : OcrResult) :
  let svc := run_methods calls (constructor options_language) in
  fst (extractText t svc) = Returns result ->
  t_recognize t {| made_for := language svc |} = Returns result
  /\ worker (snd (extractText t svc)) = Some {| made_for := language svc |}
  /\ language (snd (extractText t svc)) = language svc.
Proof.
  intros svc.
  assert (Hc : consistent svc).
  { apply run_methods_consistent. intros [=]. }
  unfold extractText, Eff.bind, initialize.
  destruct (isInitialized svc) eqn:Ei.
  - destruct (Hc Ei) as ([l] & Hw & Hl). cbn [made_for] in Hl. subst l.
    rewrite Hw. destruct (t_recognize t _) as [r|e|] eqn:Er; cbn [fst snd];
      try discriminate.
    intros [= <-]. rewrite Hw. auto.
  - destruct (t_createWorker t (language svc)); cbn [fst snd worker]; [|discriminate].
    destruct (t_recognize t _) as [r|e|] eqn:Er; cbn [fst snd]; try discriminate.
    intros [= <-]. auto.
Qed.

Lemma text_is_read_in_the_current_language_witness :
  let t := {| t_createWorker := fun _ => true;
              t_recognize := fun tw =>
                Returns {| o_text := made_for tw; o_confidence := 90%float;
                           o_words := [] |};
              t_terminate := fun _ => false |} in
  let svc := run_methods [(t, ExtractText); (t, SetLanguage (lit "deu"))]
               (constructor None) in
  worker svc = Some {| made_for := lit "fra+eng" |}
  /\ worker (snd (extractText t svc)) = Some {| made_for := lit "deu" |}.
Proof.
  intros t svc. split; [reflexivity|].
  destruct (text_is_read_in_the_current_language None
              [(t, ExtractText); (t, SetLanguage (lit "deu"))] t
              {| o_text := lit "deu"; o_confidence := 90%float; o_words := [] |})
    as (_ & Hw & _); [reflexivity|].
  exact Hw.
Defined.

End OCRServiceFacts.

(** ** A batch of dropped files *)

Module AppFacts.
Import JS Eff Security Licence LicenceFacts RunFacts App.

Definition total (c : Counts) : Z := successCount c + errorCount c + skippedCount c.

Section Batch.
Context `{UnicodeTables}.

Lemma loop_accounts (files : list DroppedFile) :
  forall page c c' page',
    loop files page c = (Finished c', page') ->
    total c' = total c + Z.of_nat (length files)
    /\ successCount c <= successCount c'
    /\ errorCount c <= errorCount c'
    /\ skippedCount c <= skippedCount c'.
Proof.
  induction files as [|file rest IH]; intros page c c' page' Hrun.
  - injection Hrun as <- <-. simpl. lia.
  - cbn [loop] in Hrun. rewrite length_cons, Nat2Z.inj_succ.
    destruct (negb _ && negb _).
    { apply IH in Hrun. unfold total, add_error in *. simpl in *. lia. }
    destruct (too_large _ _).
    { apply IH in Hrun. unfold total, add_error in *. simpl in *. lia. }
    destruct (consumeFileCredit (securityManager page)) as [[[|]|] sm].
    + destruct (Engine.processFile _ _ _ _) as [[r|e|] eng]; [| |discriminate].
      * apply IH in Hrun. unfold total, add_success in *. simpl in *. lia.
      * apply IH in Hrun. unfold total, add_error in *. simpl in *. lia.
    + injection Hrun as <- <-. unfold total, add_skipped. simpl.
      rewrite Nat2Z.inj_succ. lia.
    + discriminate.
Qed.

End Batch.

(** The terminal events a run of the batch added to the record of the
    engine: one for each call of [engine.processFile] that ended. *)
Definition runs (page page' : Page) : Z :=
  Z.of_nat (length (List.filter terminal
                      (drop (length (Engine.emitted (engine page)))
                            (Engine.emitted (engine page'))))).

Lemma consume_free (sm sm' : SecurityManager) (r : Z) (b : bool) :
  isPro (status sm) = false -> remainingFiles (status sm) = Finite r ->
  consumeFileCredit sm = (Value b, sm') ->
  isPro (status sm') = false
  /\ if b then 0 < r /\ remainingFiles (status sm') = Finite (r - 1)
     else r <= 0 /\ sm' = sm.
Proof.
  intros Hfree Hr. unfold consumeFileCredit. rewrite Hfree, Hr. cbn [quota_pos].
  destruct (Z.ltb_spec 0 r) as [Hpos|Hneg].
  - cbn [store status]. destruct (localseal_counter (store sm)); [|discriminate].
    intros [= <- <-]. cbn [status set_remainingFiles isPro remainingFiles quota_sub].
    auto.
  - intros [= <- <-]. auto.
Qed.

Lemma consume_pro (sm : SecurityManager) :
  isPro (status sm) = true -> consumeFileCredit sm = (Value true, sm).
Proof. intros Hpro. unfold consumeFileCredit. rewrite Hpro. reflexivity. Qed.

Section Credits.
Context `{UnicodeTables}.

(** One call of the engine adds one terminal event when it ends. *)
Lemma one_run (w : Engine.World) (file : Engine.File) (o : Engine.Options)
    (eng : Engine.EngineState) :
  exists added,
    Engine.emitted (snd (Engine.processFile w file o eng)) = Engine.emitted eng ++ added
    /\ match fst (Engine.processFile w file o eng) with
       | Hangs => True
       | _ => length (List.filter terminal added) = 1%nat
       end.
Proof.
  destruct (run_ends_once_aux w file o eng) as (l & Hl & Hrun).
  assert (Hq : List.filter terminal l = []).
  { clear Hrun. induction Hl as [|e l He _ IH]; [reflexivity|].
    cbn [List.filter]. unfold running in He. rewrite He. exact IH. }
  destruct (fst (Engine.processFile w file o eng)) as [r|e|].
  - destruct Hrun as (p & _ & E & _). exists (l ++ [Engine.Completed p]). split; [exact E|].
    rewrite filter_app, Hq. reflexivity.
  - destruct Hrun as (E & _). exists (l ++ [Engine.Failed e]). split; [exact E|].
    rewrite filter_app, Hq. reflexivity.
  - exists l. split; [exact Hrun | exact I].
Qed.

Lemma loop_free (files : list DroppedFile) :
  forall page c c' page' r,
    isPro (status (securityManager page)) = false ->
    remainingFiles (status (securityManager page)) = Finite r ->
    0 <= r ->
    loop files page c = (Finished c', page') ->
    exists added,
      Engine.emitted (engine page') = Engine.emitted (engine page) ++ added
      /\ let k := Z.of_nat (length (List.filter terminal added)) in
         k <= r
         /\ remainingFiles (status (securityManager page')) = Finite (r - k)
         /\ successCount c' - successCount c <= k
         /\ (skippedCount c < skippedCount c' -> k = r).
Proof.
  induction files as [|file rest IH]; intros page c c' page' r Hfree Hr Hpos Hrun.
  - injection Hrun as <- <-. exists []. rewrite app_nil_r. cbn. split; [reflexivity|].
    rewrite Z.sub_0_r. repeat split; try lia. exact Hr.
  - cbn [loop] in Hrun.
    destruct (negb _ && negb _).
    { destruct (IH _ _ _ _ r Hfree Hr Hpos Hrun) as (added & E & Hk).
      exists added. split; [exact E|]. cbn zeta in *. unfold add_error in Hk.
      simpl in Hk. exact Hk. }
    destruct (too_large _ _).
    { destruct (IH _ _ _ _ r Hfree Hr Hpos Hrun) as (added & E & Hk).
      exists added. split; [exact E|]. cbn zeta in *. unfold add_error in Hk.
      simpl in Hk. exact Hk. }
    destruct (consumeFileCredit (securityManager page)) as [[b|] sm] eqn:Ec;
      [|discriminate].
    destruct (consume_free _ _ r b Hfree Hr Ec) as (Hfree' & Hb).
    destruct b.
    + destruct Hb as (Hr1 & Hr').
      cbv zeta in Hrun.
      destruct (one_run (d_world file)
                  {| Engine.f_type := d_type file; Engine.f_ext := d_ext file |}
                  options (set_licence sm (engine page))) as (a1 & E1 & H1).
      destruct (Engine.processFile _ _ _ _) as [[res|e|] eng]; [| |discriminate];
        cbn [fst snd] in *;
        (destruct (IH {| securityManager := sm; engine := eng |} _ _ _ (r - 1)
                     Hfree' Hr' ltac:(lia) Hrun) as (added & E & Hk));
        cbn [engine securityManager] in *;
        (exists (a1 ++ added); split;
         [rewrite E, E1; cbn [set_licence Engine.emitted]; rewrite app_assoc; reflexivity|]);
        cbn zeta in *; rewrite filter_app, length_app, Nat2Z.inj_add;
        rewrite H1; destruct Hk as (Hk1 & Hk2 & Hk3 & Hk4);
        unfold add_success, add_error in *; simpl in *;
        (repeat split; [lia | rewrite Hk2; f_equal; lia | lia | lia]).
    + destruct Hb as (Hr0 & ->). injection Hrun as <- <-.
      exists []. rewrite app_nil_r. cbn. split; [reflexivity|].
      rewrite Z.sub_0_r. repeat split; try lia. exact Hr.
Qed.

Lemma loop_pro (files : list DroppedFile) :
  forall page c c' page',
    isPro (status (securityManager page)) = true ->
    fst (loop files page c) = Finished c' ->
    page' = snd (loop files page c) ->
    skippedCount c' = skippedCount c
    /\ securityManager page' = securityManager page.
Proof.
  induction files as [|file rest IH]; intros page c c' page' Hpro Hrun ->.
  - injection Hrun as <-. auto.
  - cbn [loop] in *.
    destruct (negb _ && negb _).
    { destruct (IH _ _ _ _ Hpro Hrun eq_refl) as (E1 & E2). auto. }
    destruct (too_large _ _).
    { destruct (IH _ _ _ _ Hpro Hrun eq_refl) as (E1 & E2). auto. }
    rewrite (consume_pro _ Hpro) in *. cbv zeta in *.
    destruct (Engine.processFile _ _ _ _) as [[res|e|] eng]; [| |discriminate].
    + destruct (IH {| securityManager := securityManager page; engine := eng |}
                  _ _ _ Hpro Hrun eq_refl) as (E1 & E2). auto.
    + destruct (IH {| securityManager := securityManager page; engine := eng |}
                  _ _ _ Hpro Hrun eq_refl) as (E1 & E2). auto.
Qed.

End Credits.

(** Sample batches: three images for a page with two credits left, and
    three files of which the first is not an image, for a page with one. *)
Definition image_file : DroppedFile :=
  {| d_type := lit "image/png"; d_size := 1000; d_ext := lit "png";
     d_world := EngineFacts.demo_world EngineFacts.demo_ocr |}.

Definition text_file : DroppedFile :=
  {| d_type := lit "text/plain"; d_size := 10; d_ext := lit "txt";
     d_world := EngineFacts.demo_world EngineFacts.demo_ocr |}.

Definition free_page (credits : Z) : Page :=
  {| securityManager :=
       {| status := set_remainingFiles (Finite credits) initialStatus;
          store := {| items := emptyStorage;
                      localseal_counter :=
                        Some {| c_date := lit "Tue Nov 03 2026"; c_count := 5 - credits |} |} |};
     engine := Engine.constructor None |}.

Definition pro_page : Page :=
  {| securityManager :=
       {| status := proStatus {| sl_key := lit "AAAA-BBBB-CCCC-DDDD";
                                 sl_expirationDate := 1900000000000;
                                 sl_isPro := true |};
          store := {| items := emptyStorage;
                      localseal_counter := None |} |};
     engine := Engine.constructor None |}.

(** Every file of a batch is counted once: when [handleFiles] ends, the
    files that succeeded, those that failed (refused for their type or
    their size, or failed in the engine) and those that were skipped for
    want of credits add up to the number of files dropped. *)
Theorem batch_counts_every_file (U : UnicodeTables) (files : list DroppedFile)
    (page : Page) (c : Counts) :
  fst (handleFiles files page) = Finished c ->
  successCount c + errorCount c + skippedCount c = Z.of_nat (length files)
  /\ 0 <= successCount c /\ 0 <= errorCount c /\ 0 <= skippedCount c.
Proof.
  intros Hrun. destruct (handleFiles files page) as [e page'] eqn:E.
  cbn [fst] in Hrun. subst e.
  apply loop_accounts in E. unfold total in E. simpl in E. lia.
Qed.

Lemma batch_counts_every_file_witness :
  fst (@handleFiles Latin1.tables [text_file; image_file; image_file] (free_page 1))
  = Finished {| successCount := 1; errorCount := 1; skippedCount := 1 |}
  /\ 1 + 1 + 1 = Z.of_nat (length [text_file; image_file; image_file]).
Proof.
  assert (E : fst (@handleFiles Latin1.tables [text_file; image_file; image_file]
                     (free_page 1))
              = Finished {| successCount := 1; errorCount := 1; skippedCount := 1 |})
    by (vm_compute; reflexivity).
  split; [exact E|].
  exact (proj1 (batch_counts_every_file Latin1.tables
                  [text_file; image_file; image_file] (free_page 1) _ E)).
Defined.

(** Without a Pro licence a batch cannot run the engine more often than
    there are credits left.  For a page that is not Pro and has [r]
    credits, a batch that ends has called the engine [k] times with
    [k <= r], has [r - k] credits left, counts at most [k] successes, and
    has skipped files only if it used the credits up ([k = r]). *)
Theorem free_batch_spends_a_credit_per_run (U : UnicodeTables)
    (files : list DroppedFile) (page : Page) (c : Counts) (r : Z) :
  isPro (status (securityManager page)) = false ->
  remainingFiles (status (securityManager page)) = Finite r ->
  0 <= r ->
  fst (handleFiles files page) = Finished c ->
  let page' := snd (handleFiles files page) in
  runs page page' <= r
  /\ remainingFiles (status (securityManager page')) = Finite (r - runs page page')
  /\ successCount c <= runs page page'
  /\ (0 < skippedCount c -> runs page page' = r).
Proof.
  intros Hfree Hr Hpos Hrun page'. unfold page', runs.
  destruct (handleFiles files page) as [e p'] eqn:E. cbn [fst snd] in *. subst e.
  destruct (loop_free files _ _ _ _ r Hfree Hr Hpos E) as (added & Ea & Hk).
  rewrite Ea, drop_app_length. cbn zeta in Hk. simpl in Hk. 
  destruct Hk as (H1 & H2 & H3 & H4). repeat split; try assumption; lia.
Qed.

Lemma free_batch_spends_a_credit_per_run_witness :
  let page' := snd (@handleFiles Latin1.tables [image_file; image_file; image_file]
                      (free_page 2)) in
  runs (free_page 2) page' = 2
  /\ remainingFiles (status (securityManager page')) = Finite 0.
Proof.
  intros page'.
  assert (Ek : runs (free_page 2) page' = 2) by (vm_compute; reflexivity).
  split; [exact Ek|].
  destruct (free_batch_spends_a_credit_per_run Latin1.tables
              [image_file; image_file; image_file] (free_page 2)
              {| successCount := 2; errorCount := 0; skippedCount := 1 |} 2)
    as (_ & Hleft & _).
  - reflexivity.
  - reflexivity.
  - lia.
  - vm_compute. reflexivity.
  - fold page' in Hleft. rewrite Ek in Hleft. exact Hleft.
Defined.

(** With a Pro licence a batch skips no file and spends nothing: when it
    ends, its count of skipped files is zero and the manager (its status
    and its storage) is as before. *)
Theorem pro_batch_skips_nothing (U : UnicodeTables) (files : list DroppedFile)
    (page : Page) (c : Counts) :
  isPro (status (securityManager page)) = true ->
  fst (handleFiles files page) = Finished c ->
  skippedCount c = 0
  /\ securityManager (snd (handleFiles files page)) = securityManager page.
Proof.
  intros Hpro Hrun. exact (loop_pro files page _ c _ Hpro Hrun eq_refl).
Qed.

Lemma pro_batch_skips_nothing_witness :
  fst (@handleFiles Latin1.tables [image_file; text_file; image_file] pro_page)
  = Finished {| successCount := 2; errorCount := 1; skippedCount := 0 |}
  /\ securityManager (snd (@handleFiles Latin1.tables [image_file; text_file; image_file]
                             pro_page))
     = securityManager pro_page.
Proof.
  assert (E : fst (@handleFiles Latin1.tables [image_file; text_file; image_file] pro_page)
              = Finished {| successCount := 2; errorCount := 1; skippedCount := 0 |})
    by (vm_compute; reflexivity).
  split; [exact E|].
  exact (proj2 (pro_batch_skips_nothing Latin1.tables
                  [image_file; text_file; image_file] pro_page _ eq_refl E)).
Defined.

End AppFacts.
